(** * MoZuku language server (Python port): offset model, masking and
      grammar rules

    A shallow embedding of the pure core of [mozuku_lsp]:
    - [comment_extractor.py]: comment sanitizers and the two masking
      operations;
    - [grammar_checker.py]: feature predicates and the six grammar rules;
    - [server.py]: the Position/offset conversions.

    Python values are modelled as follows.
    - [str] is a list of code points ([Z]); [bytes] is a list of byte values
      ([Z] in [0, 255]); [int] is [Z].
    - Exceptions are explicit: a computation that can raise returns a
      [result].  [str.encode("utf-8")] raises [UnicodeEncodeError] on a lone
      surrogate; an out-of-range subscript raises [IndexError].
    - [bytes.decode("utf-8", errors="replace")] follows CPython's decoder:
      every maximal ill-formed subsequence becomes one U+FFFD. *)

From Stdlib Require Import ZArith Lia String Ascii DecimalString.
From stdpp Require Import base list.

Local Open Scope Z_scope.

(* ===================================================================== *)
(** ** The Python runtime fragment the sources rely on                    *)
(* ===================================================================== *)

Module Py.

(** A Python [str]: the sequence of its code points. *)
Abbreviation str := (list Z) (only parsing).
(** A Python [bytes] object: the sequence of its byte values. *)
Abbreviation bytes := (list Z) (only parsing).

Inductive exn : Type :=
| IndexError
| UnicodeEncodeError.

Inductive result (A : Type) : Type :=
| Ok (a : A)
| Raise (e : exn).
Arguments Ok {A} a.
Arguments Raise {A} e.

Definition bind {A B : Type} (m : result A) (k : A -> result B) : result B :=
  match m with
  | Ok a => k a
  | Raise e => Raise e
  end.

(** An ASCII literal as a [str]. *)
Definition lit (s : string) : str :=
  map (fun a => Z.of_N (N_of_ascii a)) (list_ascii_of_string s).

(** [str(n)] for an [int]: its decimal numeral. *)
Definition str_of_int (n : Z) : str :=
  map (fun a => Z.of_N (N_of_ascii a))
      (list_ascii_of_string (NilZero.string_of_int (Z.to_int n))).

(** [len(x)] *)
Definition len {A : Type} (l : list A) : Z := Z.of_nat (length l).

Definition str_eqb (a b : str) : bool := bool_decide (a = b).

(** [c in s] for a one-character [c]. *)
Definition char_in (c : Z) (s : str) : bool := existsb (Z.eqb c) s.

(** [s.count(c)] for a one-character [c]. *)
Fixpoint count (c : Z) (s : str) : Z :=
  match s with
  | [] => 0
  | x :: s' => (if x =? c then 1 else 0) + count c s'
  end.

(** [s.split(sep)] for a one-character separator: never empty. *)
Fixpoint split (sep : Z) (s : str) : list str :=
  match s with
  | [] => [[]]
  | c :: s' =>
      if c =? sep then [] :: split sep s'
      else match split sep s' with
           | [] => [[c]]
           | l :: ls => (c :: l) :: ls
           end
  end.

(** [s.find(c)] for a one-character [c]: first index, or -1. *)
Fixpoint find (c : Z) (s : str) : Z :=
  match s with
  | [] => -1
  | x :: s' => if x =? c then 0
               else let r := find c s' in if r <? 0 then -1 else r + 1
  end.

(** Slice bounds are clipped; a negative bound counts from the end. *)
Definition clip {A : Type} (l : list A) (i : Z) : nat :=
  if i <? 0 then Z.to_nat (Z.max 0 (len l + i))
  else Z.to_nat (Z.min i (len l)).

(** [l[:j]] *)
Definition slice_to {A : Type} (l : list A) (j : Z) : list A :=
  take (clip l j) l.

(** [l[i:]] *)
Definition slice_from {A : Type} (l : list A) (i : Z) : list A :=
  drop (clip l i) l.

(** [l[i:j]] *)
Definition slice {A : Type} (l : list A) (i j : Z) : list A :=
  take (clip l j - clip l i)%nat (drop (clip l i) l).

(** The list position a subscript [l[i]] denotes, when it is in range. *)
Definition index {A : Type} (l : list A) (i : Z) : option nat :=
  if (0 <=? i) && (i <? len l) then Some (Z.to_nat i)
  else if (- len l <=? i) && (i <? 0) then Some (Z.to_nat (len l + i))
  else None.

(** [l[i]] *)
Definition getitem {A : Type} (l : list A) (i : Z) : result A :=
  match index l i with
  | Some n => match l !! n with
              | Some x => Ok x
              | None => Raise IndexError
              end
  | None => Raise IndexError
  end.

(** [l[i] = v] *)
Definition setitem {A : Type} (l : list A) (i : Z) (v : A) : result (list A) :=
  match index l i with
  | Some n => Ok (<[n := v]> l)
  | None => Raise IndexError
  end.

(** *** UTF-8 *)

(** The replacement character U+FFFD. *)
Definition REPL : Z := 0xFFFD.

(** Code points [str.encode("utf-8")] accepts: Unicode scalar values. *)
Definition is_scalar (c : Z) : bool :=
  ((0 <=? c) && (c <? 0xD800)) || ((0xE000 <=? c) && (c <=? 0x10FFFF)).

Definition encode_char (c : Z) : result bytes :=
  if negb (is_scalar c) then Raise UnicodeEncodeError
  else if c <? 0x80 then Ok [c]
  else if c <? 0x800 then Ok [0xC0 + c / 64; 0x80 + c mod 64]
  else if c <? 0x10000 then
    Ok [0xE0 + c / 4096; 0x80 + (c / 64) mod 64; 0x80 + c mod 64]
  else
    Ok [0xF0 + c / 262144; 0x80 + (c / 4096) mod 64;
        0x80 + (c / 64) mod 64; 0x80 + c mod 64].

(** [s.encode("utf-8")] *)
Fixpoint encode (s : str) : result bytes :=
  match s with
  | [] => Ok []
  | c :: s' =>
      bind (encode_char c) (fun b =>
      bind (encode s') (fun bs => Ok (b ++ bs)))
  end.

Definition is_cont (b : Z) : bool := (0x80 <=? b) && (b <=? 0xBF).

(** Second byte of a three-byte form: a continuation byte that yields
    neither an overlong form (lead E0) nor a surrogate (lead ED). *)
Definition second3_ok (b1 b2 : Z) : bool :=
  is_cont b2 && negb (if b2 <? 0xA0 then b1 =? 0xE0 else b1 =? 0xED).

(** Second byte of a four-byte form: not overlong (lead F0), not above
    U+10FFFF (lead F4). *)
Definition second4_ok (b1 b2 : Z) : bool :=
  is_cont b2 && negb (if b2 <? 0x90 then b1 =? 0xF0 else b1 =? 0xF4).

(** [b.decode("utf-8", errors="replace")] *)
Fixpoint decode_replace (bs : bytes) : str :=
  match bs with
  | [] => []
  | b1 :: r1 =>
    if b1 <? 0x80 then b1 :: decode_replace r1
    else if b1 <? 0xC2 then REPL :: decode_replace r1
    else if b1 <? 0xE0 then
      match r1 with
      | [] => [REPL]
      | b2 :: r2 =>
        if is_cont b2
        then ((b1 - 0xC0) * 64 + (b2 - 0x80)) :: decode_replace r2
        else REPL :: decode_replace r1
      end
    else if b1 <? 0xF0 then
      match r1 with
      | [] => [REPL]
      | b2 :: r2 =>
        if second3_ok b1 b2 then
          match r2 with
          | [] => [REPL]
          | b3 :: r3 =>
            if is_cont b3
            then ((b1 - 0xE0) * 4096 + (b2 - 0x80) * 64 + (b3 - 0x80))
                   :: decode_replace r3
            else REPL :: decode_replace r2
          end
        else REPL :: decode_replace r1
      end
    else if b1 <? 0xF5 then
      match r1 with
      | [] => [REPL]
      | b2 :: r2 =>
        if second4_ok b1 b2 then
          match r2 with
          | [] => [REPL]
          | b3 :: r3 =>
            if is_cont b3 then
              match r3 with
              | [] => [REPL]
              | b4 :: r4 =>
                if is_cont b4
                then ((b1 - 0xF0) * 262144 + (b2 - 0x80) * 4096
                      + (b3 - 0x80) * 64 + (b4 - 0x80)) :: decode_replace r4
                else REPL :: decode_replace r3
              end
            else REPL :: decode_replace r2
          end
        else REPL :: decode_replace r1
      end
    else REPL :: decode_replace r1
  end.

(** UTF-16 code units of one code point, as the sources compute them:
    [2 if ord(c) > 0xFFFF else 1]. *)
Definition utf16_units (c : Z) : Z := if 0xFFFF <? c then 2 else 1.

Definition NL : Z := 10.
Definition CR : Z := 13.
Definition TAB : Z := 9.
Definition SPACE : Z := 32.

End Py.

Notation "'let!' x ':=' m 'in' k" := (Py.bind m (fun x => k))
  (at level 10, x name, m at level 100, k at level 200).

(* ===================================================================== *)
(** ** comment_extractor.py                                               *)
(* ===================================================================== *)

Module CommentExtractor.
Import Py.

Record CommentSegment : Type := mkCommentSegment {
  seg_start_byte : Z;
  seg_end_byte : Z;
  sanitized : str
}.

Record ByteRange : Type := mkByteRange {
  start_byte : Z;
  end_byte : Z
}.

Definition HASH : Z := 35.      (* # *)
Definition SLASH : Z := 47.     (* / *)
Definition STAR : Z := 42.      (* * *)
Definition PERCENT : Z := 37.   (* % *)

(** [c in " \t"] *)
Definition is_blank (c : Z) : bool := char_in c [SPACE; TAB].

(** [c not in "\n\r"] *)
Definition not_newline (c : Z) : bool := negb (char_in c [NL; CR]).

(** The loop shared by both sanitizers,
    [while i < len(result) and p(result[i]): result[i] = " "; i += 1],
    returning the final [i] and [result].  It runs at most
    [len(result)] times, which is the [fuel] every caller passes. *)
Fixpoint blank_while (p : Z -> bool) (fuel : nat) (i : nat) (result : str)
  : nat * str :=
  match fuel with
  | O => (i, result)
  | S fuel' =>
      match result !! i with
      | Some c =>
          if p c then blank_while p fuel' (S i) (<[i := SPACE]> result)
          else (i, result)
      | None => (i, result)
      end
  end.

(** [while j >= 0 and result[j] == "*": result[j] = " "; j -= 1] *)
Fixpoint blank_stars_back (fuel : nat) (j : Z) (result : str) : str :=
  match fuel with
  | O => result
  | S fuel' =>
      if 0 <=? j then
        match result !! Z.to_nat j with
        | Some c =>
            if c =? STAR
            then blank_stars_back fuel' (j - 1) (<[Z.to_nat j := SPACE]> result)
            else result
        | None => result
        end
      else result
  end.

(** [result[i] == c], for a subscript the caller has checked to be in
    range. *)
Definition at_is (result : str) (i : Z) (c : Z) : bool :=
  match index result i with
  | Some n => match result !! n with
              | Some x => x =? c
              | None => false
              end
  | None => false
  end.

(** [result[i] = " "], for a subscript the caller has checked to be in
    range. *)
Definition blank_at (result : str) (i : Z) : str :=
  match index result i with
  | Some n => <[n := SPACE]> result
  | None => result
  end.

Definition c_family : list str :=
  [lit "javascript"; lit "typescript"; lit "c"; lit "cpp"; lit "java";
   lit "go"; lit "rust"].

Definition _sanitize_comment (text : str) (language_id : str) : str :=
  match text with
  | [] => text
  | _ =>
    let result := text in
    let n := length result in
    if str_eqb language_id (lit "python") then
      let '(i, result) := blank_while (Z.eqb HASH) n 0 result in
      let '(i, result) := blank_while is_blank n i result in
      result
    else if existsb (str_eqb language_id) c_family then
      if (2 <=? len result) && at_is result 0 SLASH && at_is result 1 SLASH
      then
        let '(i, result) := blank_while (Z.eqb SLASH) n 0 result in
        let '(i, result) := blank_while is_blank n i result in
        result
      else if (2 <=? len result) && at_is result 0 SLASH && at_is result 1 STAR
      then
        let result := blank_at result 0 in
        let result := blank_at result 1 in
        let '(i, result) := blank_while (Z.eqb STAR) n 2 result in
        let '(i, result) := blank_while is_blank n i result in
        if (2 <=? len result) && at_is result (-1) SLASH
           && at_is result (-2) STAR
        then
          let result := blank_at result (-1) in
          let result := blank_at result (-2) in
          blank_stars_back n (len result - 3) result
        else result
      else result
    else result
  end.

Definition _sanitize_latex_comment (text : str) : str :=
  match text with
  | [] => text
  | _ =>
    let result := text in
    let n := length result in
    let result := blank_at result 0 in
    let '(idx, result) := blank_while (Z.eqb PERCENT) n 1 result in
    let '(idx, result) := blank_while is_blank n idx result in
    result
  end.

(** [for i, c in enumerate(masked): if c not in "\n\r": masked[i] = " "]
    The iterator reads [masked[i]] at step [i] and stops when [i] reaches
    the end. *)
Fixpoint mask_all (fuel : nat) (i : nat) (masked : str) : str :=
  match fuel with
  | O => masked
  | S fuel' =>
      match masked !! i with
      | Some c =>
          mask_all fuel' (S i)
            (if not_newline c then <[i := SPACE]> masked else masked)
      | None => masked
      end
  end.

(** ["".join(" " if c not in "\n\r" else c for c in text)] *)
Definition mask_join (text : str) : str :=
  map (fun c => if not_newline c then SPACE else c) text.

(** [for j, c in enumerate(sanitized):
       if start_char + j < len(masked): masked[start_char + j] = c] *)
Fixpoint restore_segment (start_char : Z) (j : Z) (sanitized : str)
  (masked : str) : result str :=
  match sanitized with
  | [] => Ok masked
  | c :: rest =>
      let! masked :=
        (if start_char + j <? len masked
         then setitem masked (start_char + j) c
         else Ok masked) in
      restore_segment start_char (j + 1) rest masked
  end.

Fixpoint restore_segments (text_bytes : bytes) (segments : list CommentSegment)
  (masked : str) : result str :=
  match segments with
  | [] => Ok masked
  | segment :: rest =>
      let start_char :=
        len (decode_replace (slice_to text_bytes (seg_start_byte segment))) in
      let! masked := restore_segment start_char 0 (sanitized segment) masked in
      restore_segments text_bytes rest masked
  end.

Definition mask_text_except_comments (language_id : str) (text : str)
  (segments : list CommentSegment) : result str :=
  match segments with
  | [] => Ok (mask_join text)
  | _ =>
      let masked := mask_all (length text) 0 text in
      let! text_bytes := encode text in
      restore_segments text_bytes segments masked
  end.

(** [for j in range(start_char, min(end_char, len(masked))):
       masked[j] = text[j]] *)
Fixpoint restore_range (fuel : nat) (j : Z) (stop : Z) (text : str)
  (masked : str) : result str :=
  match fuel with
  | O => Ok masked
  | S fuel' =>
      if j <? stop then
        let! c := getitem text j in
        let! masked := setitem masked j c in
        restore_range fuel' (j + 1) stop text masked
      else Ok masked
  end.

Fixpoint restore_ranges (text_bytes : bytes) (content_ranges : list ByteRange)
  (text : str) (masked : str) : result str :=
  match content_ranges with
  | [] => Ok masked
  | byte_range :: rest =>
      let start_char :=
        len (decode_replace (slice_to text_bytes (start_byte byte_range))) in
      let end_char :=
        len (decode_replace (slice_to text_bytes (end_byte byte_range))) in
      let stop := Z.min end_char (len masked) in
      let! masked :=
        restore_range (Z.to_nat (stop - start_char)) start_char stop text masked in
      restore_ranges text_bytes rest text masked
  end.

Definition mask_text_except_content (language_id : str) (text : str)
  (content_ranges : list ByteRange) : result str :=
  match content_ranges with
  | [] => Ok (mask_join text)
  | _ =>
      let masked := mask_all (length text) 0 text in
      let! text_bytes := encode text in
      restore_ranges text_bytes content_ranges text masked
  end.

End CommentExtractor.

(* ===================================================================== *)
(** ** analyzer.py: the records the grammar checker consumes              *)
(* ===================================================================== *)

Module Analyzer.
Import Py.

Record TokenData : Type := mkTokenData {
  surface : str;
  feature : str;
  base_form : str;
  reading : str;
  pronunciation : str;
  token_type : str;
  token_modifiers : Z;
  line : Z;
  start_char : Z;   (* UTF-16 code units *)
  end_char : Z      (* UTF-16 code units *)
}.

Record Position : Type := mkPosition {
  pos_line : Z;
  pos_character : Z
}.

Record Range : Type := mkRange {
  range_start : Position;
  range_end : Position
}.

Record SentenceBoundary : Type := mkSentenceBoundary {
  sb_start : Z;     (* byte offset *)
  sb_end : Z;       (* byte offset *)
  sentence_id : Z;
  sb_text : str
}.

End Analyzer.

(* ===================================================================== *)
(** ** grammar_checker.py                                                 *)
(* ===================================================================== *)

Module GrammarChecker.
Import Py Analyzer.

Record Diagnostic : Type := mkDiagnostic {
  range : Range;
  severity : Z;     (* 1=Error, 2=Warning, 3=Info, 4=Hint *)
  message : str;
  source : str
}.

Record RuleToggles : Type := mkRuleToggles {
  comma_limit : bool;
  adversative_ga : bool;
  duplicate_particle_surface : bool;
  adjacent_particles : bool;
  conjunction_repeat : bool;
  ra_dropping : bool;
  comma_limit_max : Z;
  adversative_ga_max : Z;
  duplicate_particle_surface_max_repeat : Z;
  adjacent_particles_max_repeat : Z;
  conjunction_repeat_max : Z
}.

Record AnalysisConfig : Type := mkAnalysisConfig {
  grammar_check : bool;
  warning_min_severity : Z;
  rules : RuleToggles
}.

(** The dataclass defaults ([min_japanese_ratio], a float that no rule
    reads, is left out of [AnalysisConfig]). *)
Definition default_rules : RuleToggles :=
  mkRuleToggles true true true true true true 3 1 1 1 1.

Definition default_config : AnalysisConfig :=
  mkAnalysisConfig true 2 default_rules.

(** [Diagnostic(range=..., severity=..., message=...)]: [source] keeps its
    default. *)
Definition new_diagnostic (r : Range) (sev : Z) (msg : str) : Diagnostic :=
  mkDiagnostic r sev msg (lit "mozuku").

(** String constants of the module, as code points. *)
Definition COMMA : Z := 44.                               (* , *)
Definition TOUTEN : Z := 0x3001.                          (* 、 *)
Definition JOSHI : str := [0x52a9; 0x8a5e].               (* 助詞 *)
Definition SETSUZOKU_JOSHI : str := [0x63a5; 0x7d9a; 0x52a9; 0x8a5e]. (* 接続助詞 *)
Definition GA : str := [0x304c].                          (* が *)
Definition SETSUZOKUSHI : str := [0x63a5; 0x7d9a; 0x8a5e]. (* 接続詞 *)
Definition DOUSHI : str := [0x52d5; 0x8a5e].              (* 動詞 *)
Definition JIRITSU : str := [0x81ea; 0x7acb].             (* 自立 *)
Definition ICHIDAN : str := [0x4e00; 0x6bb5].             (* 一段 *)
Definition MIZENKEI : str := [0x672a; 0x7136; 0x5f62].    (* 未然形 *)
Definition SETSUBI : str := [0x63a5; 0x5c3e].             (* 接尾 *)
Definition RERU : str := [0x308c; 0x308b].                (* れる *)
Definition KORERU : str := [0x6765; 0x308c; 0x308b].      (* 来れる *)
Definition MIRERU : str := [0x898b; 0x308c; 0x308b].      (* 見れる *)

(** *** Module-level helpers *)

Fixpoint line_starts_from (i : Z) (text : str) : list Z :=
  match text with
  | [] => []
  | c :: rest =>
      (if c =? NL then [i + 1] else []) ++ line_starts_from (i + 1) rest
  end.

Definition _compute_line_starts (text : str) : list Z :=
  0 :: line_starts_from 0 text.

Fixpoint _utf8_to_utf16_length (text : str) : Z :=
  match text with
  | [] => 0
  | c :: rest => utf16_units c + _utf8_to_utf16_length rest
  end.

(** The loop of [_utf16_to_char_offset]. *)
Fixpoint utf16_walk (utf16_offset : Z) (text : str)
  (char_offset utf16_count : Z) : Z :=
  match text with
  | [] => char_offset
  | c :: rest =>
      if utf16_offset <=? utf16_count then char_offset
      else utf16_walk utf16_offset rest (char_offset + 1)
             (utf16_count + utf16_units c)
  end.

Definition _utf16_to_char_offset (text : str) (utf16_offset : Z) : Z :=
  utf16_walk utf16_offset text 0 0.

(** [for i, start in enumerate(line_starts):
       if char_offset < start: break
       line = i] *)
Fixpoint find_line (char_offset : Z) (i : Z) (line_starts : list Z)
  (line : Z) : Z :=
  match line_starts with
  | [] => line
  | start :: rest =>
      if char_offset <? start then line
      else find_line char_offset (i + 1) rest i
  end.

Definition _byte_offset_to_position (text : str) (line_starts : list Z)
  (byte_offset : Z) : result Position :=
  let! text_bytes := encode text in
  let byte_offset :=
    if len text_bytes <=? byte_offset then len text_bytes else byte_offset in
  let char_offset := len (decode_replace (slice_to text_bytes byte_offset)) in
  let line := find_line char_offset 0 line_starts 0 in
  let! line_start := getitem line_starts line in
  let line_text := slice text line_start char_offset in
  let utf16_offset := _utf8_to_utf16_length line_text in
  Ok (mkPosition line utf16_offset).

(** *** Methods of [GrammarChecker]

    A rule method of the source appends to the [diagnostics] list it is
    given; here it takes that list and returns it extended.  The lines the
    methods print to stderr under [MOZUKU_DEBUG] are not modelled. *)

Definition _to_byte_offset (token : TokenData) (text : str)
  (line_starts : list Z) : result Z :=
  if len line_starts <=? line token then
    let! b := encode text in Ok (len b)
  else
    let! line_start := getitem line_starts (line token) in
    let line_text := slice_from text line_start in
    let newline_pos := find NL line_text in
    let line_text :=
      if negb (newline_pos =? -1) then slice_to line_text newline_pos
      else line_text in
    let char_offset := _utf16_to_char_offset line_text (start_char token) in
    let full_text_char_offset := line_start + char_offset in
    let! b := encode (slice_to text full_text_char_offset) in
    Ok (len b).

Fixpoint _compute_token_byte_positions (tokens : list TokenData) (text : str)
  (line_starts : list Z) : result (list Z) :=
  match tokens with
  | [] => Ok []
  | token :: rest =>
      let! byte_pos := _to_byte_offset token text line_starts in
      let! positions := _compute_token_byte_positions rest text line_starts in
      Ok (byte_pos :: positions)
  end.

Definition _in_sentence (byte_pos : Z) (sentence : SentenceBoundary) : bool :=
  (sb_start sentence <=? byte_pos) && (byte_pos <? sb_end sentence).

Definition _make_range (text : str) (line_starts : list Z)
  (start_byte end_byte : Z) : result Range :=
  let! start_pos := _byte_offset_to_position text line_starts start_byte in
  let! end_pos := _byte_offset_to_position text line_starts end_byte in
  Ok (mkRange start_pos end_pos).

Definition _count_commas (text : str) : Z := count TOUTEN text.

(** [len(s.encode("utf-8"))] *)
Definition byte_len (s : str) : result Z :=
  let! b := encode s in Ok (len b).

(** **** comma_limit *)

Definition comma_message (limit comma_count : Z) : str :=
  [0x4e00; 0x6587; 0x306b; 0x4f7f; 0x7528; 0x3067; 0x304d; 0x308b; 0x8aad;
   0x70b9; 0x300c; 0x3001; 0x300d; 0x306f; 0x6700; 0x5927]
  ++ str_of_int limit
  ++ [0x500b; 0x307e; 0x3067; 0x3067; 0x3059; 0x20; 0x28; 0x73fe; 0x5728]
  ++ str_of_int comma_count ++ [0x500b; 0x29].

(** [for sentence in sentences: ...] of [_check_comma_limit]. *)
Fixpoint comma_loop (text : str) (line_starts : list Z) (limit : Z)
  (sentences : list SentenceBoundary) (diagnostics : list Diagnostic)
  : result (list Diagnostic) :=
  match sentences with
  | [] => Ok diagnostics
  | sentence :: rest =>
      let comma_count := _count_commas (sb_text sentence) in
      if comma_count <=? limit then
        comma_loop text line_starts limit rest diagnostics
      else
        let! r := _make_range text line_starts (sb_start sentence)
                    (sb_end sentence) in
        let diag := new_diagnostic r 2 (comma_message limit comma_count) in
        comma_loop text line_starts limit rest (diagnostics ++ [diag])
  end.

Definition _check_comma_limit (text : str)
  (sentences : list SentenceBoundary) (line_starts : list Z)
  (diagnostics : list Diagnostic) (limit : Z) : result (list Diagnostic) :=
  if limit <=? 0 then Ok diagnostics
  else comma_loop text line_starts limit sentences diagnostics.

(** **** adversative_ga *)

Definition _is_adversative_ga (feature : str) : result bool :=
  let parts := split COMMA feature in
  if len parts <? 7 then Ok false
  else
    let! pos := getitem parts 0 in
    let! sub1 := getitem parts 1 in
    let! base := getitem parts 6 in
    Ok (str_eqb pos JOSHI && str_eqb sub1 SETSUZOKU_JOSHI && str_eqb base GA).

Definition ga_message (max_count count : Z) : str :=
  [0x9006; 0x63a5; 0x306e; 0x63a5; 0x7d9a; 0x52a9; 0x8a5e; 0x300c; 0x304c;
   0x300d; 0x304c; 0x540c; 0x4e00; 0x6587; 0x3067]
  ++ str_of_int (max_count + 1)
  ++ [0x56de; 0x4ee5; 0x4e0a; 0x4f7f; 0x308f; 0x308c; 0x3066; 0x3044; 0x307e;
      0x3059; 0x20; 0x28]
  ++ str_of_int count ++ [0x56de; 0x29].

(** [for i, token in enumerate(tokens): ...] counting the matches that
    fall in [sentence]. *)
Fixpoint ga_count (token_byte_positions : list Z) (sentence : SentenceBoundary)
  (tokens : list TokenData) (i : Z) (count : Z) : result Z :=
  match tokens with
  | [] => Ok count
  | token :: rest =>
      let! is_ga := _is_adversative_ga (feature token) in
      if negb is_ga then
        ga_count token_byte_positions sentence rest (i + 1) count
      else
        let! byte_pos := getitem token_byte_positions i in
        ga_count token_byte_positions sentence rest (i + 1)
          (if _in_sentence byte_pos sentence then count + 1 else count)
  end.

Fixpoint ga_loop (text : str) (tokens : list TokenData)
  (line_starts token_byte_positions : list Z) (max_count : Z)
  (sentences : list SentenceBoundary) (diagnostics : list Diagnostic)
  : result (list Diagnostic) :=
  match sentences with
  | [] => Ok diagnostics
  | sentence :: rest =>
      let! count := ga_count token_byte_positions sentence tokens 0 0 in
      if count <=? max_count then
        ga_loop text tokens line_starts token_byte_positions max_count rest
          diagnostics
      else
        let! r := _make_range text line_starts (sb_start sentence)
                    (sb_end sentence) in
        let diag := new_diagnostic r 2 (ga_message max_count count) in
        ga_loop text tokens line_starts token_byte_positions max_count rest
          (diagnostics ++ [diag])
  end.

Definition _check_adversative_ga (text : str) (tokens : list TokenData)
  (sentences : list SentenceBoundary)
  (line_starts token_byte_positions : list Z)
  (diagnostics : list Diagnostic) (max_count : Z)
  : result (list Diagnostic) :=
  if max_count <=? 0 then Ok diagnostics
  else ga_loop text tokens line_starts token_byte_positions max_count
         sentences diagnostics.

(** **** particles *)

Definition _is_particle (feature : str) : result bool :=
  let parts := split COMMA feature in
  match parts with
  | [] => Ok false
  | _ => let! pos := getitem parts 0 in Ok (str_eqb pos JOSHI)
  end.

Definition _particle_key (feature : str) : result str :=
  let parts := split COMMA feature in
  if len parts <? 2 then
    match parts with
    | [] => Ok []
    | _ => getitem parts 0
    end
  else
    let! p0 := getitem parts 0 in
    let! p1 := getitem parts 1 in
    Ok (p0 ++ [COMMA] ++ p1).

(** **** duplicate_particle_surface *)

Definition dup_message (surface : str) : str :=
  [0x540c; 0x3058; 0x52a9; 0x8a5e; 0x300c] ++ surface
  ++ [0x300d; 0x304c; 0x9023; 0x7d9a; 0x3057; 0x3066; 0x3044; 0x307e; 0x3059].

(** The loop variables of [_check_duplicate_particle_surface]. *)
Record dup_state : Type := mkDupState {
  last_surface : str;
  last_key : str;
  last_start_byte : Z;
  last_line : Z;
  streak : Z;
  has_last : bool
}.

Definition dup_init : dup_state := mkDupState [] [] 0 (-1) 1 false.

(** The loop body for a particle token that lies in the sentence. *)
Definition dup_step (text : str) (line_starts : list Z) (max_repeat : Z)
  (token : TokenData) (byte_pos : Z) (current_key : str)
  (st : dup_state) (diagnostics : list Diagnostic)
  : result (dup_state * list Diagnostic) :=
  (* Reset streak if on a different line *)
  let st :=
    if has_last st && negb (line token =? last_line st)
    then mkDupState (last_surface st) (last_key st) byte_pos (last_line st)
           1 false
    else st in
  let! r :=
    (if has_last st && str_eqb (surface token) (last_surface st)
        && str_eqb current_key (last_key st)
     then
       let streak' := streak st + 1 in
       if max_repeat <? streak' then
         let! n := byte_len (surface token) in
         let current_end := byte_pos + n in
         let! r := _make_range text line_starts (last_start_byte st)
                     current_end in
         let diag := new_diagnostic r 2 (dup_message (surface token)) in
         Ok (streak', last_start_byte st, diagnostics ++ [diag])
       else Ok (streak', last_start_byte st, diagnostics)
     else Ok (1, byte_pos, diagnostics)) in
  let '(streak', last_start_byte', diagnostics) := r in
  Ok (mkDupState (surface token) current_key last_start_byte' (line token)
        streak' true, diagnostics).

(** [for i, token in enumerate(tokens): ...] for one sentence; returns the
    loop variables and the diagnostics list as the loop leaves them. *)
Fixpoint dup_loop (text : str) (line_starts token_byte_positions : list Z)
  (max_repeat : Z) (sentence : SentenceBoundary) (tokens : list TokenData)
  (i : Z) (st : dup_state) (diagnostics : list Diagnostic)
  : result (dup_state * list Diagnostic) :=
  match tokens with
  | [] => Ok (st, diagnostics)
  | token :: rest =>
      let! byte_pos := getitem token_byte_positions i in
      if negb (_in_sentence byte_pos sentence) then
        dup_loop text line_starts token_byte_positions max_repeat sentence
          rest (i + 1) st diagnostics
      else
        let! is_p := _is_particle (feature token) in
        if negb is_p then
          dup_loop text line_starts token_byte_positions max_repeat sentence
            rest (i + 1) st diagnostics
        else
          let! current_key := _particle_key (feature token) in
          let! r := dup_step text line_starts max_repeat token byte_pos
                      current_key st diagnostics in
          dup_loop text line_starts token_byte_positions max_repeat sentence
            rest (i + 1) (fst r) (snd r)
  end.

Fixpoint dup_sentences (text : str) (tokens : list TokenData)
  (line_starts token_byte_positions : list Z) (max_repeat : Z)
  (sentences : list SentenceBoundary) (diagnostics : list Diagnostic)
  : result (list Diagnostic) :=
  match sentences with
  | [] => Ok diagnostics
  | sentence :: rest =>
      let! r :=
        dup_loop text line_starts token_byte_positions max_repeat sentence
          tokens 0 dup_init diagnostics in
      dup_sentences text tokens line_starts token_byte_positions max_repeat
        rest (snd r)
  end.

Definition _check_duplicate_particle_surface (text : str)
  (tokens : list TokenData) (sentences : list SentenceBoundary)
  (line_starts token_byte_positions : list Z)
  (diagnostics : list Diagnostic) (max_repeat : Z)
  : result (list Diagnostic) :=
  if max_repeat <=? 0 then Ok diagnostics
  else dup_sentences text tokens line_starts token_byte_positions max_repeat
         sentences diagnostics.

(** **** adjacent_particles *)

Definition adj_message : str :=
  [0x52a9; 0x8a5e; 0x304c; 0x9023; 0x7d9a; 0x3057; 0x3066; 0x4f7f; 0x308f;
   0x308c; 0x3066; 0x3044; 0x307e; 0x3059].

(** The loop variables of [_check_adjacent_particles]. *)
Record adj_state : Type := mkAdjState {
  prev_is_particle : bool;
  prev_key : str;
  prev_token : option TokenData;
  prev_start_byte : Z;
  adj_streak : Z
}.

Definition adj_init : adj_state := mkAdjState false [] None 0 1.

(** The loop body for a token that lies in the sentence. *)
Definition adj_step (text : str) (line_starts : list Z) (max_repeat : Z)
  (token : TokenData) (byte_pos : Z) (st : adj_state)
  (diagnostics : list Diagnostic) : result (adj_state * list Diagnostic) :=
  let! current_is_particle := _is_particle (feature token) in
  let! current_key := _particle_key (feature token) in
  let! r :=
    (match prev_token st with
     | Some prev =>
         if current_is_particle && prev_is_particle st
            && str_eqb current_key (prev_key st)
         then
           (* Check if adjacent *)
           let! n := byte_len (surface prev) in
           let prev_end := prev_start_byte st + n in
           if byte_pos =? prev_end then
             let streak' := adj_streak st + 1 in
             if max_repeat <? streak' then
               let! m := byte_len (surface token) in
               let current_end := byte_pos + m in
               let! r := _make_range text line_starts (prev_start_byte st)
                           current_end in
               let diag := new_diagnostic r 2 adj_message in
               Ok (streak', prev_start_byte st, diagnostics ++ [diag])
             else Ok (streak', prev_start_byte st, diagnostics)
           else Ok (adj_streak st, prev_start_byte st, diagnostics)
         else
           Ok (1, if current_is_particle then byte_pos else prev_start_byte st,
               diagnostics)
     | None =>
         Ok (1, if current_is_particle then byte_pos else prev_start_byte st,
             diagnostics)
     end) in
  let '(streak', start', diagnostics) := r in
  Ok (if current_is_particle
      then mkAdjState true current_key (Some token) byte_pos streak'
      else mkAdjState false (prev_key st) (prev_token st) start' streak',
      diagnostics).

(** [for i, token in enumerate(tokens): ...] for one sentence; returns the
    loop variables and the diagnostics list as the loop leaves them. *)
Fixpoint adj_loop (text : str) (line_starts token_byte_positions : list Z)
  (max_repeat : Z) (sentence : SentenceBoundary) (tokens : list TokenData)
  (i : Z) (st : adj_state) (diagnostics : list Diagnostic)
  : result (adj_state * list Diagnostic) :=
  match tokens with
  | [] => Ok (st, diagnostics)
  | token :: rest =>
      let! byte_pos := getitem token_byte_positions i in
      if negb (_in_sentence byte_pos sentence) then
        adj_loop text line_starts token_byte_positions max_repeat sentence
          rest (i + 1) st diagnostics
      else
        let! r := adj_step text line_starts max_repeat token byte_pos st
                    diagnostics in
        adj_loop text line_starts token_byte_positions max_repeat sentence
          rest (i + 1) (fst r) (snd r)
  end.

Fixpoint adj_sentences (text : str) (tokens : list TokenData)
  (line_starts token_byte_positions : list Z) (max_repeat : Z)
  (sentences : list SentenceBoundary) (diagnostics : list Diagnostic)
  : result (list Diagnostic) :=
  match sentences with
  | [] => Ok diagnostics
  | sentence :: rest =>
      let! r :=
        adj_loop text line_starts token_byte_positions max_repeat sentence
          tokens 0 adj_init diagnostics in
      adj_sentences text tokens line_starts token_byte_positions max_repeat
        rest (snd r)
  end.

Definition _check_adjacent_particles (text : str)
  (tokens : list TokenData) (sentences : list SentenceBoundary)
  (line_starts token_byte_positions : list Z)
  (diagnostics : list Diagnostic) (max_repeat : Z)
  : result (list Diagnostic) :=
  if max_repeat <=? 0 then Ok diagnostics
  else adj_sentences text tokens line_starts token_byte_positions max_repeat
         sentences diagnostics.

(** **** conjunction_repeat *)

Definition _is_conjunction (feature : str) : result bool :=
  let parts := split COMMA feature in
  match parts with
  | [] => Ok false
  | _ => let! pos := getitem parts 0 in Ok (str_eqb pos SETSUZOKUSHI)
  end.

Definition conj_message (surface : str) : str :=
  [0x540c; 0x3058; 0x63a5; 0x7d9a; 0x8a5e; 0x300c] ++ surface
  ++ [0x300d; 0x304c; 0x9023; 0x7d9a; 0x3057; 0x3066; 0x3044; 0x307e; 0x3059].

(** The loop variables of [_check_conjunction_repeats]. *)
Record conj_state : Type := mkConjState {
  cj_last_surface : str;
  cj_last_start_byte : Z;
  cj_last_end_byte : Z;
  cj_streak : Z;
  cj_has_last : bool
}.

Definition conj_init : conj_state := mkConjState [] 0 0 1 false.

Fixpoint conj_loop (text : str) (line_starts token_byte_positions : list Z)
  (max_repeat : Z) (tokens : list TokenData) (i : Z) (st : conj_state)
  (diagnostics : list Diagnostic) : result (list Diagnostic) :=
  match tokens with
  | [] => Ok diagnostics
  | token :: rest =>
      let! is_c := _is_conjunction (feature token) in
      if negb is_c then
        conj_loop text line_starts token_byte_positions max_repeat rest
          (i + 1) st diagnostics
      else
        let! current_start := getitem token_byte_positions i in
        let! n := byte_len (surface token) in
        let current_end := current_start + n in
        (* Check if separated by newline *)
        let! separated_by_newline :=
          (if cj_has_last st then
             let! text_bytes := encode text in
             let text_between :=
               decode_replace
                 (slice text_bytes (cj_last_end_byte st) current_start) in
             Ok (char_in NL text_between)
           else Ok false) in
        let! r :=
          (if cj_has_last st && str_eqb (surface token) (cj_last_surface st)
              && negb separated_by_newline
           then
             let streak' := cj_streak st + 1 in
             if max_repeat <? streak' then
               let! r := _make_range text line_starts (cj_last_start_byte st)
                           current_end in
               let diag := new_diagnostic r 2 (conj_message (surface token)) in
               Ok (streak', diagnostics ++ [diag])
             else Ok (streak', diagnostics)
           else Ok (1, diagnostics)) in
        conj_loop text line_starts token_byte_positions max_repeat rest
          (i + 1)
          (mkConjState (surface token) current_start current_end (fst r) true)
          (snd r)
  end.

Definition _check_conjunction_repeats (text : str) (tokens : list TokenData)
  (line_starts token_byte_positions : list Z)
  (diagnostics : list Diagnostic) (max_repeat : Z)
  : result (list Diagnostic) :=
  if max_repeat <=? 0 then Ok diagnostics
  else conj_loop text line_starts token_byte_positions max_repeat tokens 0
         conj_init diagnostics.

(** **** ra_dropping *)

Definition _is_target_verb (feature : str) : result bool :=
  let parts := split COMMA feature in
  if len parts <? 6 then Ok false
  else
    let! main_pos := getitem parts 0 in
    let! sub1 := getitem parts 1 in
    let! inflection := getitem parts 4 in
    let! conjugation := getitem parts 5 in
    Ok (str_eqb main_pos DOUSHI && str_eqb sub1 JIRITSU
        && str_eqb inflection ICHIDAN && str_eqb conjugation MIZENKEI).

Definition _is_ra_word (feature : str) : result bool :=
  let parts := split COMMA feature in
  if len parts <? 7 then Ok false
  else
    let! main_pos := getitem parts 0 in
    let! sub1 := getitem parts 1 in
    let! base := getitem parts 6 in
    Ok (str_eqb main_pos DOUSHI && str_eqb sub1 SETSUBI && str_eqb base RERU).

Definition _is_special_ra_case (feature : str) : result bool :=
  let parts := split COMMA feature in
  if len parts <? 7 then Ok false
  else
    let! main_pos := getitem parts 0 in
    let! base := getitem parts 6 in
    Ok (str_eqb main_pos DOUSHI && existsb (str_eqb base) [KORERU; MIRERU]).

Definition message_ra : str :=
  [0x3089; 0x629c; 0x304d; 0x8a00; 0x8449; 0x3092; 0x4f7f; 0x7528; 0x3057;
   0x3066; 0x3044; 0x307e; 0x3059].

(** First loop: [for i, token in enumerate(tokens)] over the special
    cases. *)
Fixpoint ra_special_loop (text : str) (line_starts token_byte_positions : list Z)
  (tokens : list TokenData) (i : Z) (diagnostics : list Diagnostic)
  : result (list Diagnostic) :=
  match tokens with
  | [] => Ok diagnostics
  | token :: rest =>
      let! special := _is_special_ra_case (feature token) in
      if special then
        let! start_byte := getitem token_byte_positions i in
        let! n := byte_len (surface token) in
        let end_byte := start_byte + n in
        let! r := _make_range text line_starts start_byte end_byte in
        ra_special_loop text line_starts token_byte_positions rest (i + 1)
          (diagnostics ++ [new_diagnostic r 2 message_ra])
      else
        ra_special_loop text line_starts token_byte_positions rest (i + 1)
          diagnostics
  end.

(** Second loop: two-token combinations.  [prev_token] is [None] exactly
    when [has_prev] is false.  Returns [prev_token] and the diagnostics list
    as the loop leaves them. *)
Fixpoint ra_pair_loop (text : str) (line_starts token_byte_positions : list Z)
  (tokens : list TokenData) (i : Z) (prev_token : option TokenData)
  (diagnostics : list Diagnostic)
  : result (option TokenData * list Diagnostic) :=
  match tokens with
  | [] => Ok (prev_token, diagnostics)
  | token :: rest =>
      let! diagnostics :=
        (match prev_token with
         | Some prev =>
             let! target := _is_target_verb (feature prev) in
             let! ra := (if target then _is_ra_word (feature token)
                         else Ok false) in
             if target && ra then
               let! start_byte := getitem token_byte_positions (i - 1) in
               let! pos_i := getitem token_byte_positions i in
               let! n := byte_len (surface token) in
               let end_byte := pos_i + n in
               let! r := _make_range text line_starts start_byte end_byte in
               Ok (diagnostics ++ [new_diagnostic r 2 message_ra])
             else Ok diagnostics
         | None => Ok diagnostics
         end) in
      ra_pair_loop text line_starts token_byte_positions rest (i + 1)
        (Some token) diagnostics
  end.

Definition _check_ra_dropping (text : str) (tokens : list TokenData)
  (line_starts token_byte_positions : list Z)
  (diagnostics : list Diagnostic) : result (list Diagnostic) :=
  let! diagnostics :=
    ra_special_loop text line_starts token_byte_positions tokens 0
      diagnostics in
  let! r := ra_pair_loop text line_starts token_byte_positions tokens 0 None
              diagnostics in
  Ok (snd r).

(** **** check_grammar *)

Definition check_grammar (config : AnalysisConfig) (text : str)
  (tokens : list TokenData) (sentences : list SentenceBoundary)
  : result (list Diagnostic) :=
  if negb (grammar_check config) then Ok []
  else
    let diagnostics := [] in
    let line_starts := _compute_line_starts text in
    let! token_byte_positions :=
      _compute_token_byte_positions tokens text line_starts in
    let r := rules config in
    let! diagnostics :=
      (if comma_limit r
       then _check_comma_limit text sentences line_starts diagnostics
              (comma_limit_max r)
       else Ok diagnostics) in
    let! diagnostics :=
      (if adversative_ga r
       then _check_adversative_ga text tokens sentences line_starts
              token_byte_positions diagnostics (adversative_ga_max r)
       else Ok diagnostics) in
    let! diagnostics :=
      (if duplicate_particle_surface r
       then _check_duplicate_particle_surface text tokens sentences
              line_starts token_byte_positions diagnostics
              (duplicate_particle_surface_max_repeat r)
       else Ok diagnostics) in
    let! diagnostics :=
      (if adjacent_particles r
       then _check_adjacent_particles text tokens sentences line_starts
              token_byte_positions diagnostics
              (adjacent_particles_max_repeat r)
       else Ok diagnostics) in
    let! diagnostics :=
      (if conjunction_repeat r
       then _check_conjunction_repeats text tokens line_starts
              token_byte_positions diagnostics (conjunction_repeat_max r)
       else Ok diagnostics) in
    let! diagnostics :=
      (if ra_dropping r
       then _check_ra_dropping text tokens line_starts token_byte_positions
              diagnostics
       else Ok diagnostics) in
    Ok diagnostics.

End GrammarChecker.

(* ===================================================================== *)
(** ** server.py: Position/offset conversions                             *)
(* ===================================================================== *)

Module Server.
Import Py.

(** [lsp.Position] *)
Record Position : Type := mkPosition {
  line : Z;
  character : Z     (* UTF-16 code units *)
}.

(** [for i in range(position.line):
       if i < len(lines): offset += len(lines[i]) + 1] *)
Fixpoint skip_lines (fuel : nat) (i : Z) (lines : list str) (offset : Z)
  : result Z :=
  match fuel with
  | O => Ok offset
  | S fuel' =>
      if i <? len lines then
        let! l := getitem lines i in
        skip_lines fuel' (i + 1) lines (offset + (len l + 1))
      else skip_lines fuel' (i + 1) lines offset
  end.

(** [for c in line: if utf16_count >= position.character: break; ...] *)
Fixpoint walk_line (character : Z) (line : str) (utf16_count char_offset : Z)
  : Z :=
  match line with
  | [] => char_offset
  | c :: rest =>
      if character <=? utf16_count then char_offset
      else walk_line character rest (utf16_count + utf16_units c)
             (char_offset + 1)
  end.

Definition _position_to_offset (text : str) (position : Position) : result Z :=
  let lines := split NL text in
  let! offset := skip_lines (Z.to_nat (line position)) 0 lines 0 in
  if line position <? len lines then
    let! l := getitem lines (line position) in
    let char_offset := walk_line (character position) l 0 0 in
    Ok (offset + char_offset)
  else Ok offset.

(** [for c in last_line: character += 2 if ord(c) > 0xFFFF else 1] *)
Fixpoint utf16_length (s : str) (character : Z) : Z :=
  match s with
  | [] => character
  | c :: rest => utf16_length rest (character + utf16_units c)
  end.

Definition _byte_offset_to_position (text : str) (byte_offset : Z)
  : result Position :=
  let! text_bytes := encode text in
  let byte_offset :=
    if len text_bytes <=? byte_offset then len text_bytes else byte_offset in
  let prefix := decode_replace (slice_to text_bytes byte_offset) in
  let lines := split NL prefix in
  let line := len lines - 1 in
  let! last_line :=
    (match lines with
     | [] => Ok []
     | _ => getitem lines (-1)
     end) in
  Ok (mkPosition line (utf16_length last_line 0)).

(** The byte offset of a Position, as [on_hover] computes it:
    [offset = _position_to_offset(doc.text, params.position)]
    [byte_offset = len(doc.text[:offset].encode("utf-8"))] *)
Definition position_to_byte_offset (text : str) (position : Position)
  : result Z :=
  let! offset := _position_to_offset text position in
  let! b := encode (slice_to text offset) in
  Ok (len b).

End Server.

(* ===================================================================== *)
(** ** Auxiliary definitions used to state the results                    *)
(* ===================================================================== *)

Module Aux.
Import Py CommentExtractor Analyzer GrammarChecker.

(** Length of the longest prefix of [l] whose elements satisfy [p]. *)
Fixpoint run (p : Z -> bool) (l : str) : nat :=
  match l with
  | [] => O
  | c :: l' => if p c then S (run p l') else O
  end.

(** [overlay masked s san]: [san] written into [masked] from position [s]
    on; what would fall past the end of [masked] is dropped. *)
Definition overlay (masked : str) (s : nat) (san : str) : str :=
  take (length masked) (take s masked ++ san) ++ drop (s + length san) masked.

(** The character position at which [mask_text_except_comments] writes a
    segment: the length of the decoded byte prefix. *)
Definition seg_start_char (text_bytes : bytes) (segment : CommentSegment) : nat :=
  length (decode_replace (slice_to text_bytes (seg_start_byte segment))).

(** All segments written in order over [masked]. *)
Definition overlay_segments (text_bytes : bytes)
  (segments : list CommentSegment) (masked : str) : str :=
  fold_left
    (fun m segment =>
       overlay m (seg_start_char text_bytes segment) (sanitized segment))
    segments masked.

(** A text [str.encode] accepts: every code point is a Unicode scalar
    value. *)
Definition wf_text (s : str) : bool := forallb is_scalar s.

(** Total UTF-8 length of a well-formed text. *)
Definition char_width (c : Z) : Z :=
  if c <? 0x80 then 1 else if c <? 0x800 then 2
  else if c <? 0x10000 then 3 else 4.

Fixpoint utf8_len (s : str) : Z :=
  match s with
  | [] => 0
  | c :: s' => char_width c + utf8_len s'
  end.

(** What [_check_comma_limit] reports for [sentence]: one warning whose
    range is the whole sentence. *)
Definition comma_reports (text : str) (line_starts : list Z) (limit : Z)
  (sentence : SentenceBoundary) (d : Diagnostic) : Prop :=
  _make_range text line_starts (sb_start sentence) (sb_end sentence)
  = Ok (range d)
  /\ severity d = 2
  /\ message d = comma_message limit (_count_commas (sb_text sentence)).

(** [_is_particle] and [_particle_key] as plain functions (they never
    raise, see [is_particle_total] and [particle_key_total]). *)
Definition is_particle_b (feature : str) : bool :=
  match _is_particle feature with
  | Ok b => b
  | Raise _ => false
  end.

Definition particle_key_of (feature : str) : str :=
  match _particle_key feature with
  | Ok k => k
  | Raise _ => []
  end.

(** The tokens that lie in [sentence], with their byte positions, in token
    order: the tokens the body of the per-sentence loops acts on. *)
Definition sentence_stream (sentence : SentenceBoundary)
  (tokens : list TokenData) (positions : list Z) : list (TokenData * Z) :=
  filter (fun tp => _in_sentence (snd tp) sentence = true)
         (zip tokens positions).

(** The particles among them: the tokens [dup_step] acts on. *)
Definition particle_stream (sentence : SentenceBoundary)
  (tokens : list TokenData) (positions : list Z) : list (TokenData * Z) :=
  filter (fun tp => is_particle_b (feature (fst tp)) = true)
         (sentence_stream sentence tokens positions).

(** [dup_step] iterated over a stream of particles. *)
Fixpoint dup_stream (text : str) (line_starts : list Z) (max_repeat : Z)
  (stream : list (TokenData * Z)) (st : dup_state)
  (diagnostics : list Diagnostic) : result (dup_state * list Diagnostic) :=
  match stream with
  | [] => Ok (st, diagnostics)
  | (token, byte_pos) :: rest =>
      let! r := dup_step text line_starts max_repeat token byte_pos
                  (particle_key_of (feature token)) st diagnostics in
      dup_stream text line_starts max_repeat rest (fst r) (snd r)
  end.

(** [adj_step] iterated over a stream of tokens. *)
Fixpoint adj_stream (text : str) (line_starts : list Z) (max_repeat : Z)
  (stream : list (TokenData * Z)) (st : adj_state)
  (diagnostics : list Diagnostic) : result (adj_state * list Diagnostic) :=
  match stream with
  | [] => Ok (st, diagnostics)
  | (token, byte_pos) :: rest =>
      let! r := adj_step text line_starts max_repeat token byte_pos st
                  diagnostics in
      adj_stream text line_starts max_repeat rest (fst r) (snd r)
  end.

(** Number of characters before line [n] of a text whose lines are
    [lines]: each earlier line and its newline. *)
Fixpoint line_offset (n : nat) (lines : list str) : nat :=
  match n, lines with
  | S n', l :: rest => (length l + 1 + line_offset n' rest)%nat
  | _, _ => O
  end.

(** A Position that lies within [text]: an existing line, and a column
    that is the UTF-16 length of a prefix of that line (so it does not fall
    inside a surrogate pair, nor past the end of the line). *)
Definition valid_position (text : str) (p : Server.Position) : Prop :=
  exists (n k : nat) (l : str),
    Server.line p = Z.of_nat n
    /\ split NL text !! n = Some l
    /\ (k <= length l)%nat
    /\ Server.character p = Server.utf16_length (take k l) 0.

(** A byte offset of [text] at a UTF-8 code-point boundary: the encoded
    length of a prefix. *)
Definition boundary_offset (text : str) (o : Z) : Prop :=
  exists k : nat, (k <= length text)%nat /\ o = utf8_len (take k text).

End Aux.

(* ===================================================================== *)
(** ** Sample inputs                                                      *)
(* ===================================================================== *)

Module Samples.
Import Py CommentExtractor Analyzer GrammarChecker.

(** [",".join(fields)] *)
Definition join_comma (fields : list str) : str :=
  match fields with
  | [] => []
  | f :: rest => f ++ concat (map (fun x => COMMA :: x) rest)
  end.

Definition token (surface feature : str) (line start_char end_char : Z)
  : TokenData :=
  mkTokenData surface feature [] [] [] (lit "unknown") 0 line start_char
    end_char.

(** これは、とても、良い、本、です。 *)
Definition comma_text : str :=
  [0x3053; 0x308c; 0x306f; 0x3001; 0x3068; 0x3066; 0x3082; 0x3001; 0x826f;
   0x3044; 0x3001; 0x672c; 0x3001; 0x3067; 0x3059; 0x3002].

Definition comma_sentences : list SentenceBoundary :=
  [mkSentenceBoundary 0 48 0 comma_text].

(** A sentence made of one 、 only. *)
Definition one_comma_sentence : SentenceBoundary :=
  mkSentenceBoundary 0 3 0 [TOUTEN].

Definition KAKU_JOSHI : str := [0x683c; 0x52a9; 0x8a5e].   (* 格助詞 *)
Definition KAKARI_JOSHI : str := [0x4fc2; 0x52a9; 0x8a5e]. (* 係助詞 *)
Definition HA : str := [0x306f].                           (* は *)
Definition NI : str := [0x306b].                           (* に *)
Definition WO : str := [0x3092].                           (* を *)
Definition TABE : str := [0x98df; 0x3079].                 (* 食べ *)
Definition TABERU : str := [0x98df; 0x3079; 0x308b].       (* 食べる *)
Definition KIHONKEI : str := [0x57fa; 0x672c; 0x5f62].     (* 基本形 *)

(** 助詞,sub1,*,*,*,*,base *)
Definition particle_feature (sub1 base : str) : str :=
  join_comma [JOSHI; sub1; lit "*"; lit "*"; lit "*"; lit "*"; base].

(** は on line 0 and は on line 1 of the text は\nは. *)
Definition ha_text_two_lines : str := HA ++ [NL] ++ HA.
Definition ha_line0 : TokenData :=
  token HA (particle_feature KAKARI_JOSHI HA) 0 0 1.
Definition ha_line1 : TokenData :=
  token HA (particle_feature KAKARI_JOSHI HA) 1 0 1.
Definition ha_sentence_two_lines : SentenceBoundary :=
  mkSentenceBoundary 0 7 0 ha_text_two_lines.

(** は twice on one line: the text はは. *)
Definition ha_text_one_line : str := HA ++ HA.
Definition ha_col0 : TokenData :=
  token HA (particle_feature KAKARI_JOSHI HA) 0 0 1.
Definition ha_col1 : TokenData :=
  token HA (particle_feature KAKARI_JOSHI HA) 0 1 2.
Definition ha_sentence_one_line : SentenceBoundary :=
  mkSentenceBoundary 0 6 0 ha_text_one_line.

(** The case particles に and を, with a space between them (に を) and
    without (にを). *)
Definition ni_wo_spaced_text : str := NI ++ [SPACE] ++ WO.
Definition ni_wo_text : str := NI ++ WO.
Definition ni_token : TokenData :=
  token NI (particle_feature KAKU_JOSHI NI) 0 0 1.
Definition wo_token_spaced : TokenData :=
  token WO (particle_feature KAKU_JOSHI WO) 0 2 3.
Definition wo_token : TokenData :=
  token WO (particle_feature KAKU_JOSHI WO) 0 1 2.
Definition ni_wo_spaced_sentence : SentenceBoundary :=
  mkSentenceBoundary 0 7 0 ni_wo_spaced_text.
Definition ni_wo_sentence : SentenceBoundary :=
  mkSentenceBoundary 0 6 0 ni_wo_text.

(** 食べ + れる: the text 食べれる. *)
Definition tabereru_text : str := TABE ++ RERU.
Definition tabe_token : TokenData :=
  token TABE
    (join_comma [DOUSHI; JIRITSU; lit "*"; lit "*"; ICHIDAN; MIZENKEI; TABERU])
    0 0 2.
Definition reru_token : TokenData :=
  token RERU
    (join_comma [DOUSHI; SETSUBI; lit "*"; lit "*"; ICHIDAN; KIHONKEI; RERU])
    0 2 4.

(** A feature record cut short: 助詞,格助詞. *)
Definition short_feature : str := join_comma [JOSHI; KAKU_JOSHI].

(** あ😀 / a😀b on two lines, and the Position after a😀 on the second. *)
Definition emoji_text : str := [0x3042; 0x1F600; NL; 97; 0x1F600; 98].
Definition emoji_position : Server.Position := Server.mkPosition 1 3.

(** A Python source line with a trailing comment, and segments of which
    one starts past the end of the buffer and one carries more sanitized
    text than the buffer has room for. *)
Definition py_text : str := lit "x = 1 # hi".
Definition py_segments : list CommentSegment :=
  [mkCommentSegment 6 10 (lit "  hi");
   mkCommentSegment 100 104 (lit "lost");
   mkCommentSegment 8 20 (lit "HI and more")].

End Samples.

(* ===================================================================== *)
(** ** analyzer.py: positions of tokens and character classes            *)
(* ===================================================================== *)

Module AnalyzerFns.
Import Py Analyzer.

(** [_compute_line_starts] and [_utf8_to_utf16_length] of analyzer.py are
    the same functions, line for line, as those of grammar_checker.py. *)
Definition _compute_line_starts : str -> list Z :=
  GrammarChecker._compute_line_starts.

Definition _utf8_to_utf16_length : str -> Z :=
  GrammarChecker._utf8_to_utf16_length.

(** [line_starts[line]] is read without a check; the loop above it leaves
    [line] at 0 or at an index of [line_starts]. *)
Definition _char_offset_to_position (text : str) (line_starts : list Z)
  (char_offset : Z) : result Position :=
  let line := GrammarChecker.find_line char_offset 0 line_starts 0 in
  let! line_start := getitem line_starts line in
  let line_text := slice text line_start char_offset in
  let utf16_offset := _utf8_to_utf16_length line_text in
  Ok (mkPosition line utf16_offset).

(** [all(lo <= ord(c) <= hi ... for c in text)], false on the empty text. *)
Definition _is_all_kana (text : str) : bool :=
  match text with
  | [] => false
  | _ =>
      forallb (fun code =>
                 ((0x3040 <=? code) && (code <=? 0x309F))
                 || ((0x30A0 <=? code) && (code <=? 0x30FF))) text
  end.

Definition _is_all_kanji (text : str) : bool :=
  match text with
  | [] => false
  | _ => forallb (fun code => (0x4E00 <=? code) && (code <=? 0x9FFF)) text
  end.

(** 〇一二三四五六七八九十百千万億兆 *)
Definition numeric_kanji : str :=
  [0x3007; 0x4e00; 0x4e8c; 0x4e09; 0x56db; 0x4e94; 0x516d; 0x4e03; 0x516b;
   0x4e5d; 0x5341; 0x767e; 0x5343; 0x4e07; 0x5104; 0x5146].

(** [all(c in numeric_kanji for c in text)]: true on the empty text. *)
Definition _is_numeric_kanji (text : str) : bool :=
  forallb (fun c => char_in c numeric_kanji) text.

End AnalyzerFns.

(* ===================================================================== *)
(** ** More of the Python runtime                                         *)
(* ===================================================================== *)

Module PyMore.
Import Py.

(** [s.startswith(p)] *)
Fixpoint is_prefix (p s : str) : bool :=
  match p, s with
  | [], _ => true
  | x :: p', y :: s' => (x =? y) && is_prefix p' s'
  | _ :: _, [] => false
  end.

(** [needle in hay] for strings: [needle] occurs in [hay]. *)
Fixpoint contains (needle hay : str) : bool :=
  is_prefix needle hay
  || match hay with
     | [] => false
     | _ :: hay' => contains needle hay'
     end.

(** [l.index(x)] for a list of strings: [None] stands for ValueError. *)
Fixpoint list_index (x : str) (l : list str) : option Z :=
  match l with
  | [] => None
  | y :: l' =>
      if str_eqb y x then Some 0
      else match list_index x l' with
           | Some i => Some (i + 1)
           | None => None
           end
  end.

(** A [dict] with string keys, in insertion order. *)
Definition dict (V : Type) : Type := list (str * V).

(** [d.get(key, default)] *)
Fixpoint dict_get {V : Type} (d : dict V) (key : str) (default : V) : V :=
  match d with
  | [] => default
  | (k, v) :: d' => if str_eqb k key then v else dict_get d' key default
  end.

(** [s.find(c, start)] for a one-character [c]. *)
Definition find_from (c : Z) (s : str) (start : Z) : Z :=
  let k := clip s start in
  let r := find c (drop k s) in
  if r <? 0 then -1 else Z.of_nat k + r.

(** [sep.join(parts)] for a one-character separator. *)
Fixpoint join (sep : Z) (parts : list str) : str :=
  match parts with
  | [] => []
  | p :: rest =>
      match rest with
      | [] => p
      | _ => p ++ sep :: join sep rest
      end
  end.

Definition BACKSLASH : Z := 92.
Definition DOLLAR : Z := 36.
Definition HYPHEN : Z := 45.

End PyMore.

(* ===================================================================== *)
(** ** analyzer.py: from spaCy tokens to TokenData                        *)
(* ===================================================================== *)

Module AnalyzerTokens.
Import Py PyMore Analyzer.

Definition TOKEN_TYPES : list str :=
  [lit "noun"; lit "verb"; lit "adjective"; lit "adverb"; lit "particle";
   lit "aux"; lit "conjunction"; lit "symbol"; lit "interj"; lit "prefix";
   lit "suffix"; lit "unknown"].

(** What the analyzer reads of a spaCy [Token].  [ext_reading] is the
    extension attribute [token._.reading]: [None] when the attribute is
    missing, is [None], or reading it raises. *)
Record Token : Type := mkToken {
  text : str;
  idx : Z;
  pos_ : str;
  tag_ : str;
  lemma_ : str;
  morph : dict str;       (* token.morph.to_dict() *)
  is_space : bool;
  ext_reading : option str
}.

Definition _get_reading (token : Token) : str :=
  let reading := dict_get (morph token) (lit "Reading") [] in
  let reading :=
    match reading with
    | [] => match ext_reading token with
            | Some r => r
            | None => []
            end
    | _ => reading
    end in
  match reading with
  | [] => text token
  | _ => reading
  end.

(** [parts[i] if len(parts) > i else default] *)
Definition part_or (parts : list str) (i : Z) (default : str) : result str :=
  if i <? len parts then getitem parts i else Ok default.

Definition _build_feature_string (token : Token) : result str :=
  let tag_parts :=
    match tag_ token with
    | [] => []
    | _ => split HYPHEN (tag_ token)
    end in
  let! main_pos := part_or tag_parts 0 (pos_ token) in
  let! sub1 := part_or tag_parts 1 (lit "*") in
  let! sub2 := part_or tag_parts 2 (lit "*") in
  let! sub3 := part_or tag_parts 3 (lit "*") in
  let inflection := dict_get (morph token) (lit "Inflection") (lit "*") in
  let conjugation := dict_get (morph token) (lit "VerbForm") (lit "*") in
  let reading := _get_reading token in
  Ok (join GrammarChecker.COMMA
        [main_pos; sub1; sub2; sub3; inflection; conjugation; lemma_ token;
         reading; reading]).

Definition pos_map : dict str :=
  [(lit "NOUN", lit "noun"); (lit "PROPN", lit "noun");
   (lit "VERB", lit "verb"); (lit "ADJ", lit "adjective");
   (lit "ADV", lit "adverb"); (lit "ADP", lit "particle");
   (lit "AUX", lit "aux"); (lit "CCONJ", lit "conjunction");
   (lit "SCONJ", lit "conjunction"); (lit "PUNCT", lit "symbol");
   (lit "SYM", lit "symbol"); (lit "INTJ", lit "interj");
   (lit "NUM", lit "noun")].

Definition JODOUSHI : str := [0x52a9; 0x52d5; 0x8a5e].        (* 助動詞 *)
Definition SETTOU : str := [0x63a5; 0x982d].                  (* 接頭 *)
Definition KOYUU_MEISHI : str := [0x56fa; 0x6709; 0x540d; 0x8a5e]. (* 固有名詞 *)

Definition _map_pos_to_type (token : Token) : str :=
  let pos := pos_ token in
  let tag := tag_ token in
  if contains GrammarChecker.JOSHI tag then lit "particle"
  else if contains JODOUSHI tag then lit "aux"
  else if contains SETTOU tag then lit "prefix"
  else if contains GrammarChecker.SETSUBI tag then lit "suffix"
  else dict_get pos_map pos (lit "unknown").

Section Modifiers.

(** [str.isdigit], which consults the Unicode character database, is a
    parameter. *)
Variable isdigit : str -> bool.

Definition _compute_modifiers (token : Token) (surface : str) : Z :=
  let modifiers := 0 in
  let modifiers :=
    if str_eqb (pos_ token) (lit "PROPN")
       || (negb (str_eqb (tag_ token) []) && contains KOYUU_MEISHI (tag_ token))
    then Z.lor modifiers 1 else modifiers in
  let modifiers :=
    if str_eqb (pos_ token) (lit "NUM") || isdigit surface
       || AnalyzerFns._is_numeric_kanji surface
    then Z.lor modifiers 2 else modifiers in
  if AnalyzerFns._is_all_kana surface then Z.lor modifiers 4
  else if AnalyzerFns._is_all_kanji surface then Z.lor modifiers 8
  else modifiers.

Definition _token_to_data (token : Token) (text : str) (line_starts : list Z)
  : result (option TokenData) :=
  if is_space token then Ok None
  else
    let char_start := idx token in
    let char_end := idx token + len (AnalyzerTokens.text token) in
    let! pos :=
      AnalyzerFns._char_offset_to_position text line_starts char_start in
    let! end_pos :=
      AnalyzerFns._char_offset_to_position text line_starts char_end in
    let! feature := _build_feature_string token in
    let token_type := _map_pos_to_type token in
    let modifiers :=
      _compute_modifiers token (slice text char_start char_end) in
    Ok (Some
          (mkTokenData (AnalyzerTokens.text token) feature (lemma_ token)
             (_get_reading token) (_get_reading token) token_type modifiers
             (pos_line pos) (pos_character pos)
             (if pos_line pos =? pos_line end_pos then pos_character end_pos
              else pos_character pos
                   + AnalyzerFns._utf8_to_utf16_length
                       (AnalyzerTokens.text token)))).

(** The loop of [analyze_text] over the tokens of the parsed document:
    [token_data] is appended unless it is [None]. *)
Fixpoint analyze_loop (doc : list Token) (text : str) (line_starts : list Z)
  (tokens : list TokenData) : result (list TokenData) :=
  match doc with
  | [] => Ok tokens
  | token :: rest =>
      let! token_data := _token_to_data token text line_starts in
      analyze_loop rest text line_starts
        (match token_data with
         | Some t => tokens ++ [t]
         | None => tokens
         end)
  end.

End Modifiers.

End AnalyzerTokens.

(* ===================================================================== *)
(** ** server.py: semantic tokens, hover lookup and incremental changes   *)
(* ===================================================================== *)

Module ServerFns.
Import Py PyMore Analyzer.

(** [try: TOKEN_TYPES.index(token_type) except ValueError: 0] *)
Definition type_index (token_type : str) : Z :=
  match list_index token_type AnalyzerTokens.TOKEN_TYPES with
  | Some i => i
  | None => 0
  end.

(** [for token in tokens: ... data.extend([...])] with the loop variables
    [prev_line] and [prev_char]. *)
Fixpoint semantic_loop (tokens : list TokenData) (prev_line prev_char : Z)
  (data : list Z) : list Z :=
  match tokens with
  | [] => data
  | token :: rest =>
      let delta_line := line token - prev_line in
      let delta_char :=
        if delta_line =? 0 then start_char token - prev_char
        else start_char token in
      let type_index := type_index (token_type token) in
      semantic_loop rest (line token) (start_char token)
        (data ++ [delta_line; delta_char; end_char token - start_char token;
                  type_index; token_modifiers token])
  end.

Definition _build_semantic_tokens (tokens : list TokenData) : list Z :=
  semantic_loop tokens 0 0 [].

Definition MEISHI : str := [0x540d; 0x8a5e].   (* 名詞 *)

Definition _is_noun (token : TokenData) : result bool :=
  if str_eqb (token_type token) (lit "noun") then Ok true
  else
    let parts := split GrammarChecker.COMMA (feature token) in
    match parts with
    | [] => Ok false
    | _ => let! p0 := getitem parts 0 in Ok (str_eqb p0 MEISHI)
    end.

(** The token lookup of [on_hover]:
    [for token in doc.tokens:
       if token.line == line and token.start_char <= character < token.end_char:
         return ...] *)
Fixpoint hover_token (tokens : list TokenData) (line character : Z)
  : option TokenData :=
  match tokens with
  | [] => None
  | token :: rest =>
      if (Analyzer.line token =? line)
         && (start_char token <=? character) && (character <? end_char token)
      then Some token
      else hover_token rest line character
  end.

(** One incremental change of [on_did_change]:
    [text[:start_offset] + change.text + text[end_offset:]] *)
Definition apply_change (text : str) (range_start range_end : Server.Position)
  (change_text : str) : result str :=
  let! start_offset := Server._position_to_offset text range_start in
  let! end_offset := Server._position_to_offset text range_end in
  Ok (slice_to text start_offset ++ change_text ++ slice_from text end_offset).

End ServerFns.

(* ===================================================================== *)
(** ** comment_extractor.py: LaTeX comments                               *)
(* ===================================================================== *)

Module LatexComments.
Import Py PyMore CommentExtractor.

(** [while pos > count and text[pos - count - 1] == "\\": count += 1]
    The loop runs at most [pos] times. *)
Fixpoint escaped_count (fuel : nat) (text : str) (pos count : Z) : result Z :=
  match fuel with
  | O => Ok count
  | S fuel' =>
      if count <? pos then
        let! c := getitem text (pos - count - 1) in
        if c =? BACKSLASH then escaped_count fuel' text pos (count + 1)
        else Ok count
      else Ok count
  end.

Definition _is_escaped (text : str) (pos : Z) : result bool :=
  let! count := escaped_count (S (Z.to_nat pos)) text pos 0 in
  Ok (count mod 2 =? 1).

(** [for i in range(pos, stop): if text[i] == "$" and not _is_escaped(...)] *)
Fixpoint closing_dollar_loop (fuel : nat) (text : str) (i stop : Z)
  : result Z :=
  match fuel with
  | O => Ok (-1)
  | S fuel' =>
      if i <? stop then
        let! c := getitem text i in
        let! found :=
          (if c =? DOLLAR
           then let! e := _is_escaped text i in Ok (negb e)
           else Ok false) in
        if found then Ok i else closing_dollar_loop fuel' text (i + 1) stop
      else Ok (-1)
  end.

Definition _find_closing_dollar (text : str) (pos : Z) : result Z :=
  closing_dollar_loop (Z.to_nat (len text - pos)) text pos (len text).

(** [for i in range(pos, len(text) - 1):
       if text[i] == "$" and text[i + 1] == "$" and not _is_escaped(...)] *)
Fixpoint closing_double_dollar_loop (fuel : nat) (text : str) (i stop : Z)
  : result Z :=
  match fuel with
  | O => Ok (-1)
  | S fuel' =>
      if i <? stop then
        let! c := getitem text i in
        let! found :=
          (if c =? DOLLAR then
             let! c' := getitem text (i + 1) in
             if c' =? DOLLAR
             then let! e := _is_escaped text i in Ok (negb e)
             else Ok false
           else Ok false) in
        if found then Ok i
        else closing_double_dollar_loop fuel' text (i + 1) stop
      else Ok (-1)
  end.

Definition _find_closing_double_dollar (text : str) (pos : Z) : result Z :=
  closing_double_dollar_loop (Z.to_nat (len text - 1 - pos)) text pos
    (len text - 1).

(** The inner loop of [_extract_latex_comments]:
    [while current < line_end: ...; current += 1], returning the position
    of the comment start it stops at, if any. *)
Fixpoint comment_start (fuel : nat) (text : str) (current line_end : Z)
  : result (option Z) :=
  match fuel with
  | O => Ok None
  | S fuel' =>
      if current <? line_end then
        let! c := getitem text current in
        let! found :=
          (if c =? PERCENT
           then let! e := _is_escaped text current in Ok (negb e)
           else Ok false) in
        if found then Ok (Some current)
        else comment_start fuel' text (current + 1) line_end
      else Ok None
  end.

(** The outer loop, [while pos < len(text): ...]: each round moves [pos]
    past a newline, so it runs at most [len(text)] times. *)
Fixpoint latex_lines (fuel : nat) (text : str) (pos : Z)
  (segments : list CommentSegment) : result (list CommentSegment) :=
  match fuel with
  | O => Ok segments
  | S fuel' =>
      if pos <? len text then
        let line_start := pos in
        let line_end := find_from NL text pos in
        let line_end := if line_end =? -1 then len text else line_end in
        let! found :=
          comment_start (Z.to_nat (line_end - line_start)) text line_start
            line_end in
        let! segments :=
          (match found with
           | Some current =>
               let! b1 := encode (slice_to text current) in
               let start_byte := len b1 in
               let! b2 := encode (slice_to text line_end) in
               let end_byte := len b2 in
               let comment_text := slice text current line_end in
               let sanitized := _sanitize_latex_comment comment_text in
               Ok (segments
                   ++ [mkCommentSegment start_byte end_byte sanitized])
           | None => Ok segments
           end) in
        if len text <=? line_end then Ok segments
        else latex_lines fuel' text (line_end + 1) segments
      else Ok segments
  end.

Definition _extract_latex_comments (text : str) : result (list CommentSegment) :=
  latex_lines (length text) text 0 [].

End LatexComments.

(* ===================================================================== *)
(** ** wikipedia.py: the summary cache                                    *)
(* ===================================================================== *)

Module Wikipedia.
Import Py PyMore.

Definition CACHE_TTL_SECONDS : Z := 15 * 60.
Definition MAX_CACHE_SIZE : Z := 100.

Section Cache.

(** The clock: the values of [time.time()] are floats, of which the cache
    uses a difference, a comparison with the integer time-to-live and the
    order.  They are parameters; the time of a call is an argument. *)
Variable float : Type.
Variable fsub : float -> float -> float.     (* a - b *)
Variable fgt : float -> Z -> bool.           (* a > n *)
Variable flt : float -> float -> bool.       (* a < b *)

Record CacheEntry : Type := mkCacheEntry {
  content : str;
  response_code : Z;
  timestamp : float
}.

(** [d.get(key)]: [None] when the key is missing. *)
Fixpoint dict_lookup {V : Type} (d : dict V) (key : str) : option V :=
  match d with
  | [] => None
  | (k, v) :: d' => if str_eqb k key then Some v else dict_lookup d' key
  end.

(** [d[key] = v]: an existing key keeps its place, a new one goes last. *)
Fixpoint dict_set {V : Type} (d : dict V) (key : str) (v : V) : dict V :=
  match d with
  | [] => [(key, v)]
  | (k, v') :: d' =>
      if str_eqb k key then (k, v) :: d'
      else (k, v') :: dict_set d' key v
  end.

(** [del d[key]], for a key that is present. *)
Fixpoint dict_del {V : Type} (d : dict V) (key : str) : dict V :=
  match d with
  | [] => []
  | (k, v) :: d' => if str_eqb k key then d' else (k, v) :: dict_del d' key
  end.

(** [min(_cache.keys(), key=lambda k: _cache[k].timestamp)] with [best]
    the minimum so far: a later key replaces it only when its timestamp is
    smaller. *)
Fixpoint min_from (best : str * CacheEntry) (rest : dict CacheEntry) : str :=
  match rest with
  | [] => fst best
  | kv :: rest' =>
      if flt (timestamp (snd kv)) (timestamp (snd best))
      then min_from kv rest'
      else min_from best rest'
  end.

(** [get_cached_entry(query)] at time [now]: the result and the cache as
    the call leaves it. *)
Definition get_cached_entry (now : float) (query : str)
  (_cache : dict CacheEntry) : option CacheEntry * dict CacheEntry :=
  match dict_lookup _cache query with
  | None => (None, _cache)
  | Some entry =>
      if fgt (fsub now (timestamp entry)) CACHE_TTL_SECONDS
      then (None, dict_del _cache query)
      else (Some entry, _cache)
  end.

(** [cache_entry(query, content, response_code)] at time [now].  [min] is
    called on a cache of at least [MAX_CACHE_SIZE] keys, never on an empty
    one. *)
Definition cache_entry (now : float) (query : str) (content : str)
  (response_code : Z) (_cache : dict CacheEntry) : dict CacheEntry :=
  let _cache :=
    if MAX_CACHE_SIZE <=? len _cache then
      match _cache with
      | [] => _cache
      | first :: rest => dict_del _cache (min_from first rest)
      end
    else _cache in
  dict_set _cache query (mkCacheEntry content response_code now).

End Cache.

End Wikipedia.

(* ===================================================================== *)
(** ** Further specification vocabulary                                   *)
(* ===================================================================== *)

Module AuxMore.
Import Py CommentExtractor Analyzer GrammarChecker Aux.

(** [out] is [text] with some characters replaced by a space. *)
Definition blanked (text out : str) : Prop :=
  length out = length text
  /\ forall i c, out !! i = Some c -> c = SPACE \/ text !! i = Some c.

(** The half-open range of character positions a content byte range
    restores in a buffer of [n] characters. *)
Definition range_chars (text_bytes : bytes) (n : nat) (r : ByteRange)
  (j : nat) : Prop :=
  (length (decode_replace (slice_to text_bytes (start_byte r))) <= j)%nat
  /\ (j < length (decode_replace (slice_to text_bytes (end_byte r))))%nat
  /\ (j < n)%nat.

(** ["\n".join(lines)] *)
Fixpoint join_lines (lines : list str) : str :=
  match lines with
  | [] => []
  | l :: rest =>
      match rest with
      | [] => l
      | _ => l ++ NL :: join_lines rest
      end
  end.

(** A diagnostic as every rule of the grammar checker builds it: a
    warning, with the default source. *)
Definition warning (d : Diagnostic) : Prop :=
  severity d = 2 /\ source d = lit "mozuku".

(** [out] is [diagnostics] with warnings appended. *)
Definition extends (diagnostics out : list Diagnostic) : Prop :=
  exists new, out = diagnostics ++ new /\ Forall warning new.

(** The tokens a grammar rule can process: a line number that is not
    negative and a surface that encodes. *)
Definition wf_token (token : TokenData) : Prop :=
  0 <= line token /\ wf_text (surface token) = true.

(** A token whose surface encodes. *)
Definition wf_surface (token : TokenData) : Prop :=
  wf_text (surface token) = true.

(** How a client reads the data array of semantic tokens (LSP
    specification, "Integer Encoding for Tokens"): groups of five, the
    first two relative to the token before. *)
Fixpoint decode_semantic (data : list Z) (prev_line prev_char : Z)
  : list (Z * Z * Z * Z * Z) :=
  match data with
  | delta_line :: delta_char :: length :: token_type :: modifiers :: rest =>
      let line := prev_line + delta_line in
      let char := if delta_line =? 0 then prev_char + delta_char
                  else delta_char in
      (line, char, length, token_type, modifiers)
        :: decode_semantic rest line char
  | _ => []
  end.

(** What the array is to convey for one token. *)
Definition semantic_entry (token : TokenData) : Z * Z * Z * Z * Z :=
  (line token, start_char token, end_char token - start_char token,
   ServerFns.type_index (token_type token), token_modifiers token).

(** The first two numbers of each group of five. *)
Fixpoint semantic_deltas (data : list Z) : list (Z * Z) :=
  match data with
  | delta_line :: delta_char :: _ :: _ :: _ :: rest =>
      (delta_line, delta_char) :: semantic_deltas rest
  | _ => []
  end.

(** Tokens in document order, from the position [(prev_line, prev_char)]
    on. *)
Fixpoint in_document_order (prev_line prev_char : Z) (tokens : list TokenData)
  : Prop :=
  match tokens with
  | [] => True
  | token :: rest =>
      0 <= start_char token
      /\ (prev_line < line token
          \/ (prev_line = line token /\ prev_char <= start_char token))
      /\ in_document_order (line token) (start_char token) rest
  end.

(** The hyphen-separated parts of a token's tag, as
    [_build_feature_string] takes them. *)
Definition tag_parts (token : AnalyzerTokens.Token) : list str :=
  match AnalyzerTokens.tag_ token with
  | [] => []
  | _ => split PyMore.HYPHEN (AnalyzerTokens.tag_ token)
  end.

(** The nine fields of the feature string of a token. *)
Definition feature_fields (token : AnalyzerTokens.Token) : list str :=
  [nth 0 (tag_parts token) (AnalyzerTokens.pos_ token);
   nth 1 (tag_parts token) (lit "*");
   nth 2 (tag_parts token) (lit "*");
   nth 3 (tag_parts token) (lit "*");
   PyMore.dict_get (AnalyzerTokens.morph token) (lit "Inflection") (lit "*");
   PyMore.dict_get (AnalyzerTokens.morph token) (lit "VerbForm") (lit "*");
   AnalyzerTokens.lemma_ token;
   AnalyzerTokens._get_reading token;
   AnalyzerTokens._get_reading token].

(** A spaCy token that lies in [text]: its [idx] is a character offset of
    the text and its [text] is what the text holds there. *)
Definition token_of_text (text : str) (token : AnalyzerTokens.Token) : Prop :=
  exists i m : nat,
    AnalyzerTokens.idx token = Z.of_nat i
    /\ AnalyzerTokens.text token = take m (drop i text)
    /\ (i + m <= length text)%nat.

(** Character [c] stands at position [j] of [text] and is not escaped. *)
Definition unescaped_at (c : Z) (text : str) (j : nat) : Prop :=
  text !! j = Some c
  /\ LatexComments._is_escaped text (Z.of_nat j) = Ok false.

(** A segment that is a LaTeX comment of [text]: it runs from an
    unescaped percent sign at character [c] to the end [e] of its line,
    the newline excluded, and carries the sanitized text of that part. *)
Definition latex_segment (text : str) (c e : nat) (segment : CommentSegment)
  : Prop :=
  (c < e <= length text)%nat
  /\ seg_start_byte segment = utf8_len (take c text)
  /\ seg_end_byte segment = utf8_len (take e text)
  /\ unescaped_at PERCENT text c
  /\ (NL ∉ take (e - c) (drop c text))
  /\ (e = length text \/ text !! e = Some NL)
  /\ sanitized segment = _sanitize_latex_comment (take (e - c) (drop c text)).

(** [segments] are the LaTeX comments of [text] from character [pos] on,
    in text order: each starts at the first unescaped percent sign at or
    after [pos], the next ones are looked for after its line, and after
    the last one no unescaped percent sign is left. *)
Fixpoint latex_segments (text : str) (pos : nat)
  (segments : list CommentSegment) : Prop :=
  match segments with
  | [] => forall j, (pos <= j < length text)%nat ->
                    ~ unescaped_at PERCENT text j
  | segment :: rest =>
      exists c e : nat,
        (pos <= c)%nat
        /\ (forall j, (pos <= j < c)%nat -> ~ unescaped_at PERCENT text j)
        /\ latex_segment text c e segment
        /\ latex_segments text (S e) rest
  end.

(** [out] is [text] with some characters replaced by a space, and only
    characters that [S] allows at their position. *)
Definition blanked_where (S : nat -> Z -> Prop) (text out : str) : Prop :=
  length out = length text
  /\ forall i c, text !! i = Some c ->
       out !! i = Some c \/ (out !! i = Some SPACE /\ S i c).

(** Character position [i] of [text] lies in one of the [segments], by
    the test of [on_hover]: [seg.start_byte <= byte_offset < seg.end_byte]
    for the byte offset of the position. *)
Definition in_segments (text : str) (segments : list CommentSegment)
  (i : nat) : Prop :=
  Exists (fun segment =>
            seg_start_byte segment <= utf8_len (take i text)
            < seg_end_byte segment) segments.

(** The characters [_sanitize_latex_comment] removes. *)
Definition latex_marker (c : Z) : Prop :=
  c = PERCENT \/ c = SPACE \/ c = TAB.

(** An unescaped [$$] starts at position [j] of [text]. *)
Definition double_dollar_at (text : str) (j : nat) : Prop :=
  unescaped_at PyMore.DOLLAR text j /\ text !! S j = Some PyMore.DOLLAR.

(** [_is_adversative_ga], [_is_special_ra_case] and [_is_conjunction] as
    plain functions (they never raise). *)
Definition is_adversative_ga_b (feature : str) : bool :=
  match _is_adversative_ga feature with
  | Ok b => b
  | Raise _ => false
  end.

Definition is_special_ra_b (feature : str) : bool :=
  match _is_special_ra_case feature with
  | Ok b => b
  | Raise _ => false
  end.


(** The number of tokens that are an adversative が and whose byte position
    lies in [sentence]. *)
Definition ga_matches (tokens : list TokenData) (positions : list Z)
  (sentence : SentenceBoundary) : Z :=
  len (filter (fun tp => is_adversative_ga_b (feature (fst tp))
                         && _in_sentence (snd tp) sentence = true)
              (zip tokens positions)).

(** What [_check_adversative_ga] reports for [sentence]: one warning whose
    range is the whole sentence. *)
Definition ga_reports (text : str) (line_starts : list Z) (max_count : Z)
  (tokens : list TokenData) (positions : list Z)
  (sentence : SentenceBoundary) (d : Diagnostic) : Prop :=
  _make_range text line_starts (sb_start sentence) (sb_end sentence)
  = Ok (range d)
  /\ severity d = 2
  /\ message d = ga_message max_count (ga_matches tokens positions sentence).

(** What the first loop of [_check_ra_dropping] reports for a token at
    byte position [snd tp]: one warning whose range runs over the encoded
    surface of the token. *)
Definition ra_reports (text : str) (line_starts : list Z)
  (tp : TokenData * Z) (d : Diagnostic) : Prop :=
  _make_range text line_starts (snd tp)
    (snd tp + utf8_len (surface (fst tp))) = Ok (range d)
  /\ severity d = 2
  /\ message d = message_ra.

End AuxMore.

(* ===================================================================== *)
(** ** Further sample inputs                                              *)
(* ===================================================================== *)

Module SamplesMore.
Import Py CommentExtractor Analyzer GrammarChecker Samples.

(** The UTF-8 encoding of [emoji_text]. *)
Definition emoji_bytes : bytes :=
  [0xE3; 0x81; 0x82; 0xF0; 0x9F; 0x98; 0x80; 10; 97; 0xF0; 0x9F; 0x98; 0x80;
   98].

(** The token b of [emoji_text]: line 1, after a and the two UTF-16 code
    units of the emoji. *)
Definition emoji_b_token : TokenData :=
  token (lit "b") short_feature 1 3 4.

(** The emoji on line 1 of [emoji_text], as a token. *)
Definition emoji_token : TokenData :=
  token [0x1F600] short_feature 1 1 3.

(** Line 1 of [emoji_text]. *)
Definition emoji_line1 : str := [97; 0x1F600; 98].

(** A token whose line number is negative and out of the range of the
    line starts of a one-line text. *)
Definition stray_token : TokenData :=
  token (lit "b") short_feature (-2) 0 1.

(** Three tokens in document order: two on line 0, one on line 2. *)
Definition ordered_tokens : list TokenData :=
  [mkTokenData (lit "a") [] [] [] [] (lit "noun") 0 0 0 1;
   mkTokenData (lit "b") [] [] [] [] (lit "verb") 4 0 2 3;
   mkTokenData (lit "c") [] [] [] [] (lit "other") 0 2 1 2].

(** The emoji on line 1 of [emoji_text] as spaCy would hand it over, and
    the particle は with a tag, a reading and no inflection. *)
Definition emoji_spacy_token : AnalyzerTokens.Token :=
  AnalyzerTokens.mkToken [0x1F600] 4 (lit "SYM") [] [0x1F600] [] false None.

Definition KAKARI_TAG : str := JOSHI ++ [45] ++ KAKARI_JOSHI.  (* 助詞-係助詞 *)

Definition ha_spacy_token : AnalyzerTokens.Token :=
  AnalyzerTokens.mkToken HA 0 (lit "ADP") KAKARI_TAG HA
    [(lit "Reading", [0x30cf])] false None.

(** Two lines of LaTeX: an escaped percent sign, then a comment; and a
    line without a comment. *)
Definition latex_text : str := lit "50\% %% on" ++ [NL] ++ lit "x".

(** Inline math with an escaped dollar sign inside: $a\$b$ c. *)
Definition dollar_text : str := lit "$a\$b$ c".

(** が as an adversative conjunctive particle, twice in one sentence:
    the text がが. *)
Definition ga_feature : str :=
  join_comma [JOSHI; SETSUZOKU_JOSHI; lit "*"; lit "*"; lit "*"; lit "*"; GA].
Definition ga_text : str := GA ++ GA.
Definition ga_tokens : list TokenData :=
  [token GA ga_feature 0 0 1; token GA ga_feature 0 1 2].
Definition ga_sentence : SentenceBoundary := mkSentenceBoundary 0 6 0 ga_text.

(** 見れる as one token. *)
Definition mireru_token : TokenData :=
  token MIRERU
    (join_comma [DOUSHI; JIRITSU; lit "*"; lit "*"; ICHIDAN; KIHONKEI; MIRERU])
    0 0 3.

(** しかし twice, on one line and on two lines. *)
Definition SHIKASHI : str := [0x3057; 0x304b; 0x3057].
Definition shikashi_feature : str :=
  join_comma [SETSUZOKUSHI; lit "*"; lit "*"; lit "*"; lit "*"; lit "*";
              SHIKASHI].
Definition shikashi_one_line : str := SHIKASHI ++ SHIKASHI.
Definition shikashi_a : TokenData := token SHIKASHI shikashi_feature 0 0 3.
Definition shikashi_b : TokenData := token SHIKASHI shikashi_feature 0 3 6.

End SamplesMore.

(* ===================================================================== *)
(** * Results                                                             *)
(* ===================================================================== *)

Import Py CommentExtractor Aux.

(* ===================================================================== *)
(** ** The runtime fragment, the sanitizers and the masks                 *)
(* ===================================================================== *)

(** *** Facts about the runtime fragment *)

Lemma bind_ok {A B} (a : A) (k : A -> result B) : bind (Ok a) k = k a.
Proof. reflexivity. Qed.

Lemma bind_raise {A B} (e : exn) (k : A -> result B) :
  bind (Raise e) k = Raise e.
Proof. reflexivity. Qed.

Ltac ok_step := rewrite bind_ok; cbv beta.

Lemma len_nonneg {A} (l : list A) : 0 <= len l.
Proof. unfold len. lia. Qed.

Lemma len_snoc {A} (pre : list A) x : len (pre ++ [x]) = len pre + 1.
Proof. unfold len. rewrite length_app. simpl. lia. Qed.

Lemma setitem_in_range {A} (l : list A) (i : Z) (v : A) :
  0 <= i < len l -> setitem l i v = Ok (<[Z.to_nat i := v]> l).
Proof.
  intros H. unfold setitem, index.
  destruct (0 <=? i) eqn:E1; [|apply Z.leb_gt in E1; lia].
  destruct (i <? len l) eqn:E2; [|apply Z.ltb_ge in E2; lia].
  done.
Qed.

Lemma getitem_in_range {A} (l : list A) (i : Z) :
  0 <= i < len l -> exists x, getitem l i = Ok x /\ l !! Z.to_nat i = Some x.
Proof.
  intros H. unfold getitem, index.
  destruct (0 <=? i) eqn:E1; [|apply Z.leb_gt in E1; lia].
  destruct (i <? len l) eqn:E2; [|apply Z.ltb_ge in E2; lia].
  simpl. destruct (l !! Z.to_nat i) as [x|] eqn:E; [eauto|].
  apply lookup_ge_None in E. unfold len in H. lia.
Qed.

Lemma getitem_middle {A} (pre : list A) x rest :
  getitem (pre ++ x :: rest) (len pre) = Ok x.
Proof.
  destruct (getitem_in_range (pre ++ x :: rest) (len pre)) as (y & -> & Hy).
  - unfold len. rewrite length_app. simpl. lia.
  - unfold len in Hy. rewrite Nat2Z.id in Hy.
    rewrite (list_lookup_middle pre rest x) in Hy by done. congruence.
Qed.

Lemma split_nonempty sep s : split sep s <> [].
Proof.
  destruct s as [|c s]; simpl; [done|].
  destruct (c =? sep); [done|]. by destruct (split sep s).
Qed.

Lemma encode_char_wf c :
  is_scalar c = true ->
  exists b, encode_char c = Ok b /\ len b = char_width c.
Proof.
  intros H. unfold encode_char, char_width. rewrite H. simpl.
  destruct (c <? 128); [eauto|].
  destruct (c <? 2048); [eauto|].
  destruct (c <? 65536); eauto.
Qed.

Lemma encode_wf : forall text,
  wf_text text = true ->
  exists b, encode text = Ok b /\ len b = utf8_len text.
Proof.
  induction text as [|c t IH]; intros H; simpl.
  - by exists [].
  - simpl in H. apply andb_true_iff in H as [Hc Ht].
    destruct (encode_char_wf c Hc) as (b & -> & Hb).
    destruct (IH Ht) as (bs & -> & Hbs). simpl.
    exists (b ++ bs). split; [done|].
    unfold len in *. rewrite length_app. lia.
Qed.

Lemma encode_raises : forall text e,
  encode text = Raise e -> e = UnicodeEncodeError /\ wf_text text = false.
Proof.
  induction text as [|c t IH]; intros e H; simpl in H; [done|].
  unfold encode_char in H at 1. simpl.
  destruct (is_scalar c) eqn:Hc; simpl in H.
  - assert (exists b, encode_char c = Ok b) as [b Hb]
      by (destruct (encode_char_wf c Hc) as (b & ? & _); eauto).
    unfold encode_char in Hb. rewrite Hc in Hb. simpl in Hb.
    rewrite Hb in H. simpl in H.
    destruct (encode t) as [bs|e'] eqn:Et; simpl in H; [done|].
    injection H as <-. by apply IH.
  - injection H as <-. done.
Qed.

(** *** The sanitizers *)

Lemma blank_while_length p fuel : forall i l,
  length (snd (blank_while p fuel i l)) = length l.
Proof.
  induction fuel as [|f IH]; intros i l; simpl; [done|].
  destruct (l !! i) as [c|] eqn:E; [|done].
  destruct (p c); [|done].
  rewrite IH. by rewrite length_insert.
Qed.

Lemma blank_while_spec p : forall suf pre fuel,
  (length suf <= fuel)%nat ->
  blank_while p fuel (length pre) (pre ++ suf)
  = ((length pre + run p suf)%nat,
     pre ++ replicate (run p suf) SPACE ++ drop (run p suf) suf).
Proof.
  induction suf as [|c suf IH]; intros pre fuel Hf.
  - destruct fuel; simpl.
    + by rewrite Nat.add_0_r.
    + rewrite lookup_ge_None_2; [|rewrite length_app; simpl; lia].
      by rewrite Nat.add_0_r.
  - destruct fuel as [|f]; [simpl in Hf; lia|].
    simpl. rewrite list_lookup_middle; [|done].
    destruct (p c) eqn:Hp.
    + replace (<[length pre:=SPACE]> (pre ++ c :: suf))
        with ((pre ++ [SPACE]) ++ suf).
      2:{ rewrite insert_app_r_alt; [|lia]. rewrite Nat.sub_diag. simpl.
          by rewrite <- app_assoc. }
      replace (S (length pre)) with (length (pre ++ [SPACE]))
        by (rewrite length_app; simpl; lia).
      rewrite IH; [|simpl in Hf; lia].
      rewrite length_app. simpl. f_equal; [lia|].
      by rewrite <- app_assoc.
    + simpl. by rewrite Nat.add_0_r.
Qed.

Lemma run_le p l : (run p l <= length l)%nat.
Proof. induction l as [|c l IH]; simpl; [lia|]. destruct (p c); simpl; lia. Qed.

Lemma run_drop_run p l : run p (drop (run p l) l) = O.
Proof.
  induction l as [|c l IH]; simpl; [done|].
  destruct (p c) eqn:E; simpl; [done|]. by rewrite E.
Qed.

Lemma run_replicate_true p n l :
  p SPACE = true -> run p (replicate n SPACE ++ l) = (n + run p l)%nat.
Proof. intros Hp. induction n as [|n IH]; simpl; [done|]. by rewrite Hp, IH. Qed.

Lemma run_replicate_false p n l :
  p SPACE = false -> (0 < n)%nat -> run p (replicate n SPACE ++ l) = O.
Proof. intros Hp Hn. destruct n; [lia|]. simpl. by rewrite Hp. Qed.

(** The two consecutive blanking loops of the sanitizers, started at the
    end of [pre]. *)
Lemma blank_two_phase p pre suf n :
  (length suf <= n)%nat ->
  (let '(i, r) := blank_while p n (length pre) (pre ++ suf) in
   let '(_, r) := blank_while is_blank n i r in r)
  = pre ++ replicate (run p suf + run is_blank (drop (run p suf) suf)) SPACE
        ++ drop (run p suf + run is_blank (drop (run p suf) suf)) suf.
Proof.
  intros Hn. rewrite blank_while_spec by done.
  set (a := run p suf).
  pose proof (run_le p suf) as Ha. fold a in Ha.
  replace (pre ++ replicate a SPACE ++ drop a suf)
    with ((pre ++ replicate a SPACE) ++ drop a suf) by (by rewrite <- app_assoc).
  replace (length pre + a)%nat with (length (pre ++ replicate a SPACE))
    by (rewrite length_app, length_replicate; lia).
  rewrite blank_while_spec by (rewrite length_drop; lia).
  rewrite <- app_assoc. f_equal.
  rewrite replicate_add, <- app_assoc. f_equal. f_equal.
  by rewrite drop_drop.
Qed.

Lemma blank_two_phase_idem p pre suf n :
  p SPACE = false ->
  (length suf <= n)%nat ->
  let out_suf :=
    replicate (run p suf + run is_blank (drop (run p suf) suf)) SPACE
      ++ drop (run p suf + run is_blank (drop (run p suf) suf)) suf in
  (let '(i, r) := blank_while p n (length pre) (pre ++ out_suf) in
   let '(_, r) := blank_while is_blank n i r in r) = pre ++ out_suf.
Proof.
  intros Hp Hn out_suf.
  set (a := run p suf) in *. set (b := run is_blank (drop a suf)) in *.
  pose proof (run_le p suf) as Ha. fold a in Ha.
  pose proof (run_le is_blank (drop a suf)) as Hb. fold b in Hb.
  rewrite length_drop in Hb.
  assert (Hlen : length out_suf = length suf).
  { unfold out_suf. rewrite length_app, length_replicate, length_drop. lia. }
  rewrite blank_two_phase by lia.
  assert (Hrest : run is_blank (drop (a + b) suf) = O).
  { rewrite <- drop_drop. apply run_drop_run. }
  assert (Ha' : run p out_suf = O).
  { destruct (decide (a + b = 0)%nat) as [E|E].
    - unfold out_suf. rewrite E. simpl. rewrite drop_0.
      assert (a = 0)%nat as Ha0 by lia. exact Ha0.
    - apply run_replicate_false; [done|lia]. }
  rewrite Ha'. simpl. rewrite drop_0.
  assert (Hb' : run is_blank out_suf = (a + b)%nat).
  { unfold out_suf. rewrite run_replicate_true by done. rewrite Hrest. lia. }
  rewrite Hb'. f_equal. unfold out_suf.
  rewrite drop_app_length'; [|by rewrite length_replicate]. done.
Qed.

Lemma insert_space_keeps (l : list Z) i j :
  l !! j = Some SPACE -> <[i := SPACE]> l !! j = Some SPACE.
Proof.
  intros H. destruct (decide (i = j)) as [->|Hne].
  - apply list_lookup_insert_eq. by eapply lookup_lt_Some.
  - by rewrite list_lookup_insert_ne.
Qed.

Lemma blank_while_keeps p fuel j : forall i l,
  l !! j = Some SPACE -> snd (blank_while p fuel i l) !! j = Some SPACE.
Proof.
  induction fuel as [|f IH]; intros i l H; simpl; [done|].
  destruct (l !! i) as [c|]; [|done].
  destruct (p c); [|done].
  apply IH. by apply insert_space_keeps.
Qed.

Lemma blank_stars_back_keeps fuel j : forall k l,
  l !! j = Some SPACE -> blank_stars_back fuel k l !! j = Some SPACE.
Proof.
  induction fuel as [|f IH]; intros k l H; simpl; [done|].
  destruct (0 <=? k); [|done].
  destruct (l !! Z.to_nat k) as [c|]; [|done].
  destruct (c =? STAR); [|done].
  apply IH. by apply insert_space_keeps.
Qed.

(** [blank_stars_back] stops by itself once [j] is negative: any fuel above
    [j] gives the same result. *)
Lemma blank_stars_back_fuel : forall fuel1 fuel2 j l,
  j < Z.of_nat fuel1 -> j < Z.of_nat fuel2 ->
  blank_stars_back fuel1 j l = blank_stars_back fuel2 j l.
Proof.
  induction fuel1 as [|f1 IH]; intros fuel2 j l H1 H2.
  - destruct fuel2 as [|f2]; [done|]. cbn [blank_stars_back].
    destruct (0 <=? j) eqn:E; [apply Z.leb_le in E; lia|done].
  - destruct fuel2 as [|f2]; cbn [blank_stars_back].
    + destruct (0 <=? j) eqn:E; [apply Z.leb_le in E; lia|done].
    + destruct (0 <=? j) eqn:E; [|done].
      destruct (l !! Z.to_nat j) as [c|]; [|done].
      destruct (c =? STAR); [|done]. apply IH; lia.
Qed.

Lemma blank_at_keeps (l : list Z) k j :
  l !! j = Some SPACE -> blank_at l k !! j = Some SPACE.
Proof.
  intros H. unfold blank_at. destruct (index l k); [|done].
  by apply insert_space_keeps.
Qed.

Lemma at_is_head_space (l : list Z) c :
  l !! O = Some SPACE -> c <> SPACE -> at_is l 0 c = false.
Proof.
  intros H Hc. unfold at_is, index.
  destruct ((0 <=? 0) && (0 <? len l)) eqn:E.
  - change (Z.to_nat 0) with O. rewrite H. apply Z.eqb_neq. congruence.
  - destruct ((- len l <=? 0) && (0 <? 0)) eqn:E2; [|done].
    apply andb_true_iff in E2 as [_ E2]. apply Z.ltb_lt in E2. lia.
Qed.

Lemma sanitize_python (text lang : list Z) :
  str_eqb lang (lit "python") = true ->
  _sanitize_comment text lang
  = replicate (run (Z.eqb HASH) text
               + run is_blank (drop (run (Z.eqb HASH) text) text)) SPACE
    ++ drop (run (Z.eqb HASH) text
             + run is_blank (drop (run (Z.eqb HASH) text) text)) text.
Proof.
  intros Hl. unfold _sanitize_comment. rewrite Hl.
  destruct text as [|c t]; [done|].
  exact (blank_two_phase (Z.eqb HASH) [] (c :: t) (length (c :: t)) (le_n _)).
Qed.

Lemma sanitize_python_idem (text lang : list Z) :
  str_eqb lang (lit "python") = true ->
  _sanitize_comment (_sanitize_comment text lang) lang
  = _sanitize_comment text lang.
Proof.
  intros Hl. rewrite (sanitize_python text) by done.
  set (out := replicate _ _ ++ _).
  unfold _sanitize_comment. rewrite Hl.
  destruct out as [|c t] eqn:E; [done|]. rewrite <- E.
  assert (Hlen : length out = length text).
  { unfold out. rewrite length_app, length_replicate, length_drop.
    pose proof (run_le (Z.eqb HASH) text).
    pose proof (run_le is_blank (drop (run (Z.eqb HASH) text) text)) as H2.
    rewrite length_drop in H2. lia. }
  rewrite Hlen.
  exact (blank_two_phase_idem (Z.eqb HASH) [] text (length text) eq_refl (le_n _)).
Qed.

(** Outside Python, a text whose first character is already a space is
    left alone. *)
Lemma sanitize_head_space (l lang : list Z) :
  str_eqb lang (lit "python") = false ->
  l !! O = Some SPACE ->
  _sanitize_comment l lang = l.
Proof.
  intros Hl H. unfold _sanitize_comment. rewrite Hl.
  destruct l as [|c t]; [done|].
  destruct (existsb (str_eqb lang) c_family); [|done].
  rewrite !at_is_head_space by done.
  by rewrite !andb_false_r.
Qed.

Lemma sanitize_c_head (text lang : list Z) :
  str_eqb lang (lit "python") = false ->
  _sanitize_comment text lang = text
  \/ _sanitize_comment text lang !! O = Some SPACE.
Proof.
  intros Hl. unfold _sanitize_comment. rewrite Hl.
  destruct text as [|c t]; [by left|].
  destruct (existsb (str_eqb lang) c_family); [|by left].
  remember (c :: t) as text eqn:Ht.
  destruct ((2 <=? len text) && at_is text 0 SLASH && at_is text 1 SLASH) eqn:E1.
  - right.
    apply andb_true_iff in E1 as [E1 _]. apply andb_true_iff in E1 as [_ E1].
    assert (c = SLASH) as ->.
    { subst text. unfold at_is in E1. simpl in E1. by apply Z.eqb_eq in E1. }
    pose proof (blank_two_phase (Z.eqb SLASH) [] text (length text) (le_n _)) as Hs.
    simpl in Hs.
    destruct (blank_while (Z.eqb SLASH) (length text) 0 text) as [i r].
    destruct (blank_while is_blank (length text) i r) as [i' r'].
    rewrite Hs. subst text. simpl. done.
  - destruct ((2 <=? len text) && at_is text 0 SLASH && at_is text 1 STAR) eqn:E2;
      [|by left].
    right.
    assert (H0 : blank_at (blank_at text 0) 1 !! O = Some SPACE).
    { apply blank_at_keeps. subst text. unfold blank_at. simpl. done. }
    pose proof (blank_while_keeps (Z.eqb STAR) (length text) O 2 _ H0) as H1.
    destruct (blank_while (Z.eqb STAR) (length text) 2
                (blank_at (blank_at text 0) 1)) as [i r].
    simpl in H1.
    pose proof (blank_while_keeps is_blank (length text) O i _ H1) as H2.
    destruct (blank_while is_blank (length text) i r) as [i' r'].
    simpl in H2.
    destruct ((2 <=? len r') && at_is r' (-1) SLASH && at_is r' (-2) STAR);
      [|done].
    apply blank_stars_back_keeps. by do 2 apply blank_at_keeps.
Qed.

Lemma sanitize_comment_idem (text lang : list Z) :
  _sanitize_comment (_sanitize_comment text lang) lang
  = _sanitize_comment text lang.
Proof.
  destruct (str_eqb lang (lit "python")) eqn:Hl.
  - by apply sanitize_python_idem.
  - destruct (sanitize_c_head text lang Hl) as [H|H].
    + by rewrite !H.
    + by apply sanitize_head_space.
Qed.

Lemma sanitize_latex_idem (text : list Z) :
  _sanitize_latex_comment (_sanitize_latex_comment text)
  = _sanitize_latex_comment text.
Proof.
  destruct text as [|c t]; [done|].
  assert (Hspec : forall c t,
    _sanitize_latex_comment (c :: t)
    = [SPACE] ++ replicate (run (Z.eqb PERCENT) t
                 + run is_blank (drop (run (Z.eqb PERCENT) t) t)) SPACE
        ++ drop (run (Z.eqb PERCENT) t
                 + run is_blank (drop (run (Z.eqb PERCENT) t) t)) t).
  { intros c' t'. unfold _sanitize_latex_comment.
    change (blank_at (c' :: t') 0) with ([SPACE] ++ t').
    apply (blank_two_phase (Z.eqb PERCENT) [SPACE] t' (length (c' :: t'))).
    simpl. lia. }
  rewrite (Hspec c t).
  set (out_suf := replicate _ _ ++ _).
  change ([SPACE] ++ out_suf) with (SPACE :: out_suf).
  unfold _sanitize_latex_comment.
  change (blank_at (SPACE :: out_suf) 0) with ([SPACE] ++ out_suf).
  assert (Hlen : length out_suf = length t).
  { unfold out_suf. rewrite length_app, length_replicate, length_drop.
    pose proof (run_le (Z.eqb PERCENT) t).
    pose proof (run_le is_blank (drop (run (Z.eqb PERCENT) t) t)) as H2.
    rewrite length_drop in H2. lia. }
  change (length (SPACE :: out_suf)) with (S (length out_suf)). rewrite Hlen.
  apply (blank_two_phase_idem (Z.eqb PERCENT) [SPACE] t (S (length t)) eq_refl).
  lia.
Qed.

(** *** Masking *)

Lemma mask_join_length text : length (mask_join text) = length text.
Proof. unfold mask_join. by rewrite length_map. Qed.

Lemma mask_all_spec : forall suf pre fuel,
  (length suf <= fuel)%nat ->
  mask_all fuel (length pre) (pre ++ suf) = pre ++ mask_join suf.
Proof.
  induction suf as [|c suf IH]; intros pre fuel Hf.
  - destruct fuel; simpl; [done|].
    by rewrite lookup_ge_None_2 by (rewrite length_app; simpl; lia).
  - destruct fuel as [|f]; [simpl in Hf; lia|].
    simpl. rewrite list_lookup_middle by done.
    replace (if not_newline c then <[length pre:=SPACE]> (pre ++ c :: suf)
             else pre ++ c :: suf)
      with ((pre ++ [if not_newline c then SPACE else c]) ++ suf).
    2:{ destruct (not_newline c).
        - rewrite insert_app_r_alt by lia. rewrite Nat.sub_diag. simpl.
          by rewrite <- app_assoc.
        - by rewrite <- app_assoc. }
    replace (S (length pre))
      with (length (pre ++ [if not_newline c then SPACE else c]))
      by (rewrite length_app; simpl; lia).
    rewrite IH by (simpl in Hf; lia).
    by rewrite <- app_assoc.
Qed.

Lemma mask_all_join text : mask_all (length text) 0 text = mask_join text.
Proof. exact (mask_all_spec text [] (length text) (le_n _)). Qed.

Lemma overlay_length (masked : list Z) s san :
  length (overlay masked s san) = length masked.
Proof.
  unfold overlay.
  rewrite length_app, length_take, length_app, length_take, length_drop. lia.
Qed.

Lemma restore_segment_spec : forall san start j masked,
  0 <= start + j ->
  restore_segment start j san masked
  = Ok (overlay masked (Z.to_nat (start + j)) san).
Proof.
  induction san as [|c rest IH]; intros start j masked Hj.
  - simpl. f_equal. unfold overlay. rewrite app_nil_r, Nat.add_0_r.
    rewrite take_take.
    replace (length masked `min` Z.to_nat (start + j))%nat
      with (Z.to_nat (start + j) `min` length masked)%nat by lia.
    rewrite <- take_take. rewrite firstn_all. by rewrite take_drop.
  - simpl. set (n := Z.to_nat (start + j)).
    destruct (start + j <? len masked) eqn:E.
    + apply Z.ltb_lt in E.
      rewrite setitem_in_range by lia. simpl.
      rewrite IH by lia. f_equal. fold n.
      assert (Hn : (n < length masked)%nat) by (unfold len in E; lia).
      replace (Z.to_nat (start + (j + 1))) with (S n) by lia.
      unfold overlay. rewrite length_insert.
      rewrite drop_insert_lt by lia.
      replace (S n + length rest)%nat with (n + length (c :: rest))%nat
        by (simpl; lia).
      f_equal. f_equal.
      rewrite (take_S_r _ _ c).
      2:{ rewrite list_lookup_insert_eq by lia. done. }
      rewrite take_insert_ge by lia.
      by rewrite <- app_assoc.
    + apply Z.ltb_ge in E. simpl.
      rewrite IH by lia. f_equal. fold n.
      assert (Hn : (length masked <= n)%nat) by (unfold len in E; lia).
      replace (Z.to_nat (start + (j + 1))) with (S n) by lia.
      unfold overlay.
      rewrite !(take_ge masked) by lia.
      rewrite !take_app_length. rewrite !drop_ge by (simpl; lia). done.
Qed.

Lemma overlay_segments_length bs : forall segs masked,
  length (overlay_segments bs segs masked) = length masked.
Proof.
  unfold overlay_segments.
  induction segs as [|seg segs IH]; intros masked; simpl; [done|].
  by rewrite IH, overlay_length.
Qed.

Lemma restore_segments_spec bs : forall segs masked,
  restore_segments bs segs masked = Ok (overlay_segments bs segs masked).
Proof.
  induction segs as [|seg segs IH]; intros masked; simpl; [done|].
  rewrite restore_segment_spec by (rewrite Z.add_0_r; apply len_nonneg).
  simpl. rewrite IH. unfold overlay_segments. simpl. do 3 f_equal.
  unfold seg_start_char, len. lia.
Qed.

Lemma restore_range_ok text : forall fuel j stop masked,
  0 <= j -> stop <= len masked -> length masked = length text ->
  exists out, restore_range fuel j stop text masked = Ok out
              /\ length out = length masked.
Proof.
  induction fuel as [|f IH]; intros j stop masked Hj Hs Hl; simpl; [eauto|].
  destruct (j <? stop) eqn:E; [|eauto].
  apply Z.ltb_lt in E.
  destruct (getitem_in_range text j) as (c & -> & _);
    [unfold len in *; lia|].
  simpl. rewrite setitem_in_range by lia. simpl.
  destruct (IH (j + 1) stop (<[Z.to_nat j := c]> masked)) as (out & -> & Ho).
  - lia.
  - unfold len in *. rewrite length_insert. lia.
  - by rewrite length_insert.
  - exists out. split; [done|]. by rewrite Ho, length_insert.
Qed.

Lemma restore_ranges_ok bs text : forall ranges masked,
  length masked = length text ->
  exists out, restore_ranges bs ranges text masked = Ok out
              /\ length out = length masked.
Proof.
  induction ranges as [|r ranges IH]; intros masked Hl; simpl; [eauto|].
  edestruct (restore_range_ok text) as (m' & -> & Hm'); [| |exact Hl|].
  - apply len_nonneg.
  - apply Z.le_min_r.
  - simpl. destruct (IH m') as (out & -> & Ho); [congruence|].
    exists out. split; [done|]. congruence.
Qed.

Section MaskingClaims.
Import Py CommentExtractor Aux Samples.

(** C1. Masking length invariance: for every text that [str.encode] accepts,
    every language id and every list of comment segments or content byte
    ranges (the empty list included), [mask_text_except_comments] and
    [mask_text_except_content] return a string that has exactly as many
    characters as the input text. *)
Theorem masking_length_invariance (language_id text : list Z) :
  wf_text text = true ->
  (forall segments, exists out,
      mask_text_except_comments language_id text segments = Ok out
      /\ length out = length text)
  /\ (forall content_ranges, exists out,
      mask_text_except_content language_id text content_ranges = Ok out
      /\ length out = length text).
Proof.
  intros Hwf. destruct (encode_wf text Hwf) as (bs & Hbs & _). split.
  - intros [|seg segs].
    + simpl. eexists. split; [done|]. apply mask_join_length.
    + unfold mask_text_except_comments. rewrite Hbs. ok_step.
      rewrite restore_segments_spec. eexists. split; [done|].
      by rewrite overlay_segments_length, mask_all_join, mask_join_length.
  - intros [|r ranges].
    + simpl. eexists. split; [done|]. apply mask_join_length.
    + unfold mask_text_except_content. rewrite Hbs. ok_step.
      destruct (restore_ranges_ok bs text (r :: ranges)
                  (mask_all (length text) 0 text)) as (out & -> & Ho).
      * by rewrite mask_all_join, mask_join_length.
      * exists out. split; [done|].
        by rewrite Ho, mask_all_join, mask_join_length.
Qed.

Lemma masking_length_invariance_witness :
  wf_text emoji_text = true
  /\ ((forall segments, exists out,
         mask_text_except_comments (lit "python") emoji_text segments = Ok out
         /\ length out = length emoji_text)
      /\ (forall content_ranges, exists out,
         mask_text_except_content (lit "html") emoji_text content_ranges = Ok out
         /\ length out = length emoji_text)).
Proof.
  split; [reflexivity|]. split.
  - apply (masking_length_invariance (lit "python") emoji_text). reflexivity.
  - apply (masking_length_invariance (lit "html") emoji_text). reflexivity.
Defined.

(** C10. [mask_text_except_comments] is total over arbitrary segment lists:
    whatever the text and the segments (byte ranges or sanitized texts that
    reach past the end of the buffer included) it never raises IndexError;
    with no segment it returns the blanked text; and when the text encodes,
    it returns the blanked text overlaid with each segment's sanitized text,
    the characters that would land past the end of the buffer being dropped,
    so the output has the input's length in characters. *)
Theorem mask_comments_total (language_id text : list Z)
  (segments : list CommentSegment) :
  mask_text_except_comments language_id text segments <> Raise IndexError
  /\ (segments = [] ->
      mask_text_except_comments language_id text segments
      = Ok (mask_join text))
  /\ (forall text_bytes, encode text = Ok text_bytes ->
      mask_text_except_comments language_id text segments
      = Ok (overlay_segments text_bytes segments (mask_join text))
      /\ length (overlay_segments text_bytes segments (mask_join text))
         = length text).
Proof.
  split; [|split].
  - destruct segments as [|seg segs]; [done|].
    unfold mask_text_except_comments.
    destruct (encode text) as [bs|e] eqn:E.
    + ok_step. by rewrite restore_segments_spec.
    + simpl. intros [= ->]. by apply encode_raises in E as [? _].
  - by intros ->.
  - intros bs Hbs. split.
    + destruct segments as [|seg segs]; [done|].
      unfold mask_text_except_comments. rewrite Hbs. ok_step.
      by rewrite restore_segments_spec, mask_all_join.
    + by rewrite overlay_segments_length, mask_join_length.
Qed.

Lemma mask_comments_total_witness :
  encode py_text = Ok py_text
  /\ mask_text_except_comments (lit "python") py_text py_segments
     = Ok (overlay_segments py_text py_segments (mask_join py_text))
  /\ overlay_segments py_text py_segments (mask_join py_text)
     = lit "        HI"
  /\ length (overlay_segments py_text py_segments (mask_join py_text))
     = length py_text.
Proof.
  split; [reflexivity|].
  destruct (proj2 (proj2 (mask_comments_total (lit "python") py_text
                            py_segments)) py_text eq_refl) as [H1 H2].
  split; [exact H1|]. split; [reflexivity|exact H2].
Defined.

(** A text with a lone surrogate has no UTF-8 encoding: with a segment to
    restore, [text.encode("utf-8")] raises; with none, nothing is encoded. *)
Example mask_lone_surrogate :
  mask_text_except_comments (lit "python") [0xD800; 97] py_segments
  = Raise UnicodeEncodeError
  /\ mask_text_except_comments (lit "python") [0xD800; 97] []
     = Ok [SPACE; SPACE].
Proof. split; reflexivity. Qed.

(** C7. Sanitizing is idempotent: for every comment text and every language
    id, [_sanitize_comment] applied twice gives what it gives applied once,
    and so does [_sanitize_latex_comment]. *)
Theorem sanitize_idempotent (text language_id : list Z) :
  _sanitize_comment (_sanitize_comment text language_id) language_id
  = _sanitize_comment text language_id
  /\ _sanitize_latex_comment (_sanitize_latex_comment text)
     = _sanitize_latex_comment text.
Proof.
  split; [apply sanitize_comment_idem|apply sanitize_latex_idem].
Qed.

Example sanitize_python_sample :
  _sanitize_comment (lit "##  hi # x") (lit "python") = lit "    hi # x".
Proof. reflexivity. Qed.

Example sanitize_block_sample :
  _sanitize_comment (lit "/** hi **/") (lit "c") = lit "    hi    ".
Proof. reflexivity. Qed.

Example sanitize_latex_sample :
  _sanitize_latex_comment (lit "%% note") = lit "   note".
Proof. reflexivity. Qed.

End MaskingClaims.

(* ===================================================================== *)
(** ** The offset model                                                   *)
(* ===================================================================== *)

(** ** UTF-8: decoding undoes encoding *)

Lemma is_scalar_range c :
  is_scalar c = true ->
  (0 <= c < 0xD800) \/ (0xE000 <= c <= 0x10FFFF).
Proof. unfold is_scalar. lia. Qed.

Ltac ltb_false := rewrite (proj2 (Z.ltb_ge _ _)) by lia.
Ltac ltb_true := rewrite (proj2 (Z.ltb_lt _ _)) by lia.

Lemma decode1 b1 rest :
  b1 < 0x80 -> decode_replace (b1 :: rest) = b1 :: decode_replace rest.
Proof. intros. cbn [decode_replace]. by ltb_true. Qed.

Lemma decode2 b1 b2 rest :
  0xC2 <= b1 < 0xE0 -> is_cont b2 = true ->
  decode_replace (b1 :: b2 :: rest)
  = ((b1 - 0xC0) * 64 + (b2 - 0x80)) :: decode_replace rest.
Proof.
  intros H1 H2. remember (b2 :: rest) as tl eqn:Htl.
  cbn [decode_replace]. ltb_false. ltb_false. ltb_true.
  subst tl. by rewrite H2.
Qed.

Lemma decode3 b1 b2 b3 rest :
  0xE0 <= b1 < 0xF0 -> second3_ok b1 b2 = true -> is_cont b3 = true ->
  decode_replace (b1 :: b2 :: b3 :: rest)
  = ((b1 - 0xE0) * 4096 + (b2 - 0x80) * 64 + (b3 - 0x80))
      :: decode_replace rest.
Proof.
  intros H1 H2 H3. remember (b2 :: b3 :: rest) as tl eqn:Htl.
  cbn [decode_replace]. ltb_false. ltb_false. ltb_false. ltb_true.
  subst tl. by rewrite H2, H3.
Qed.

Lemma decode4 b1 b2 b3 b4 rest :
  0xF0 <= b1 < 0xF5 -> second4_ok b1 b2 = true -> is_cont b3 = true ->
  is_cont b4 = true ->
  decode_replace (b1 :: b2 :: b3 :: b4 :: rest)
  = ((b1 - 0xF0) * 262144 + (b2 - 0x80) * 4096 + (b3 - 0x80) * 64
     + (b4 - 0x80)) :: decode_replace rest.
Proof.
  intros H1 H2 H3 H4. remember (b2 :: b3 :: b4 :: rest) as tl eqn:Htl.
  cbn [decode_replace]. ltb_false. ltb_false. ltb_false. ltb_false. ltb_true.
  subst tl. by rewrite H2, H3, H4.
Qed.

Ltac euclid := Z.to_euclidean_division_equations; lia.

Lemma is_cont_low6 x : is_cont (0x80 + x mod 64) = true.
Proof. unfold is_cont. apply andb_true_iff. split; [apply Z.leb_le|apply Z.leb_le]; euclid. Qed.

Lemma decode_encode_char c b rest :
  encode_char c = Ok b ->
  decode_replace (b ++ rest) = c :: decode_replace rest.
Proof.
  unfold encode_char. destruct (is_scalar c) eqn:Hs; [|done]. cbn [negb].
  apply is_scalar_range in Hs.
  destruct (c <? 128) eqn:E1;
    [apply Z.ltb_lt in E1 | apply Z.ltb_ge in E1].
  { intros [= <-]. cbn [app]. by rewrite decode1 by lia. }
  destruct (c <? 2048) eqn:E2;
    [apply Z.ltb_lt in E2 | apply Z.ltb_ge in E2].
  { intros [= <-]. cbn [app].
    rewrite decode2; [f_equal; euclid|euclid|apply is_cont_low6]. }
  destruct (c <? 65536) eqn:E3;
    [apply Z.ltb_lt in E3 | apply Z.ltb_ge in E3].
  { intros [= <-]. cbn [app].
    rewrite decode3; [f_equal; euclid|euclid| |apply is_cont_low6].
    unfold second3_ok. rewrite is_cont_low6. cbn [andb].
    apply negb_true_iff.
    destruct (128 + (c / 64) mod 64 <? 160) eqn:E4;
      [apply Z.ltb_lt in E4 | apply Z.ltb_ge in E4];
      apply Z.eqb_neq; euclid. }
  intros [= <-]. cbn [app].
  rewrite decode4;
    [f_equal; euclid|euclid| |apply is_cont_low6|apply is_cont_low6].
  unfold second4_ok. rewrite is_cont_low6. cbn [andb].
  apply negb_true_iff.
  destruct (128 + (c / 4096) mod 64 <? 144) eqn:E4;
    [apply Z.ltb_lt in E4 | apply Z.ltb_ge in E4];
    apply Z.eqb_neq; euclid.
Qed.

Lemma decode_encode : forall s b,
  encode s = Ok b -> decode_replace b = s.
Proof.
  induction s as [|c s IH]; intros b; cbn [encode].
  - by intros [= <-].
  - destruct (encode_char c) as [bc|e] eqn:Ec; [|done]. rewrite bind_ok.
    destruct (encode s) as [bs|e] eqn:Es; [|done]. rewrite bind_ok.
    intros [= <-]. rewrite (decode_encode_char c bc bs Ec). f_equal. by apply IH.
Qed.

Lemma encode_app : forall s1 s2 b1 b2,
  encode s1 = Ok b1 -> encode s2 = Ok b2 -> encode (s1 ++ s2) = Ok (b1 ++ b2).
Proof.
  induction s1 as [|c s1 IH]; intros s2 b1 b2; cbn [encode app].
  - by intros [= <-] ->.
  - destruct (encode_char c) as [bc|e]; [|done]. rewrite !bind_ok.
    destruct (encode s1) as [bs|e]; [|done]. rewrite bind_ok.
    intros [= <-] H2. rewrite (IH s2 bs b2 eq_refl H2), bind_ok.
    by rewrite <- app_assoc.
Qed.

Lemma wf_text_app s1 s2 :
  wf_text (s1 ++ s2) = wf_text s1 && wf_text s2.
Proof. unfold wf_text. apply forallb_app. Qed.

Lemma wf_text_take k s : wf_text s = true -> wf_text (take k s) = true.
Proof.
  intros H. rewrite <- (take_drop k s), wf_text_app in H.
  by apply andb_true_iff in H as [? _].
Qed.

Lemma wf_text_drop k s : wf_text s = true -> wf_text (drop k s) = true.
Proof.
  intros H. rewrite <- (take_drop k s), wf_text_app in H.
  by apply andb_true_iff in H as [_ ?].
Qed.

Lemma utf8_len_nonneg s : 0 <= utf8_len s.
Proof.
  induction s as [|c s IH]; cbn [utf8_len]; [lia|].
  unfold char_width. repeat destruct (_ <? _); lia.
Qed.

(** The bytes of a text up to the end of its first [k] characters decode
    to those characters. *)
Lemma decode_prefix text k bs :
  wf_text text = true -> encode text = Ok bs ->
  decode_replace (slice_to bs (utf8_len (take k text))) = take k text.
Proof.
  intros Hwf Hbs.
  destruct (encode_wf (take k text) (wf_text_take k text Hwf)) as (b1 & H1 & L1).
  destruct (encode_wf (drop k text) (wf_text_drop k text Hwf)) as (b2 & H2 & L2).
  pose proof (encode_app _ _ _ _ H1 H2) as Happ.
  rewrite take_drop, Hbs in Happ. injection Happ as ->.
  unfold slice_to, clip. rewrite <- L1.
  pose proof (len_nonneg b1).
  destruct (len b1 <? 0) eqn:E; [apply Z.ltb_lt in E; lia|].
  replace (Z.to_nat (len b1 `min` len (b1 ++ b2))) with (length b1)
    by (unfold len; rewrite length_app; lia).
  rewrite take_app_length. by apply decode_encode.
Qed.

(** ** Lines *)


Lemma split_cons_sep sep c t :
  c = sep -> split sep (c :: t) = [] :: split sep t.
Proof. intros ->. cbn [split]. by rewrite Z.eqb_refl. Qed.

Lemma split_cons_other sep c t h tl :
  c <> sep -> split sep t = h :: tl -> split sep (c :: t) = (c :: h) :: tl.
Proof.
  intros Hc Ht. cbn [split]. rewrite (proj2 (Z.eqb_neq _ _) Hc). by rewrite Ht.
Qed.

Lemma last_cons_nonempty {A} (x : A) l : l <> [] -> last (x :: l) = last l.
Proof. destruct l; [done|]. done. Qed.

Lemma split_take : forall text n l k,
  split NL text !! n = Some l -> (k <= length l)%nat ->
  let off := (line_offset n (split NL text) + k)%nat in
  length (split NL (take off text)) = S n
  /\ last (split NL (take off text)) = Some (take k l).
Proof.
  induction text as [|c t IH]; intros n l k Hn Hk off.
  - cbn [split] in Hn. destruct n; [|done]. injection Hn as <-.
    simpl in Hk. assert (k = O) as -> by lia. done.
  - destruct (decide (c = NL)) as [Hc|Hc].
    + rewrite (split_cons_sep NL c t Hc) in Hn. subst off.
      rewrite (split_cons_sep NL c t Hc).
      destruct n as [|n'].
      * injection Hn as <-. simpl in Hk. assert (k = O) as -> by lia.
        by simpl.
      * cbn [lookup list_lookup] in Hn.
        destruct (IH n' l k Hn Hk) as [IH1 IH2].
        cbn [line_offset length].
        replace (0 + 1 + line_offset n' (split NL t) + k)%nat
          with (S (line_offset n' (split NL t) + k)) by lia.
        cbn [take]. rewrite (split_cons_sep NL c _ Hc).
        split; [simpl; lia|].
        rewrite last_cons_nonempty by apply split_nonempty. done.
    + destruct (split NL t) as [|h tl] eqn:Et; [by apply split_nonempty in Et|].
      rewrite (split_cons_other NL c t h tl Hc Et) in Hn. subst off.
      rewrite (split_cons_other NL c t h tl Hc Et).
      destruct n as [|n'].
      * injection Hn as <-. cbn [line_offset].
        destruct k as [|k']; [by simpl|].
        simpl in Hk.
        destruct (IH O h k' eq_refl ltac:(lia)) as [IH1 IH2].
        cbn [line_offset Nat.add] in IH1, IH2. cbn [Nat.add take].
        destruct (split NL (take k' t)) as [|h' tl'] eqn:E'; [done|].
        destruct tl'; [|simpl in IH1; lia].
        rewrite (split_cons_other NL c _ h' [] Hc E').
        simpl in IH2. injection IH2 as ->. done.
      * cbn [lookup list_lookup] in Hn.
        destruct (IH (S n') l k Hn Hk) as [IH1 IH2].
        cbn [line_offset length] in *.
        replace (S (length h) + 1 + line_offset n' tl + k)%nat
          with (S (length h + 1 + line_offset n' tl + k)) by lia.
        cbn [take].
        destruct (split NL (take (length h + 1 + line_offset n' tl + k) t))
          as [|h' tl'] eqn:E'; [done|].
        rewrite (split_cons_other NL c _ h' tl' Hc E').
        split; [done|].
        destruct tl' as [|x tl']; [simpl in IH1; lia|]. done.
Qed.

Lemma split_cover : forall text k,
  (k <= length text)%nat ->
  exists n l k',
    split NL text !! n = Some l /\ (k' <= length l)%nat
    /\ k = (line_offset n (split NL text) + k')%nat.
Proof.
  induction text as [|c t IH]; intros k Hk.
  - exists O, [], O. simpl in Hk. split; [done|]. split; simpl; lia.
  - destruct k as [|k0].
    + destruct (split NL (c :: t)) as [|l ls] eqn:E;
        [by apply split_nonempty in E|].
      exists O, l, O. split; [done|]. split; simpl; lia.
    + simpl in Hk. destruct (IH k0 ltac:(lia)) as (n0 & l0 & k0' & H1 & H2 & H3).
      destruct (decide (c = NL)) as [Hc|Hc].
      * rewrite (split_cons_sep NL c t Hc).
        exists (S n0), l0, k0'. split; [done|]. split; [done|].
        cbn [line_offset length]. lia.
      * destruct (split NL t) as [|h tl] eqn:Et;
          [by apply split_nonempty in Et|].
        rewrite (split_cons_other NL c t h tl Hc Et).
        destruct n0 as [|m].
        -- injection H1 as <-.
           exists O, (c :: h), (S k0'). cbn [line_offset] in *.
           split; [done|]. split; simpl; lia.
        -- exists (S m), l0, k0'. split; [done|]. split; [done|].
           cbn [line_offset length] in *. lia.
Qed.

(** ** The two conversions *)

Section OffsetProofs.
Import Server.

Lemma utf16_units_pos c : 1 <= utf16_units c.
Proof. unfold utf16_units. destruct (_ <? _); lia. Qed.

Lemma utf16_length_acc : forall s acc,
  utf16_length s acc = acc + utf16_length s 0.
Proof.
  induction s as [|c s IH]; intros acc; cbn [utf16_length]; [lia|].
  rewrite (IH (acc + utf16_units c)), (IH (0 + utf16_units c)). lia.
Qed.

Lemma utf16_length_nonneg s : 0 <= utf16_length s 0.
Proof.
  induction s as [|c s IH]; cbn [utf16_length]; [lia|].
  rewrite utf16_length_acc. pose proof (utf16_units_pos c). lia.
Qed.

Lemma walk_line_spec : forall l k u c,
  (k <= length l)%nat ->
  walk_line (u + utf16_length (take k l) 0) l u c = c + Z.of_nat k.
Proof.
  induction l as [|x l IH]; intros k u c Hk.
  - simpl in Hk. assert (k = O) as -> by lia. simpl. lia.
  - destruct k as [|k'].
    + cbn [take utf16_length walk_line]. rewrite Z.add_0_r, Z.leb_refl. lia.
    + cbn [take utf16_length walk_line].
      rewrite utf16_length_acc.
      pose proof (utf16_units_pos x). pose proof (utf16_length_nonneg (take k' l)).
      destruct (_ <=? u) eqn:E; [apply Z.leb_le in E; lia|].
      replace (u + (0 + utf16_units x + utf16_length (take k' l) 0))
        with ((u + utf16_units x) + utf16_length (take k' l) 0) by lia.
      rewrite IH by (simpl in Hk; lia). lia.
Qed.

Lemma skip_lines_spec : forall fuel pre rest off,
  (fuel <= length rest)%nat ->
  skip_lines fuel (len pre) (pre ++ rest) off
  = Ok (off + Z.of_nat (line_offset fuel rest)).
Proof.
  induction fuel as [|f IH]; intros pre rest off Hf.
  - cbn [skip_lines line_offset]. f_equal. lia.
  - destruct rest as [|l rest]; [simpl in Hf; lia|].
    cbn [skip_lines line_offset].
    destruct (len pre <? len (pre ++ l :: rest)) eqn:E.
    2:{ apply Z.ltb_ge in E. unfold len in E. rewrite length_app in E.
        simpl in E. lia. }
    rewrite getitem_middle, bind_ok.
    replace (pre ++ l :: rest) with ((pre ++ [l]) ++ rest)
      by (by rewrite <- app_assoc).
    rewrite <- (len_snoc pre l).
    rewrite IH by (simpl in Hf; lia). f_equal. unfold len. lia.
Qed.


Lemma slice_to_nat {A} (l : list A) (n : nat) :
  slice_to l (Z.of_nat n) = take n l.
Proof.
  unfold slice_to, clip.
  destruct (Z.of_nat n <? 0) eqn:E; [apply Z.ltb_lt in E; lia|].
  unfold len.
  destruct (decide (n <= length l)%nat).
  - f_equal. lia.
  - rewrite !take_ge by lia. done.
Qed.

Lemma getitem_last {A} (l : list A) x :
  last l = Some x -> getitem l (-1) = Ok x.
Proof.
  intros H. unfold getitem, index.
  assert (Hl : (0 < length l)%nat) by (destruct l; [done|simpl; lia]).
  destruct ((0 <=? -1) && (-1 <? len l)) eqn:E1; [done|].
  destruct ((- len l <=? -1) && (-1 <? 0)) eqn:E2.
  2:{ apply andb_false_iff in E2 as [E2|E2];
        [apply Z.leb_gt in E2; unfold len in E2; lia|done]. }
  rewrite last_lookup in H.
  replace (Z.to_nat (len l + -1)) with (Nat.pred (length l))
    by (unfold len; lia).
  by rewrite H.
Qed.

Lemma utf8_len_app s1 s2 : utf8_len (s1 ++ s2) = utf8_len s1 + utf8_len s2.
Proof. induction s1 as [|c s1 IH]; cbn [app utf8_len]; lia. Qed.

Lemma utf8_len_take_le k s : utf8_len (take k s) <= utf8_len s.
Proof.
  rewrite <- (take_drop k s) at 2. rewrite utf8_len_app.
  pose proof (utf8_len_nonneg (drop k s)). lia.
Qed.

Section Conversions.
Variable text : list Z.
Hypothesis Hwf : wf_text text = true.

Variables (n k : nat) (l : list Z).
Hypothesis Hn : split NL text !! n = Some l.
Hypothesis Hk : (k <= length l)%nat.

Local Abbreviation off := (line_offset n (split NL text) + k)%nat.

Lemma position_to_offset_valid :
  _position_to_offset text
    (mkPosition (Z.of_nat n) (utf16_length (take k l) 0))
  = Ok (Z.of_nat off).
Proof.
  unfold _position_to_offset. cbv zeta. cbn [line character].
  rewrite Nat2Z.id.
  pose proof (lookup_lt_Some _ _ _ Hn) as Hlt.
  pose proof (skip_lines_spec n [] (split NL text) 0 ltac:(lia)) as Hs.
  cbn [app] in Hs. change (len []) with 0 in Hs. rewrite Hs, bind_ok.
  destruct (Z.of_nat n <? len (split NL text)) eqn:E;
    [|apply Z.ltb_ge in E; unfold len in E; lia].
  destruct (getitem_in_range (split NL text) (Z.of_nat n)) as (x & -> & Hx);
    [unfold len; lia|].
  rewrite Nat2Z.id, Hn in Hx. injection Hx as <-. rewrite bind_ok.
  pose proof (walk_line_spec l k 0 0 Hk) as Hw.
  rewrite Z.add_0_l in Hw. rewrite Hw. f_equal. lia.
Qed.

Lemma position_to_byte_offset_valid :
  position_to_byte_offset text
    (mkPosition (Z.of_nat n) (utf16_length (take k l) 0))
  = Ok (utf8_len (take off text)).
Proof.
  unfold position_to_byte_offset.
  rewrite position_to_offset_valid, bind_ok, slice_to_nat.
  destruct (encode_wf (take off text) (wf_text_take off text Hwf))
    as (b & -> & <-).
  by rewrite bind_ok.
Qed.

Lemma byte_offset_to_position_boundary :
  _byte_offset_to_position text (utf8_len (take off text))
  = Ok (mkPosition (Z.of_nat n) (utf16_length (take k l) 0)).
Proof.
  unfold _byte_offset_to_position.
  destruct (encode_wf text Hwf) as (bs & Hbs & Hlen).
  rewrite Hbs, bind_ok. cbv zeta.
  pose proof (utf8_len_take_le off text) as Hle.
  replace (if len bs <=? utf8_len (take off text) then len bs
           else utf8_len (take off text))
    with (utf8_len (take off text))
    by (destruct (_ <=? _) eqn:E; [apply Z.leb_le in E; lia|done]).
  rewrite (decode_prefix text off bs Hwf Hbs).
  destruct (split_take text n l k Hn Hk) as [H1 H2].
  destruct (split NL (take off text)) as [|h tl] eqn:E; [done|].
  rewrite <- E in *. rewrite (getitem_last _ _ H2), bind_ok.
  f_equal. f_equal. unfold len. rewrite H1. lia.
Qed.
End Conversions.

Lemma byte_offset_to_position_total text o :
  wf_text text = true -> exists p, _byte_offset_to_position text o = Ok p.
Proof.
  intros Hwf. unfold _byte_offset_to_position.
  destruct (encode_wf text Hwf) as (bs & -> & _). rewrite bind_ok. cbv zeta.
  set (lines := split NL _).
  assert (exists x, last lines = Some x) as (x & Hx).
  { pose proof (split_nonempty NL
      (decode_replace (slice_to bs (if len bs <=? o then len bs else o)))) as H.
    fold lines in H. destruct (last lines) eqn:E; [eauto|].
    by apply last_None in E. }
  destruct lines as [|h tl] eqn:E; [done|]. rewrite <- E in *.
  rewrite (getitem_last _ _ Hx), bind_ok. eauto.
Qed.

Lemma byte_offset_to_position_clamped text o :
  wf_text text = true -> utf8_len text <= o ->
  _byte_offset_to_position text o
  = _byte_offset_to_position text (utf8_len text).
Proof.
  intros Hwf Ho. unfold _byte_offset_to_position.
  destruct (encode_wf text Hwf) as (bs & -> & Hlen). rewrite !bind_ok. cbv zeta.
  rewrite <- Hlen in *.
  rewrite (proj2 (Z.leb_le _ _) Ho), Z.leb_refl. done.
Qed.

End OffsetProofs.

Section OffsetClaims.
Import Py Server Aux Samples.

(** C2. Offset round trip: on a text that [str.encode] accepts,
    (1) a valid Position (an existing line, a column at a character boundary
    of that line) converted to a byte offset ([_position_to_offset], then the
    UTF-8 length of that prefix) and back by [_byte_offset_to_position] is
    the same Position;
    (2) a byte offset at a code-point boundary converted to a Position and
    back is the same offset;
    (3) an offset past the end of the text is clamped to the end; and
    (4) [_byte_offset_to_position] returns a Position for every offset. *)
Theorem offset_round_trip (text : list Z) :
  wf_text text = true ->
  (forall p, valid_position text p ->
     exists o, position_to_byte_offset text p = Ok o
               /\ _byte_offset_to_position text o = Ok p)
  /\ (forall o, boundary_offset text o ->
     exists p, _byte_offset_to_position text o = Ok p
               /\ position_to_byte_offset text p = Ok o)
  /\ (forall o, utf8_len text <= o ->
     _byte_offset_to_position text o
     = _byte_offset_to_position text (utf8_len text))
  /\ (forall o, exists p, _byte_offset_to_position text o = Ok p).
Proof.
  intros Hwf. split; [|split; [|split]].
  - intros [pl pc] (n & k & l & Hl & Hn & Hk & Hc). cbn in Hl, Hc. subst pl pc.
    eexists. split.
    + by apply position_to_byte_offset_valid.
    + by apply byte_offset_to_position_boundary.
  - intros o (k & Hk & ->).
    destruct (split_cover text k Hk) as (n & l & k' & Hn & Hk' & ->).
    eexists. split.
    + by apply byte_offset_to_position_boundary.
    + by apply position_to_byte_offset_valid.
  - intros o Ho. by apply byte_offset_to_position_clamped.
  - intros o. by apply byte_offset_to_position_total.
Qed.

Lemma offset_round_trip_witness :
  wf_text emoji_text = true
  /\ valid_position emoji_text emoji_position
  /\ position_to_byte_offset emoji_text emoji_position = Ok 13
  /\ _byte_offset_to_position emoji_text 13 = Ok emoji_position
  /\ boundary_offset emoji_text 7
  /\ (exists p, _byte_offset_to_position emoji_text 7 = Ok p
                /\ position_to_byte_offset emoji_text p = Ok 7)
  /\ _byte_offset_to_position emoji_text 1000
     = _byte_offset_to_position emoji_text (utf8_len emoji_text).
Proof.
  pose proof (offset_round_trip emoji_text eq_refl) as (H1 & H2 & H3 & _).
  assert (Hv : valid_position emoji_text emoji_position).
  { exists 1%nat, 2%nat, [97; 0x1F600; 98]. repeat split. simpl. lia. }
  assert (Hb : boundary_offset emoji_text 7).
  { exists 2%nat. split; [simpl; lia|reflexivity]. }
  split; [reflexivity|]. split; [exact Hv|].
  split; [reflexivity|]. split; [reflexivity|].
  split; [exact Hb|]. split; [exact (H2 7 Hb)|].
  apply H3. vm_compute. discriminate.
Defined.

(** A column inside a surrogate pair is not a valid Position, and does
    not survive the round trip: column 2 of the line あ😀 comes back as
    column 3. *)
Example position_inside_surrogate_pair :
  position_to_byte_offset emoji_text (mkPosition 0 2) = Ok 7
  /\ _byte_offset_to_position emoji_text 7 = Ok (mkPosition 0 3).
Proof. split; reflexivity. Qed.

End OffsetClaims.

(* ===================================================================== *)
(** ** The grammar rules                                                  *)
(* ===================================================================== *)

Section GrammarProofs.
Import Analyzer GrammarChecker.

(** ** Grammar checker: position helpers never fail on encodable text *)

Lemma find_line_range c : forall ls i line,
  find_line c i ls line = line
  \/ (i <= find_line c i ls line < i + len ls).
Proof.
  induction ls as [|start rest IH]; intros i line; simpl; [by left|].
  destruct (c <? start); [by left|].
  right. unfold len in *. simpl length.
  destruct (IH (i + 1) i) as [-> | H]; lia.
Qed.

Lemma byte_offset_to_position_ok text ls b :
  wf_text text = true -> ls <> [] ->
  exists p, _byte_offset_to_position text ls b = Ok p.
Proof.
  intros Hwf Hls. unfold _byte_offset_to_position.
  destruct (encode_wf text Hwf) as (bs & -> & _). ok_step.
  set (co := len (decode_replace _)).
  destruct (getitem_in_range ls (find_line co 0 ls 0)) as (x & -> & _).
  - destruct (find_line_range co ls 0 0) as [-> | H]; [|lia].
    destruct ls; [done|]. unfold len. simpl. lia.
  - ok_step. eauto.
Qed.

Lemma make_range_ok text ls a b :
  wf_text text = true -> ls <> [] ->
  exists r, _make_range text ls a b = Ok r.
Proof.
  intros Hwf Hls. unfold _make_range.
  destruct (byte_offset_to_position_ok text ls a Hwf Hls) as (p & ->).
  destruct (byte_offset_to_position_ok text ls b Hwf Hls) as (q & ->).
  ok_step. ok_step. eauto.
Qed.

Lemma byte_len_ok s :
  wf_text s = true -> byte_len s = Ok (utf8_len s).
Proof.
  intros H. unfold byte_len. destruct (encode_wf s H) as (b & -> & <-).
  by ok_step.
Qed.

(** ** comma_limit *)

Lemma comma_loop_spec text ls limit :
  wf_text text = true -> ls <> [] ->
  forall sentences diagnostics,
  exists ds,
    comma_loop text ls limit sentences diagnostics = Ok (diagnostics ++ ds)
    /\ Forall2 (comma_reports text ls limit)
         (filter (fun s => limit < _count_commas (sb_text s)) sentences) ds.
Proof.
  intros Hwf Hls.
  induction sentences as [|s rest IH]; intros diagnostics; simpl.
  - exists []. split; [by rewrite app_nil_r|constructor].
  - destruct (_count_commas (sb_text s) <=? limit) eqn:E.
    + apply Z.leb_le in E.
      destruct (IH diagnostics) as (ds & -> & HF).
      exists ds. split; [done|].
      rewrite filter_cons_False by lia. done.
    + apply Z.leb_gt in E.
      destruct (make_range_ok text ls (sb_start s) (sb_end s) Hwf Hls)
        as (r & Hr).
      rewrite Hr. ok_step.
      destruct (IH (diagnostics ++
                    [new_diagnostic r 2
                       (comma_message limit (_count_commas (sb_text s)))]))
        as (ds & -> & HF).
      eexists (_ :: ds). split; [by rewrite <- app_assoc|].
      rewrite filter_cons_True by lia.
      constructor; [|done]. by repeat split.
Qed.

(** ** The feature predicates never raise *)


Lemma split_len_pos sep s : 1 <= len (split sep s).
Proof.
  pose proof (split_nonempty sep s). destruct (split sep s); [done|].
  unfold len. simpl. lia.
Qed.

Ltac get_part parts k :=
  let x := fresh "x" in
  destruct (getitem_in_range parts k) as (x & -> & _); [lia|]; ok_step.

Lemma is_adversative_ga_total f : exists b, _is_adversative_ga f = Ok b.
Proof.
  unfold _is_adversative_ga. set (parts := split COMMA f).
  destruct (len parts <? 7) eqn:E; [eauto|]. apply Z.ltb_ge in E.
  get_part parts 0. get_part parts 1. get_part parts 6. eauto.
Qed.

Lemma is_target_verb_total f : exists b, _is_target_verb f = Ok b.
Proof.
  unfold _is_target_verb. set (parts := split COMMA f).
  destruct (len parts <? 6) eqn:E; [eauto|]. apply Z.ltb_ge in E.
  get_part parts 0. get_part parts 1. get_part parts 4. get_part parts 5.
  eauto.
Qed.

Lemma is_ra_word_total f : exists b, _is_ra_word f = Ok b.
Proof.
  unfold _is_ra_word. set (parts := split COMMA f).
  destruct (len parts <? 7) eqn:E; [eauto|]. apply Z.ltb_ge in E.
  get_part parts 0. get_part parts 1. get_part parts 6. eauto.
Qed.

Lemma is_special_ra_case_total f : exists b, _is_special_ra_case f = Ok b.
Proof.
  unfold _is_special_ra_case. set (parts := split COMMA f).
  destruct (len parts <? 7) eqn:E; [eauto|]. apply Z.ltb_ge in E.
  get_part parts 0. get_part parts 6. eauto.
Qed.

Lemma is_particle_total f : _is_particle f = Ok (is_particle_b f).
Proof.
  unfold is_particle_b, _is_particle. cbv zeta.
  pose proof (split_len_pos COMMA f) as H.
  destruct (split COMMA f) as [|p ps] eqn:E; [done|].
  get_part (p :: ps) 0. done.
Qed.

Lemma is_conjunction_total f : exists b, _is_conjunction f = Ok b.
Proof.
  unfold _is_conjunction. cbv zeta.
  pose proof (split_len_pos COMMA f) as H.
  destruct (split COMMA f) as [|p ps] eqn:E; [eauto|].
  get_part (p :: ps) 0. eauto.
Qed.

Lemma particle_key_total f : _particle_key f = Ok (particle_key_of f).
Proof.
  unfold particle_key_of, _particle_key. cbv zeta.
  pose proof (split_len_pos COMMA f) as H.
  destruct (len (split COMMA f) <? 2) eqn:E.
  - destruct (split COMMA f) as [|p ps] eqn:E'; [done|].
    by destruct (getitem_in_range (p :: ps) 0) as (x & -> & _); [lia|].
  - apply Z.ltb_ge in E.
    get_part (split COMMA f) 0. get_part (split COMMA f) 1. done.
Qed.

(** ** duplicate_particle_surface: the loop acts on the particle stream *)



Lemma dup_loop_stream text ls m s : forall tokens ps pre st d,
  length ps = length tokens ->
  dup_loop text ls (pre ++ ps) m s tokens (len pre) st d
  = dup_stream text ls m (particle_stream s tokens ps) st d.
Proof.
  induction tokens as [|t tokens IH]; intros ps pre st d Hlen.
  - destruct ps; [|done]. done.
  - destruct ps as [|p ps]; [done|]. injection Hlen as Hlen.
    cbn [dup_loop]. rewrite getitem_middle. ok_step.
    unfold particle_stream, sentence_stream. cbn [zip zip_with].
    replace (pre ++ p :: ps) with ((pre ++ [p]) ++ ps)
      by (by rewrite <- app_assoc).
    rewrite <- (len_snoc pre p).
    destruct (_in_sentence p s) eqn:Es; cbn [negb].
    + rewrite filter_cons_True by done.
      rewrite is_particle_total. ok_step.
      destruct (is_particle_b (feature t)) eqn:Ep; cbn [negb].
      * rewrite filter_cons_True by done.
        rewrite particle_key_total. ok_step.
        cbn [dup_stream].
        destruct (dup_step text ls m t p (particle_key_of (feature t)) st d)
          as [r|e]; [|done].
        ok_step. rewrite !bind_ok. by apply IH.
      * rewrite filter_cons_False by (simpl; congruence).
        by apply IH.
    + rewrite filter_cons_False by (simpl; congruence).
      by apply IH.
Qed.

Lemma dup_stream_app text ls m : forall l1 l2 st d,
  dup_stream text ls m (l1 ++ l2) st d
  = (let! r := dup_stream text ls m l1 st d in
     dup_stream text ls m l2 (fst r) (snd r)).
Proof.
  induction l1 as [|[t p] l1 IH]; intros l2 st d; [done|].
  cbn [app dup_stream].
  destruct (dup_step text ls m t p (particle_key_of (feature t)) st d)
    as [r|e]; [|done].
  rewrite !bind_ok. apply IH.
Qed.

(** After a particle has been processed, the loop remembers its line. *)
Lemma dup_step_remembers text ls m a pa k st d st' d' :
  dup_step text ls m a pa k st d = Ok (st', d') ->
  has_last st' = true /\ last_line st' = line a.
Proof.
  unfold dup_step. cbv zeta. intros H.
  match type of H with bind ?x _ = _ => destruct x as [[[s1 s2] s3]|e] end;
    [|by rewrite bind_raise in H].
  rewrite bind_ok in H. by injection H as <- _.
Qed.

(** A particle on another line than the remembered one restarts the streak
    and reports nothing. *)
Lemma dup_step_line_break text ls m b pb k st d :
  has_last st = true -> last_line st <> line b ->
  dup_step text ls m b pb k st d
  = Ok (mkDupState (surface b) k pb (line b) 1 true, d).
Proof.
  intros Hh Hl. unfold dup_step. rewrite Hh.
  destruct (line b =? last_line st) eqn:E; [apply Z.eqb_eq in E; congruence|].
  done.
Qed.

Lemma dup_step_first text ls m b pb k st d :
  has_last st = false ->
  dup_step text ls m b pb k st d
  = Ok (mkDupState (surface b) k pb (line b) 1 true, d).
Proof.
  intros Hh. unfold dup_step. cbv zeta. rewrite Hh. cbn [andb].
  rewrite Hh. done.
Qed.

Lemma dup_stream_snoc_remembers text ls m pre a pa st d st' d' :
  dup_stream text ls m (pre ++ [(a, pa)]) st d = Ok (st', d') ->
  has_last st' = true /\ last_line st' = line a.
Proof.
  rewrite dup_stream_app.
  destruct (dup_stream text ls m pre st d) as [[s1 d1]|e]; [|done].
  rewrite bind_ok. cbn [dup_stream fst snd].
  destruct (dup_step text ls m a pa (particle_key_of (feature a)) s1 d1)
    as [[s2 d2]|e] eqn:E; [|done].
  rewrite bind_ok. intros [= <- <-]. by eapply dup_step_remembers.
Qed.

Lemma dup_line_break text ls m s tokens positions pre a pa b pb post d :
  length positions = length tokens ->
  particle_stream s tokens positions = pre ++ (a, pa) :: (b, pb) :: post ->
  line a <> line b ->
  dup_loop text ls positions m s tokens 0 dup_init d
  = (let! r := dup_stream text ls m (pre ++ [(a, pa)]) dup_init d in
     dup_stream text ls m post
       (mkDupState (surface b) (particle_key_of (feature b)) pb (line b)
          1 true)
       (snd r)).
Proof.
  intros Hlen Hs Hl.
  pose proof (dup_loop_stream text ls m s tokens positions [] dup_init d Hlen)
    as Hb.
  cbn [app] in Hb. change (len []) with 0 in Hb. rewrite Hb, Hs.
  replace (pre ++ (a, pa) :: (b, pb) :: post)
    with ((pre ++ [(a, pa)]) ++ (b, pb) :: post) by (by rewrite <- app_assoc).
  rewrite dup_stream_app.
  destruct (dup_stream text ls m (pre ++ [(a, pa)]) dup_init d)
    as [[s1 d1]|e] eqn:E; [|done].
  rewrite !bind_ok. cbn [fst snd dup_stream].
  apply dup_stream_snoc_remembers in E as [Hh Hline].
  rewrite dup_step_line_break by congruence.
  by rewrite bind_ok.
Qed.

Lemma dup_loop_two text ls m s a pa b pb d :
  line a <> line b ->
  exists st, dup_loop text ls [pa; pb] m s [a; b] 0 dup_init d = Ok (st, d).
Proof.
  intros Hl.
  pose proof (dup_loop_stream text ls m s [a; b] [pa; pb] [] dup_init d eq_refl)
    as Hb.
  cbn [app] in Hb. change (len []) with 0 in Hb. rewrite Hb. clear Hb.
  unfold particle_stream, sentence_stream. cbn [zip zip_with].
  rewrite !filter_cons, !filter_nil.
  repeat case_decide; rewrite ?filter_cons, ?filter_nil;
    repeat case_decide; cbn [dup_stream];
    rewrite ?dup_step_first by done; rewrite ?bind_ok; cbn [fst snd];
    rewrite ?dup_step_line_break by (simpl; congruence);
    rewrite ?bind_ok; eauto.
Qed.

Lemma dup_sentences_two text ls m a pa b pb :
  line a <> line b ->
  forall sentences d,
  dup_sentences text [a; b] ls [pa; pb] m sentences d = Ok d.
Proof.
  intros Hl. induction sentences as [|s rest IH]; intros d; [done|].
  cbn [dup_sentences].
  destruct (dup_loop_two text ls m s a pa b pb d Hl) as (st & ->).
  rewrite bind_ok. apply IH.
Qed.

(** ** adjacent_particles *)

Lemma adj_loop_stream text ls m s : forall tokens ps pre st d,
  length ps = length tokens ->
  adj_loop text ls (pre ++ ps) m s tokens (len pre) st d
  = adj_stream text ls m (sentence_stream s tokens ps) st d.
Proof.
  induction tokens as [|t tokens IH]; intros ps pre st d Hlen.
  - destruct ps; [|done]. done.
  - destruct ps as [|p ps]; [done|]. injection Hlen as Hlen.
    cbn [adj_loop]. rewrite getitem_middle. ok_step.
    unfold sentence_stream. cbn [zip zip_with].
    replace (pre ++ p :: ps) with ((pre ++ [p]) ++ ps)
      by (by rewrite <- app_assoc).
    rewrite <- (len_snoc pre p).
    destruct (_in_sentence p s) eqn:Es; cbn [negb].
    + rewrite filter_cons_True by done.
      cbn [adj_stream].
      destruct (adj_step text ls m t p st d) as [r|e]; [|done].
      rewrite !bind_ok. by apply IH.
    + rewrite filter_cons_False by (simpl; congruence).
      by apply IH.
Qed.

Lemma adj_stream_app text ls m : forall l1 l2 st d,
  adj_stream text ls m (l1 ++ l2) st d
  = (let! r := adj_stream text ls m l1 st d in
     adj_stream text ls m l2 (fst r) (snd r)).
Proof.
  induction l1 as [|[t p] l1 IH]; intros l2 st d; [done|].
  cbn [app adj_stream].
  destruct (adj_step text ls m t p st d) as [r|e]; [|done].
  rewrite !bind_ok. apply IH.
Qed.

(** After a particle has been processed, the loop remembers it, its key
    and its start byte. *)
Lemma adj_step_remembers text ls m a pa st d st' d' :
  is_particle_b (feature a) = true ->
  adj_step text ls m a pa st d = Ok (st', d') ->
  prev_is_particle st' = true /\ prev_token st' = Some a
  /\ prev_start_byte st' = pa /\ prev_key st' = particle_key_of (feature a).
Proof.
  intros Hp. unfold adj_step.
  rewrite is_particle_total, particle_key_total, !bind_ok, Hp.
  intros H.
  match type of H with bind ?x _ = _ => destruct x as [[[s1 s2] s3]|e] end;
    [|by rewrite bind_raise in H].
  rewrite bind_ok in H. by injection H as <- _.
Qed.

(** A particle that does not start where the remembered one ends is not
    reported, and the streak is left as it is. *)
Lemma adj_step_not_adjacent text ls m a b pb st d n :
  prev_is_particle st = true -> prev_token st = Some a ->
  prev_key st = particle_key_of (feature b) ->
  is_particle_b (feature b) = true ->
  byte_len (surface a) = Ok n -> pb <> prev_start_byte st + n ->
  adj_step text ls m b pb st d
  = Ok (mkAdjState true (particle_key_of (feature b)) (Some b) pb
          (adj_streak st), d).
Proof.
  intros Hpp Hpt Hk Hb Hn Hne. unfold adj_step.
  rewrite is_particle_total, particle_key_total, !bind_ok, Hb, Hpt, Hpp, Hk.
  cbn [andb]. unfold str_eqb. rewrite bool_decide_eq_true_2 by done.
  rewrite Hn, bind_ok.
  destruct (pb =? prev_start_byte st + n) eqn:E;
    [apply Z.eqb_eq in E; congruence|].
  by rewrite bind_ok.
Qed.

Lemma adj_stream_snoc_remembers text ls m pre a pa st d st' d' :
  is_particle_b (feature a) = true ->
  adj_stream text ls m (pre ++ [(a, pa)]) st d = Ok (st', d') ->
  prev_is_particle st' = true /\ prev_token st' = Some a
  /\ prev_start_byte st' = pa /\ prev_key st' = particle_key_of (feature a).
Proof.
  intros Hp. rewrite adj_stream_app.
  destruct (adj_stream text ls m pre st d) as [[s1 d1]|e]; [|done].
  rewrite bind_ok. cbn [adj_stream fst snd].
  destruct (adj_step text ls m a pa s1 d1) as [[s2 d2]|e] eqn:E; [|done].
  rewrite bind_ok. intros [= <- <-]. by eapply adj_step_remembers.
Qed.

Lemma adj_not_adjacent_quiet text ls m s tokens positions pre a pa b pb
  post d n :
  length positions = length tokens ->
  sentence_stream s tokens positions = pre ++ (a, pa) :: (b, pb) :: post ->
  is_particle_b (feature a) = true ->
  is_particle_b (feature b) = true ->
  particle_key_of (feature a) = particle_key_of (feature b) ->
  byte_len (surface a) = Ok n ->
  pb <> pa + n ->
  adj_loop text ls positions m s tokens 0 adj_init d
  = (let! r := adj_stream text ls m (pre ++ [(a, pa)]) adj_init d in
     adj_stream text ls m post
       (mkAdjState true (particle_key_of (feature b)) (Some b) pb
          (adj_streak (fst r)))
       (snd r)).
Proof.
  intros Hlen Hs Ha Hb Hk Hn Hne.
  pose proof (adj_loop_stream text ls m s tokens positions [] adj_init d Hlen)
    as Hbr.
  cbn [app] in Hbr. change (len []) with 0 in Hbr. rewrite Hbr, Hs.
  replace (pre ++ (a, pa) :: (b, pb) :: post)
    with ((pre ++ [(a, pa)]) ++ (b, pb) :: post) by (by rewrite <- app_assoc).
  rewrite adj_stream_app.
  destruct (adj_stream text ls m (pre ++ [(a, pa)]) adj_init d)
    as [[s1 d1]|e] eqn:E; [|done].
  rewrite !bind_ok. cbn [fst snd adj_stream].
  apply adj_stream_snoc_remembers in E as (H1 & H2 & H3 & H4); [|done].
  rewrite (adj_step_not_adjacent text ls m a b pb s1 d1 n) by congruence.
  by rewrite bind_ok.
Qed.

(** A step reports nothing unless the token starts where the remembered
    particle ends. *)
Lemma adj_step_quiet text ls m b pb st d :
  (forall a, prev_token st = Some a ->
     exists n, byte_len (surface a) = Ok n /\ pb <> prev_start_byte st + n) ->
  exists st', adj_step text ls m b pb st d = Ok (st', d).
Proof.
  intros H. unfold adj_step.
  rewrite is_particle_total, particle_key_total, !bind_ok.
  destruct (prev_token st) as [a|].
  - destruct (H a eq_refl) as (n & Hn & Hne).
    destruct (is_particle_b (feature b) && prev_is_particle st
              && str_eqb (particle_key_of (feature b)) (prev_key st)).
    + rewrite Hn, bind_ok.
      destruct (pb =? prev_start_byte st + n) eqn:E;
        [apply Z.eqb_eq in E; congruence|].
      rewrite bind_ok. eauto.
    + rewrite bind_ok. eauto.
  - rewrite bind_ok. eauto.
Qed.

Lemma adj_step_from_init text ls m a pa d st' d' :
  adj_step text ls m a pa adj_init d = Ok (st', d') ->
  d' = d /\ prev_start_byte st' = (if is_particle_b (feature a) then pa else 0)
  /\ prev_token st' = (if is_particle_b (feature a) then Some a else None).
Proof.
  unfold adj_step.
  rewrite is_particle_total, particle_key_total, !bind_ok.
  cbn [prev_token adj_init]. rewrite bind_ok.
  destruct (is_particle_b (feature a)); intros [= <- <-]; cbn; auto.
Qed.

Lemma adj_loop_two text ls m s a pa b pb d n :
  byte_len (surface a) = Ok n -> pb <> pa + n ->
  exists st, adj_loop text ls [pa; pb] m s [a; b] 0 adj_init d = Ok (st, d).
Proof.
  intros Hn Hne.
  pose proof (adj_loop_stream text ls m s [a; b] [pa; pb] [] adj_init d eq_refl)
    as Hb.
  cbn [app] in Hb. change (len []) with 0 in Hb. rewrite Hb. clear Hb.
  unfold sentence_stream. cbn [zip zip_with].
  rewrite !filter_cons, !filter_nil.
  assert (Hinit : forall t p, exists st,
             adj_step text ls m t p adj_init d = Ok (st, d)).
  { intros t p. apply adj_step_quiet. intros a0 Ha0. done. }
  repeat case_decide; cbn [adj_stream]; eauto.
  - destruct (Hinit a pa) as (sa & Ha). rewrite Ha, bind_ok. cbn [fst snd].
    apply adj_step_from_init in Ha as (_ & Hst & Htok).
    destruct (adj_step_quiet text ls m b pb sa d) as (sb & ->).
    + intros a0 Ha0. rewrite Hst. rewrite Htok in Ha0.
      destruct (is_particle_b (feature a)); [|done].
      injection Ha0 as <-. eauto.
    + rewrite bind_ok. eauto.
  - destruct (Hinit a pa) as (sa & ->). rewrite bind_ok. eauto.
  - destruct (Hinit b pb) as (sb & ->). rewrite bind_ok. eauto.
Qed.

Lemma adj_sentences_two text ls m a pa b pb n :
  byte_len (surface a) = Ok n -> pb <> pa + n ->
  forall sentences d,
  adj_sentences text [a; b] ls [pa; pb] m sentences d = Ok d.
Proof.
  intros Hn Hne. induction sentences as [|s rest IH]; intros d; [done|].
  cbn [adj_sentences].
  destruct (adj_loop_two text ls m s a pa b pb d n Hn Hne) as (st & ->).
  rewrite bind_ok. apply IH.
Qed.

(** ** ra_dropping *)

(** Evaluate [getitem parts k] when [parts] is known down to cell [k]. *)
Ltac eval_part parts k :=
  let x := fresh "x" in
  let Hx := fresh "Hx" in
  let Hl := fresh "Hl" in
  destruct (getitem_in_range parts k) as (x & Hx & Hl);
  [unfold len; simpl length; lia|];
  simpl in Hl; injection Hl as <-; rewrite Hx, bind_ok; clear Hx.

Ltac long_enough :=
  match goal with
  | |- context [len ?l <? ?k] =>
      let E := fresh "E" in
      destruct (len l <? k) eqn:E;
      [apply Z.ltb_lt in E; unfold len in E; simpl length in E; lia|];
      clear E
  end.

Section RaFeatures.
Variables (fv fr : list Z) (s2 s3 : list Z) (restv : list (list Z)).
Variables (x2 x3 x4 x5 : list Z) (restr : list (list Z)).
Hypothesis Hv :
  split COMMA fv = DOUSHI :: JIRITSU :: s2 :: s3 :: ICHIDAN :: MIZENKEI :: restv.
Hypothesis Hr :
  split COMMA fr = DOUSHI :: SETSUBI :: x2 :: x3 :: x4 :: x5 :: RERU :: restr.

Lemma target_verb_yes : _is_target_verb fv = Ok true.
Proof.
  unfold _is_target_verb. cbv zeta. rewrite Hv. long_enough.
  set (parts := DOUSHI :: _).
  eval_part parts 0. eval_part parts 1. eval_part parts 4. eval_part parts 5.
  done.
Qed.

Lemma target_verb_not_ra : _is_ra_word fv = Ok false.
Proof.
  unfold _is_ra_word. cbv zeta. rewrite Hv.
  destruct (len _ <? 7) eqn:E; [done|]. apply Z.ltb_ge in E.
  set (parts := DOUSHI :: _) in *.
  eval_part parts 0. eval_part parts 1.
  destruct (getitem_in_range parts 6) as (x & -> & _); [lia|].
  rewrite bind_ok. done.
Qed.

Lemma ra_word_yes : _is_ra_word fr = Ok true.
Proof.
  unfold _is_ra_word. cbv zeta. rewrite Hr. long_enough.
  set (parts := DOUSHI :: _).
  eval_part parts 0. eval_part parts 1. eval_part parts 6. done.
Qed.

Lemma ra_word_not_target : _is_target_verb fr = Ok false.
Proof.
  unfold _is_target_verb. cbv zeta. rewrite Hr. long_enough.
  set (parts := DOUSHI :: _).
  eval_part parts 0. eval_part parts 1. eval_part parts 4. eval_part parts 5.
  done.
Qed.

Lemma ra_word_not_special : _is_special_ra_case fr = Ok false.
Proof.
  unfold _is_special_ra_case. cbv zeta. rewrite Hr. long_enough.
  set (parts := DOUSHI :: _).
  eval_part parts 0. eval_part parts 6. done.
Qed.
End RaFeatures.

Lemma ra_pair_loop_app text ls ps : forall l1 l2 i prev d,
  ra_pair_loop text ls ps (l1 ++ l2) i prev d
  = (let! r := ra_pair_loop text ls ps l1 i prev d in
     ra_pair_loop text ls ps l2 (i + len l1) (fst r) (snd r)).
Proof.
  induction l1 as [|t l1 IH]; intros l2 i prev d.
  - cbn [app ra_pair_loop]. rewrite bind_ok. cbn [fst snd].
    change (len []) with 0. by rewrite Z.add_0_r.
  - cbn [app ra_pair_loop].
    match goal with |- bind ?x _ = _ => destruct x as [d1|e] end; [|done].
    rewrite !bind_ok. rewrite IH.
    replace (i + 1 + len l1) with (i + len (t :: l1))
      by (unfold len; simpl length; lia).
    done.
Qed.

(** The second token of a pair is examined only after the first one was
    found to be a target verb. *)
Lemma ra_pair_step_quiet text ls ps t rest i prev d :
  (forall p, prev = Some p -> _is_target_verb (feature p) = Ok true ->
             _is_ra_word (feature t) = Ok false) ->
  ra_pair_loop text ls ps (t :: rest) i prev d
  = ra_pair_loop text ls ps rest (i + 1) (Some t) d.
Proof.
  intros H. cbn [ra_pair_loop].
  destruct prev as [p|]; [|by rewrite bind_ok].
  destruct (is_target_verb_total (feature p)) as ([|] & Ht); rewrite Ht, bind_ok.
  - rewrite (H p eq_refl Ht), bind_ok. cbn [andb]. by rewrite bind_ok.
  - rewrite bind_ok. cbn [andb]. by rewrite bind_ok.
Qed.

Lemma ra_pair_loop_last text ls ps : forall l t i prev d r,
  ra_pair_loop text ls ps (l ++ [t]) i prev d = Ok r -> fst r = Some t.
Proof.
  induction l as [|u l IH]; intros t i prev d r.
  - cbn [app ra_pair_loop].
    match goal with |- bind ?x _ = _ -> _ => destruct x as [d1|e] end; [|done].
    rewrite bind_ok. by intros [= <-].
  - cbn [app ra_pair_loop].
    match goal with |- bind ?x _ = _ -> _ => destruct x as [d1|e] end; [|done].
    rewrite bind_ok. apply IH.
Qed.

Lemma ra_pair_reported text ls tokens positions ts1 v r ts2 ps1 pv pr ps2
  s2 s3 restv x2 x3 x4 x5 restr d :
  tokens = ts1 ++ v :: r :: ts2 ->
  positions = ps1 ++ pv :: pr :: ps2 ->
  length ps1 = length ts1 ->
  split COMMA (feature v)
  = DOUSHI :: JIRITSU :: s2 :: s3 :: ICHIDAN :: MIZENKEI :: restv ->
  split COMMA (feature r)
  = DOUSHI :: SETSUBI :: x2 :: x3 :: x4 :: x5 :: RERU :: restr ->
  wf_text text = true -> ls <> [] -> wf_text (surface r) = true ->
  exists rng,
    _make_range text ls pv (pr + utf8_len (surface r)) = Ok rng
    /\ _check_ra_dropping text tokens ls positions d
       = (let! d0 := ra_special_loop text ls positions tokens 0 d in
          let! r1 := ra_pair_loop text ls positions ts1 0 None d0 in
          let! r2 := ra_pair_loop text ls positions ts2 (len ts1 + 2) (Some r)
                       (snd r1 ++ [new_diagnostic rng 2 message_ra]) in
          Ok (snd r2)).
Proof.
  intros -> -> Hlen Hv Hr Hwf Hls Hwr.
  destruct (make_range_ok text ls pv (pr + utf8_len (surface r)) Hwf Hls)
    as (rng & Hrng).
  exists rng. split; [done|].
  unfold _check_ra_dropping.
  destruct (ra_special_loop _ _ _ _ _ _) as [d0|e]; [|done].
  rewrite !bind_ok.
  set (ps := ps1 ++ pv :: pr :: ps2).
  replace (ts1 ++ v :: r :: ts2) with (ts1 ++ [v] ++ [r] ++ ts2) by done.
  rewrite ra_pair_loop_app.
  destruct (ra_pair_loop text ls ps ts1 0 None d0) as [[prev d1]|e]; [|done].
  rewrite !bind_ok. cbn [fst snd].
  rewrite ra_pair_loop_app.
  rewrite (ra_pair_step_quiet text ls ps v [] _ prev d1)
    by (intros; eapply target_verb_not_ra; eassumption).
  cbn [ra_pair_loop]. rewrite bind_ok. cbn [fst snd].
  rewrite ra_pair_loop_app.
  (* the step at [r] *)
  assert (Hstep : ra_pair_loop text ls ps [r] (0 + len ts1 + len [v]) (Some v) d1
                  = Ok (Some r, d1 ++ [new_diagnostic rng 2 message_ra])).
  { cbn [ra_pair_loop].
    rewrite (target_verb_yes _ _ _ _ Hv), bind_ok.
    rewrite (ra_word_yes _ _ _ _ _ _ Hr), bind_ok. cbn [andb].
    assert (Hi : 0 + len ts1 + len [v] - 1 = len ps1)
      by (unfold len; simpl length; lia).
    rewrite Hi. unfold ps. rewrite getitem_middle, bind_ok.
    replace (ps1 ++ pv :: pr :: ps2) with ((ps1 ++ [pv]) ++ pr :: ps2)
      by (by rewrite <- app_assoc).
    replace (0 + len ts1 + len [v]) with (len (ps1 ++ [pv]))
      by (rewrite len_snoc; unfold len; simpl length; lia).
    rewrite getitem_middle, bind_ok.
    rewrite byte_len_ok, bind_ok by done.
    rewrite Hrng, bind_ok.
    by rewrite !bind_ok. }
  rewrite Hstep, bind_ok. cbn [fst snd].
  replace (0 + len ts1 + len [v] + len [r]) with (len ts1 + 2)
    by (unfold len; simpl length; lia).
  done.
Qed.

(** ** Truncated feature records *)

Lemma short_not_adversative_ga f :
  len (split COMMA f) < 7 -> _is_adversative_ga f = Ok false.
Proof.
  intros H. unfold _is_adversative_ga. cbv zeta.
  by rewrite (proj2 (Z.ltb_lt _ _) H).
Qed.

Lemma short_not_ra_word f :
  len (split COMMA f) < 7 -> _is_ra_word f = Ok false.
Proof.
  intros H. unfold _is_ra_word. cbv zeta.
  by rewrite (proj2 (Z.ltb_lt _ _) H).
Qed.

Lemma short_not_special f :
  len (split COMMA f) < 7 -> _is_special_ra_case f = Ok false.
Proof.
  intros H. unfold _is_special_ra_case. cbv zeta.
  by rewrite (proj2 (Z.ltb_lt _ _) H).
Qed.

Lemma short_not_target_verb f :
  len (split COMMA f) < 6 -> _is_target_verb f = Ok false.
Proof.
  intros H. unfold _is_target_verb. cbv zeta.
  by rewrite (proj2 (Z.ltb_lt _ _) H).
Qed.

Lemma ga_count_skip ps s t rest i c :
  len (split COMMA (feature t)) < 7 ->
  ga_count ps s (t :: rest) i c = ga_count ps s rest (i + 1) c.
Proof.
  intros H. cbn [ga_count]. by rewrite short_not_adversative_ga, bind_ok.
Qed.

Lemma ra_special_skip text ls ps t rest i d :
  len (split COMMA (feature t)) < 7 ->
  ra_special_loop text ls ps (t :: rest) i d
  = ra_special_loop text ls ps rest (i + 1) d.
Proof.
  intros H. cbn [ra_special_loop]. by rewrite short_not_special, bind_ok.
Qed.

Lemma ra_pair_skip_second text ls ps t rest i prev d :
  len (split COMMA (feature t)) < 7 ->
  ra_pair_loop text ls ps (t :: rest) i prev d
  = ra_pair_loop text ls ps rest (i + 1) (Some t) d.
Proof.
  intros H. apply ra_pair_step_quiet. intros. by apply short_not_ra_word.
Qed.

Lemma ra_pair_skip_first text ls ps t u rest i d :
  _is_target_verb (feature t) = Ok false ->
  ra_pair_loop text ls ps (u :: rest) i (Some t) d
  = ra_pair_loop text ls ps rest (i + 1) (Some u) d.
Proof.
  intros H. apply ra_pair_step_quiet. intros p [= <-] Ht. congruence.
Qed.

Lemma ga_loop_all_short text tokens ls ps m :
  Forall (fun t => len (split COMMA (feature t)) < 7) tokens ->
  0 < m ->
  forall sentences d, ga_loop text tokens ls ps m sentences d = Ok d.
Proof.
  intros Hall Hm.
  assert (Hc : forall s i c, ga_count ps s tokens i c = Ok c).
  { intros s. induction Hall as [|t ts Ht _ IH]; intros i c; [done|].
    rewrite ga_count_skip by done. apply IH. }
  induction sentences as [|s rest IH]; intros d; [done|].
  cbn [ga_loop]. rewrite Hc, bind_ok.
  destruct (0 <=? m) eqn:E; [|apply Z.leb_gt in E; lia]. apply IH.
Qed.

Lemma ra_all_short text tokens ls ps d :
  Forall (fun t => len (split COMMA (feature t)) < 6) tokens ->
  _check_ra_dropping text tokens ls ps d = Ok d.
Proof.
  intros Hall. unfold _check_ra_dropping.
  assert (Hs : forall i, ra_special_loop text ls ps tokens i d = Ok d).
  { induction Hall as [|t ts Ht _ IH]; intros i; [done|].
    rewrite ra_special_skip by lia. apply IH. }
  rewrite Hs, bind_ok.
  assert (Hp : forall i prev, exists st,
             ra_pair_loop text ls ps tokens i prev d = Ok (st, d)).
  { clear Hs. induction Hall as [|t ts Ht _ IH]; intros i prev; [cbn; eauto|].
    rewrite ra_pair_skip_second by lia. apply IH. }
  destruct (Hp 0 None) as (st & ->). by rewrite bind_ok.
Qed.

(** ** What a reporting step implies *)

(** [dup_step] extends the diagnostics only for a particle on the
    remembered line, with the remembered surface and key. *)
Lemma dup_step_reports_only text ls m b pb k st d st' d' :
  dup_step text ls m b pb k st d = Ok (st', d') -> d' <> d ->
  has_last st = true /\ line b = last_line st
  /\ surface b = last_surface st /\ k = last_key st
  /\ m < streak st + 1.
Proof.
  unfold dup_step. cbv zeta.
  destruct (has_last st) eqn:Hh; cbn [andb].
  2:{ rewrite Hh. cbn [andb]. rewrite bind_ok. intros [= <- <-]. done. }
  destruct (line b =? last_line st) eqn:El; cbn [negb].
  2:{ cbn [has_last andb]. rewrite bind_ok. intros [= <- <-]. done. }
  rewrite Hh. cbn [andb].
  apply Z.eqb_eq in El.
  unfold str_eqb.
  destruct (bool_decide (surface b = last_surface st)) eqn:Es; cbn [andb].
  2:{ rewrite bind_ok. intros [= <- <-]. done. }
  destruct (bool_decide (k = last_key st)) eqn:Ek.
  2:{ rewrite bind_ok. intros [= <- <-]. done. }
  apply bool_decide_eq_true_1 in Es, Ek.
  destruct (m <? streak st + 1) eqn:Em.
  2:{ rewrite bind_ok. intros [= <- <-]. done. }
  apply Z.ltb_lt in Em. done.
Qed.

(** [adj_step] extends the diagnostics only for a particle that starts at
    the byte where the remembered particle, of the same key, ends. *)
Lemma adj_step_reports_only text ls m b pb st d st' d' :
  adj_step text ls m b pb st d = Ok (st', d') -> d' <> d ->
  exists a n,
    prev_token st = Some a /\ prev_is_particle st = true
    /\ is_particle_b (feature b) = true
    /\ particle_key_of (feature b) = prev_key st
    /\ byte_len (surface a) = Ok n
    /\ pb = prev_start_byte st + n
    /\ m < adj_streak st + 1.
Proof.
  unfold adj_step.
  rewrite is_particle_total, particle_key_total, !bind_ok.
  destruct (prev_token st) as [a|].
  2:{ rewrite bind_ok. intros [= <- <-]. done. }
  destruct (is_particle_b (feature b)) eqn:Eb; cbn [andb].
  2:{ rewrite bind_ok. intros [= <- <-]. done. }
  destruct (prev_is_particle st) eqn:Ep; cbn [andb].
  2:{ rewrite bind_ok. intros [= <- <-]. done. }
  unfold str_eqb.
  destruct (bool_decide (particle_key_of (feature b) = prev_key st)) eqn:Ek.
  2:{ rewrite bind_ok. intros [= <- <-]. done. }
  apply bool_decide_eq_true_1 in Ek.
  destruct (byte_len (surface a)) as [n|e] eqn:En; [|done]. rewrite bind_ok.
  destruct (pb =? prev_start_byte st + n) eqn:Ea.
  2:{ rewrite bind_ok. intros [= <- <-]. done. }
  apply Z.eqb_eq in Ea.
  destruct (m <? adj_streak st + 1) eqn:Em.
  2:{ rewrite bind_ok. intros [= <- <-]. done. }
  apply Z.ltb_lt in Em. intros _ _. by exists a, n.
Qed.

End GrammarProofs.

Section GrammarClaims.
Import Py Analyzer GrammarChecker Aux Samples.

(** C3 (amended). With a configured maximum [limit > 0], on a text that
    [str.encode] accepts, [_check_comma_limit] appends exactly one
    diagnostic for each sentence whose text holds more than [limit] commas
    、, in sentence order, and none for the other sentences; each is a
    warning whose range runs from the start byte to the end byte of its
    sentence.  In particular これは、とても、良い、本、です。 (4 commas)
    yields one diagnostic for limit 3 and none for limit 4. *)
Theorem comma_limit_flags_exceeding :
  (forall text sentences line_starts diagnostics limit,
     wf_text text = true -> line_starts <> [] -> 0 < limit ->
     exists ds,
       _check_comma_limit text sentences line_starts diagnostics limit
       = Ok (diagnostics ++ ds)
       /\ Forall2 (comma_reports text line_starts limit)
            (filter (fun s => limit < _count_commas (sb_text s)) sentences)
            ds)
  /\ _count_commas comma_text = 4
  /\ _check_comma_limit comma_text comma_sentences
       (_compute_line_starts comma_text) [] 3
     = Ok [new_diagnostic (mkRange (mkPosition 0 0) (mkPosition 0 16)) 2
             (comma_message 3 4)]
  /\ _check_comma_limit comma_text comma_sentences
       (_compute_line_starts comma_text) [] 4
     = Ok [].
Proof.
  split; [|repeat split; reflexivity].
  intros text sentences ls d limit Hwf Hls Hlim.
  unfold _check_comma_limit.
  destruct (limit <=? 0) eqn:E; [apply Z.leb_le in E; lia|].
  by apply comma_loop_spec.
Qed.

Lemma comma_limit_flags_exceeding_witness :
  wf_text comma_text = true
  /\ _compute_line_starts comma_text <> []
  /\ 0 < 3
  /\ exists ds,
       _check_comma_limit comma_text comma_sentences
         (_compute_line_starts comma_text) [] 3
       = Ok ([] ++ ds)
       /\ Forall2 (comma_reports comma_text (_compute_line_starts comma_text) 3)
            (filter (fun s => 3 < _count_commas (sb_text s)) comma_sentences)
            ds.
Proof.
  split; [reflexivity|]. split; [discriminate|]. split; [lia|].
  apply (proj1 comma_limit_flags_exceeding); [reflexivity|discriminate|lia].
Defined.

(** C3, as stated, fails for a maximum that is not positive: with limit 0
    a sentence holding one comma exceeds the limit, and yet nothing is
    reported. *)
Lemma comma_limit_zero_counterexample :
  0 < _count_commas (sb_text one_comma_sentence)
  /\ _check_comma_limit [TOUTEN] [one_comma_sentence]
       (_compute_line_starts [TOUTEN]) [] 0
     = Ok []
  /\ ~ (exists ds,
          _check_comma_limit [TOUTEN] [one_comma_sentence]
            (_compute_line_starts [TOUTEN]) [] 0
          = Ok ([] ++ ds)
          /\ Forall2
               (comma_reports [TOUTEN] (_compute_line_starts [TOUTEN]) 0)
               (filter (fun s => 0 < _count_commas (sb_text s))
                  [one_comma_sentence])
               ds).
Proof.
  split; [reflexivity|]. split; [reflexivity|].
  intros (ds & H & HF). cbn in H. injection H as <-.
  rewrite filter_cons_True in HF by (vm_compute; reflexivity).
  inversion HF.
Qed.

Example comma_limit_through_check_grammar :
  check_grammar default_config comma_text [] comma_sentences
  = Ok [new_diagnostic (mkRange (mkPosition 0 0) (mkPosition 0 16)) 2
          (comma_message 3 4)].
Proof. reflexivity. Qed.

(** C4. Duplicate-particle streak reset across lines.  (1) When two
    particles [a] and [b] follow one another in the particle stream of a
    sentence and lie on different lines, [_check_duplicate_particle_surface]
    reports nothing at [b] and restarts the streak there: its diagnostics
    are those of the stream up to [a], followed by those of the rest of the
    stream processed from a fresh streak that starts at [b].  (2) Run on
    two tokens that lie on different lines, the rule reports nothing,
    whatever their surfaces and keys, the sentences and [max_repeat].
    (3) The loop body extends the diagnostics only for a particle on the
    same line as the previous particle of the sentence, with the same
    surface and key. *)
Theorem duplicate_particle_line_break :
  (forall text ls m s tokens positions pre a pa b pb post d,
     0 < m ->
     length positions = length tokens ->
     particle_stream s tokens positions = pre ++ (a, pa) :: (b, pb) :: post ->
     line a <> line b ->
     _check_duplicate_particle_surface text tokens [s] ls positions d m
     = (let! r := dup_stream text ls m (pre ++ [(a, pa)]) dup_init d in
        let! r' := dup_stream text ls m post
                     (mkDupState (surface b) (particle_key_of (feature b))
                        pb (line b) 1 true)
                     (snd r) in
        Ok (snd r')))
  /\ (forall text ls m a pa b pb sentences d,
     line a <> line b ->
     _check_duplicate_particle_surface text [a; b] sentences ls [pa; pb] d m
     = Ok d)
  /\ (forall text ls m b pb k st d st' d',
     dup_step text ls m b pb k st d = Ok (st', d') -> d' <> d ->
     has_last st = true /\ line b = last_line st
     /\ surface b = last_surface st /\ k = last_key st
     /\ m < streak st + 1).
Proof.
  split; [|split]; [| |apply dup_step_reports_only].
  - intros text ls m s tokens positions pre a pa b pb post d Hm Hlen Hs Hl.
    unfold _check_duplicate_particle_surface.
    destruct (m <=? 0) eqn:E; [apply Z.leb_le in E; lia|].
    cbn [dup_sentences].
    rewrite (dup_line_break text ls m s tokens positions pre a pa b pb post d
               Hlen Hs Hl).
    destruct (dup_stream text ls m (pre ++ [(a, pa)]) dup_init d)
      as [r|e]; [|done].
    rewrite !bind_ok.
    by destruct (dup_stream text ls m post _ (snd r)) as [r'|e].
  - intros text ls m a pa b pb sentences d Hl.
    unfold _check_duplicate_particle_surface.
    destruct (m <=? 0); [done|]. by apply dup_sentences_two.
Qed.

Lemma duplicate_particle_line_break_witness :
  0 < 1
  /\ length [0; 4] = length [ha_line0; ha_line1]
  /\ particle_stream ha_sentence_two_lines [ha_line0; ha_line1] [0; 4]
     = [] ++ (ha_line0, 0) :: (ha_line1, 4) :: []
  /\ line ha_line0 <> line ha_line1
  /\ surface ha_line0 = surface ha_line1
  /\ particle_key_of (feature ha_line0) = particle_key_of (feature ha_line1)
  /\ _compute_token_byte_positions [ha_line0; ha_line1] ha_text_two_lines
       (_compute_line_starts ha_text_two_lines) = Ok [0; 4]
  /\ _check_duplicate_particle_surface ha_text_two_lines
       [ha_line0; ha_line1] [ha_sentence_two_lines]
       (_compute_line_starts ha_text_two_lines) [0; 4] [] 1
     = Ok [].
Proof.
  split; [lia|]. split; [reflexivity|]. split; [reflexivity|].
  split; [discriminate|]. split; [reflexivity|]. split; [reflexivity|].
  split; [reflexivity|].
  rewrite (proj1 duplicate_particle_line_break ha_text_two_lines
             (_compute_line_starts ha_text_two_lines) 1 ha_sentence_two_lines
             [ha_line0; ha_line1] [0; 4] [] ha_line0 0 ha_line1 4 [] []);
    [reflexivity|lia|reflexivity|reflexivity|discriminate].
Defined.

(** On one line the same two particles are reported: the line break is what
    silences the rule in C4. *)
Example duplicate_particle_same_line :
  _compute_token_byte_positions [ha_col0; ha_col1] ha_text_one_line
    (_compute_line_starts ha_text_one_line) = Ok [0; 3]
  /\ _check_duplicate_particle_surface ha_text_one_line [ha_col0; ha_col1]
       [ha_sentence_one_line] (_compute_line_starts ha_text_one_line)
       [0; 3] [] 1
     = Ok [new_diagnostic (mkRange (mkPosition 0 0) (mkPosition 0 2)) 2
             (dup_message HA)].
Proof. split; reflexivity. Qed.

(** C5. Adjacent particles require byte adjacency.  (1) When two particles
    [a] and [b] with the same (POS, sub1) key follow one another among the
    tokens of a sentence and [b] does not start at the byte where [a] ends,
    [_check_adjacent_particles] reports nothing at [b] and leaves the streak
    as it was: its diagnostics are those of the tokens up to [a], followed
    by those of the rest processed from the state that remembers [b].
    (2) Run on two tokens of which the second does not start where the
    first ends, the rule reports nothing.  (3) The loop body extends the
    diagnostics only for a particle that follows a particle of the same
    key and starts at that particle's start byte plus the UTF-8 length of
    its surface. *)
Theorem adjacent_particles_need_adjacency :
  (forall text ls m s tokens positions pre a pa b pb post d n,
     0 < m ->
     length positions = length tokens ->
     sentence_stream s tokens positions = pre ++ (a, pa) :: (b, pb) :: post ->
     is_particle_b (feature a) = true ->
     is_particle_b (feature b) = true ->
     particle_key_of (feature a) = particle_key_of (feature b) ->
     byte_len (surface a) = Ok n ->
     pb <> pa + n ->
     _check_adjacent_particles text tokens [s] ls positions d m
     = (let! r := adj_stream text ls m (pre ++ [(a, pa)]) adj_init d in
        let! r' := adj_stream text ls m post
                     (mkAdjState true (particle_key_of (feature b)) (Some b)
                        pb (adj_streak (fst r)))
                     (snd r) in
        Ok (snd r')))
  /\ (forall text ls m a pa b pb sentences d n,
     byte_len (surface a) = Ok n ->
     pb <> pa + n ->
     _check_adjacent_particles text [a; b] sentences ls [pa; pb] d m = Ok d)
  /\ (forall text ls m b pb st d st' d',
     adj_step text ls m b pb st d = Ok (st', d') -> d' <> d ->
     exists a n,
       prev_token st = Some a /\ prev_is_particle st = true
       /\ is_particle_b (feature b) = true
       /\ particle_key_of (feature b) = prev_key st
       /\ byte_len (surface a) = Ok n
       /\ pb = prev_start_byte st + n
       /\ m < adj_streak st + 1).
Proof.
  split; [|split]; [| |apply adj_step_reports_only].
  - intros text ls m s tokens positions pre a pa b pb post d n
      Hm Hlen Hs Ha Hb Hk Hn Hne.
    unfold _check_adjacent_particles.
    destruct (m <=? 0) eqn:E; [apply Z.leb_le in E; lia|].
    cbn [adj_sentences].
    rewrite (adj_not_adjacent_quiet text ls m s tokens positions pre a pa b pb
               post d n Hlen Hs Ha Hb Hk Hn Hne).
    destruct (adj_stream text ls m (pre ++ [(a, pa)]) adj_init d)
      as [r|e]; [|done].
    rewrite !bind_ok.
    by destruct (adj_stream text ls m post _ (snd r)) as [r'|e].
  - intros text ls m a pa b pb sentences d n Hn Hne.
    unfold _check_adjacent_particles.
    destruct (m <=? 0); [done|]. by eapply adj_sentences_two.
Qed.

Lemma adjacent_particles_need_adjacency_witness :
  _compute_token_byte_positions [ni_token; wo_token_spaced] ni_wo_spaced_text
    (_compute_line_starts ni_wo_spaced_text) = Ok [0; 4]
  /\ sentence_stream ni_wo_spaced_sentence [ni_token; wo_token_spaced] [0; 4]
     = [] ++ (ni_token, 0) :: (wo_token_spaced, 4) :: []
  /\ is_particle_b (feature ni_token) = true
  /\ is_particle_b (feature wo_token_spaced) = true
  /\ particle_key_of (feature ni_token)
     = particle_key_of (feature wo_token_spaced)
  /\ byte_len (surface ni_token) = Ok 3
  /\ 4 <> 0 + 3
  /\ _check_adjacent_particles ni_wo_spaced_text [ni_token; wo_token_spaced]
       [ni_wo_spaced_sentence] (_compute_line_starts ni_wo_spaced_text)
       [0; 4] [] 1
     = Ok [].
Proof.
  split; [reflexivity|]. split; [reflexivity|]. split; [reflexivity|].
  split; [reflexivity|]. split; [reflexivity|]. split; [reflexivity|].
  split; [lia|].
  rewrite (proj1 adjacent_particles_need_adjacency ni_wo_spaced_text
             (_compute_line_starts ni_wo_spaced_text) 1 ni_wo_spaced_sentence
             [ni_token; wo_token_spaced] [0; 4] [] ni_token 0 wo_token_spaced 4
             [] [] 3);
    [reflexivity|lia|reflexivity|reflexivity|reflexivity|reflexivity
    |reflexivity|reflexivity|lia].
Defined.

(** Without the space the same two particles are reported. *)
Example adjacent_particles_touching :
  _compute_token_byte_positions [ni_token; wo_token] ni_wo_text
    (_compute_line_starts ni_wo_text) = Ok [0; 3]
  /\ _check_adjacent_particles ni_wo_text [ni_token; wo_token]
       [ni_wo_sentence] (_compute_line_starts ni_wo_text) [0; 3] [] 1
     = Ok [new_diagnostic (mkRange (mkPosition 0 0) (mkPosition 0 2)) 2
             adj_message].
Proof. split; reflexivity. Qed.

(** C6. Ra-dropping, two-token case.  In any token stream, a token [v]
    whose feature record is 動詞,自立,_,_,一段,未然形,... immediately
    followed by a token [r] whose record is 動詞,接尾,_,_,_,_,れる,... makes
    [_check_ra_dropping] append exactly one diagnostic for the pair, a
    warning whose range runs from the start byte of [v] to the end byte of
    [r]: the rule's diagnostics are those of the special-case loop, then
    those of the pair loop over the tokens before [v], then that one
    diagnostic, then those of the pair loop over the tokens after [r];
    and [r] forms no pair with the token that follows it. *)
Theorem ra_dropping_pair_reported text ls tokens positions ts1 v r ts2
  ps1 pv pr ps2 s2 s3 restv x2 x3 x4 x5 restr d :
  tokens = ts1 ++ v :: r :: ts2 ->
  positions = ps1 ++ pv :: pr :: ps2 ->
  length ps1 = length ts1 ->
  split COMMA (feature v)
  = DOUSHI :: JIRITSU :: s2 :: s3 :: ICHIDAN :: MIZENKEI :: restv ->
  split COMMA (feature r)
  = DOUSHI :: SETSUBI :: x2 :: x3 :: x4 :: x5 :: RERU :: restr ->
  wf_text text = true -> ls <> [] -> wf_text (surface r) = true ->
  exists rng,
    _make_range text ls pv (pr + utf8_len (surface r)) = Ok rng
    /\ _check_ra_dropping text tokens ls positions d
       = (let! d0 := ra_special_loop text ls positions tokens 0 d in
          let! r1 := ra_pair_loop text ls positions ts1 0 None d0 in
          let! r2 := ra_pair_loop text ls positions ts2 (len ts1 + 2) (Some r)
                       (snd r1 ++ [new_diagnostic rng 2 message_ra]) in
          Ok (snd r2))
    /\ (forall u rest i d',
          ra_pair_loop text ls positions (u :: rest) i (Some r) d'
          = ra_pair_loop text ls positions rest (i + 1) (Some u) d').
Proof.
  intros Ht Hp Hlen Hv Hr Hwf Hls Hwr.
  destruct (ra_pair_reported text ls tokens positions ts1 v r ts2 ps1 pv pr
              ps2 s2 s3 restv x2 x3 x4 x5 restr d Ht Hp Hlen Hv Hr Hwf Hls Hwr)
    as (rng & H1 & H2).
  exists rng. split; [done|]. split; [done|].
  intros u rest i d'. apply ra_pair_skip_first.
  by eapply ra_word_not_target.
Qed.

Lemma ra_dropping_pair_reported_witness :
  _compute_token_byte_positions [tabe_token; reru_token] tabereru_text
    (_compute_line_starts tabereru_text) = Ok [0; 6]
  /\ wf_text tabereru_text = true
  /\ wf_text (surface reru_token) = true
  /\ _make_range tabereru_text (_compute_line_starts tabereru_text) 0
       (6 + utf8_len (surface reru_token))
     = Ok (mkRange (mkPosition 0 0) (mkPosition 0 4))
  /\ _check_ra_dropping tabereru_text [tabe_token; reru_token]
       (_compute_line_starts tabereru_text) [0; 6] []
     = Ok [new_diagnostic (mkRange (mkPosition 0 0) (mkPosition 0 4)) 2
             message_ra].
Proof.
  split; [reflexivity|]. split; [reflexivity|]. split; [reflexivity|].
  destruct (ra_dropping_pair_reported tabereru_text
              (_compute_line_starts tabereru_text) [tabe_token; reru_token]
              [0; 6] [] tabe_token reru_token [] [] 0 6 []
              (lit "*") (lit "*") [TABERU]
              (lit "*") (lit "*") ICHIDAN KIHONKEI [] []
              eq_refl eq_refl eq_refl eq_refl eq_refl eq_refl
              ltac:(discriminate) eq_refl)
    as (rng & H1 & H2 & _).
  assert (Hrng : rng = mkRange (mkPosition 0 0) (mkPosition 0 4)).
  { vm_compute in H1. congruence. }
  subst rng. split; [exact H1|]. rewrite H2. reflexivity.
Defined.

(** C8. Truncated feature records.  A feature string with fewer than 7
    comma-separated fields satisfies neither [_is_adversative_ga] nor
    [_is_ra_word] (nor [_is_special_ra_case]); one with fewer than 6
    fields does not satisfy [_is_target_verb]; the three predicates return
    a boolean, without raising, on every feature string; and the rules pass
    over such a token: it is not counted by adversative_ga, and ra_dropping
    reports nothing for it, neither alone, nor as the second token of a
    pair, nor (with fewer than 6 fields) as the first. *)
Theorem truncated_features_do_not_match :
  (forall f, len (split COMMA f) < 7 ->
     _is_adversative_ga f = Ok false /\ _is_ra_word f = Ok false
     /\ _is_special_ra_case f = Ok false)
  /\ (forall f, len (split COMMA f) < 6 -> _is_target_verb f = Ok false)
  /\ (forall f, exists b1 b2 b3,
        _is_adversative_ga f = Ok b1 /\ _is_ra_word f = Ok b2
        /\ _is_target_verb f = Ok b3)
  /\ (forall ps s t rest i c,
        len (split COMMA (feature t)) < 7 ->
        ga_count ps s (t :: rest) i c = ga_count ps s rest (i + 1) c)
  /\ (forall text ls ps t rest i d,
        len (split COMMA (feature t)) < 7 ->
        ra_special_loop text ls ps (t :: rest) i d
        = ra_special_loop text ls ps rest (i + 1) d)
  /\ (forall text ls ps t rest i prev d,
        len (split COMMA (feature t)) < 7 ->
        ra_pair_loop text ls ps (t :: rest) i prev d
        = ra_pair_loop text ls ps rest (i + 1) (Some t) d)
  /\ (forall text ls ps t u rest i d,
        len (split COMMA (feature t)) < 6 ->
        ra_pair_loop text ls ps (u :: rest) i (Some t) d
        = ra_pair_loop text ls ps rest (i + 1) (Some u) d)
  /\ (forall text tokens sentences ls ps d m,
        Forall (fun t => len (split COMMA (feature t)) < 7) tokens ->
        _check_adversative_ga text tokens sentences ls ps d m = Ok d)
  /\ (forall text tokens ls ps d,
        Forall (fun t => len (split COMMA (feature t)) < 6) tokens ->
        _check_ra_dropping text tokens ls ps d = Ok d).
Proof.
  split; [|split; [|split; [|split; [|split; [|split; [|split; [|split]]]]]]].
  - intros f Hf. split; [by apply short_not_adversative_ga|].
    split; [by apply short_not_ra_word|by apply short_not_special].
  - apply short_not_target_verb.
  - intros f.
    destruct (is_adversative_ga_total f) as (b1 & ->).
    destruct (is_ra_word_total f) as (b2 & ->).
    destruct (is_target_verb_total f) as (b3 & ->). by exists b1, b2, b3.
  - intros. by apply ga_count_skip.
  - intros. by apply ra_special_skip.
  - intros. by apply ra_pair_skip_second.
  - intros. apply ra_pair_skip_first. by apply short_not_target_verb.
  - intros text tokens sentences ls ps d m Hall.
    unfold _check_adversative_ga.
    destruct (m <=? 0) eqn:E; [done|]. apply Z.leb_gt in E.
    by apply ga_loop_all_short.
  - intros. by apply ra_all_short.
Qed.

Lemma truncated_features_do_not_match_witness :
  len (split COMMA short_feature) = 2
  /\ _is_adversative_ga short_feature = Ok false
  /\ _is_ra_word short_feature = Ok false
  /\ _is_target_verb short_feature = Ok false
  /\ _check_ra_dropping [] [token RERU short_feature 0 0 2] [0] [] [] = Ok [].
Proof.
  pose proof truncated_features_do_not_match as (H7 & H6 & _ & _ & _ & _ & _ & _ & Hra).
  assert (Hlen : len (split COMMA short_feature) = 2) by reflexivity.
  destruct (H7 short_feature ltac:(rewrite Hlen; lia)) as (Hga & Hrw & _).
  split; [exact Hlen|]. split; [exact Hga|]. split; [exact Hrw|].
  split; [apply H6; rewrite Hlen; lia|].
  apply Hra. constructor; [|constructor]. cbn [feature token]. rewrite Hlen. lia.
Defined.

(** C9. A threshold that is zero or negative disables its rule: each of
    the five threshold-parameterized rules then returns the diagnostics
    list as it received it, whatever the text, the tokens and the
    sentences. *)
Theorem nonpositive_threshold_disables_rule text tokens sentences ls ps d m :
  m <= 0 ->
  _check_comma_limit text sentences ls d m = Ok d
  /\ _check_adversative_ga text tokens sentences ls ps d m = Ok d
  /\ _check_duplicate_particle_surface text tokens sentences ls ps d m = Ok d
  /\ _check_adjacent_particles text tokens sentences ls ps d m = Ok d
  /\ _check_conjunction_repeats text tokens ls ps d m = Ok d.
Proof.
  intros H.
  unfold _check_comma_limit, _check_adversative_ga,
    _check_duplicate_particle_surface, _check_adjacent_particles,
    _check_conjunction_repeats.
  by rewrite (proj2 (Z.leb_le _ _) H).
Qed.

Lemma nonpositive_threshold_disables_rule_witness :
  0 <= 0
  /\ (_check_comma_limit comma_text comma_sentences [0] [] 0 = Ok []
      /\ _check_adversative_ga comma_text [ha_col0; ha_col1] comma_sentences
           [0] [0; 3] [] 0 = Ok []
      /\ _check_duplicate_particle_surface comma_text [ha_col0; ha_col1]
           comma_sentences [0] [0; 3] [] 0 = Ok []
      /\ _check_adjacent_particles comma_text [ha_col0; ha_col1]
           comma_sentences [0] [0; 3] [] 0 = Ok []
      /\ _check_conjunction_repeats comma_text [ha_col0; ha_col1] [0] [0; 3]
           [] 0 = Ok []).
Proof.
  split; [lia|].
  apply (nonpositive_threshold_disables_rule comma_text [ha_col0; ha_col1]
           comma_sentences [0] [0; 3] [] 0).
  lia.
Defined.

(** With the default thresholds the same sentence is reported, with all
    thresholds at zero and ra_dropping off it is not. *)
Example zero_thresholds_through_check_grammar :
  check_grammar
    (mkAnalysisConfig true 2
       (mkRuleToggles true true true true true false 0 0 0 0 0))
    comma_text [] comma_sentences
  = Ok [].
Proof. reflexivity. Qed.

End GrammarClaims.

(* ===================================================================== *)
(** ** Sanitizers and masks: what is kept                                 *)
(* ===================================================================== *)

Section BlankingProofs.
Import AuxMore.

Lemma blanked_refl l : blanked l l.
Proof. split; [done|]. intros i c H. by right. Qed.

Lemma blanked_trans l1 l2 l3 : blanked l1 l2 -> blanked l2 l3 -> blanked l1 l3.
Proof.
  intros [L1 H1] [L2 H2]. split; [congruence|].
  intros i c H. destruct (H2 i c H) as [->|H']; [by left|]. by apply H1.
Qed.

Lemma blanked_insert (l : list Z) i : blanked l (<[i := SPACE]> l).
Proof.
  split; [by rewrite length_insert|].
  intros j c H. destruct (decide (i = j)) as [->|Hne].
  - left. apply lookup_lt_Some in H as Hlt. rewrite length_insert in Hlt.
    rewrite list_lookup_insert_eq in H by done. congruence.
  - right. by rewrite list_lookup_insert_ne in H.
Qed.

Lemma blanked_blank_while p fuel : forall i l,
  blanked l (snd (blank_while p fuel i l)).
Proof.
  induction fuel as [|fuel IH]; intros i l; simpl; [apply blanked_refl|].
  destruct (l !! i) as [c|]; [|apply blanked_refl].
  destruct (p c); [|apply blanked_refl].
  eapply blanked_trans; [apply blanked_insert|apply IH].
Qed.

Lemma blanked_blank_stars_back fuel : forall j l,
  blanked l (blank_stars_back fuel j l).
Proof.
  induction fuel as [|fuel IH]; intros j l; simpl; [apply blanked_refl|].
  destruct (0 <=? j); [|apply blanked_refl].
  destruct (l !! Z.to_nat j) as [c|]; [|apply blanked_refl].
  destruct (c =? STAR); [|apply blanked_refl].
  eapply blanked_trans; [apply blanked_insert|apply IH].
Qed.

Lemma blanked_blank_at (l : list Z) i : blanked l (blank_at l i).
Proof.
  unfold blank_at. destruct (index l i); [apply blanked_insert|apply blanked_refl].
Qed.

Lemma blanked_two_phase p q n i (l : list Z) :
  blanked l (let '(i, r) := blank_while p n i l in
             let '(_, r) := blank_while q n i r in r).
Proof.
  pose proof (blanked_blank_while p n i l) as H1.
  destruct (blank_while p n i l) as [i1 r1]. simpl in H1.
  pose proof (blanked_blank_while q n i1 r1) as H2.
  destruct (blank_while q n i1 r1) as [i2 r2]. simpl in H2.
  by eapply blanked_trans.
Qed.

Lemma blanked_sanitize_comment (text lang : list Z) :
  blanked text (_sanitize_comment text lang).
Proof.
  unfold _sanitize_comment. destruct text as [|c0 text]; [apply blanked_refl|].
  remember (c0 :: text) as l eqn:Hl. clear Hl.
  destruct (str_eqb lang (lit "python")); [apply blanked_two_phase|].
  destruct (existsb (str_eqb lang) c_family); [|apply blanked_refl].
  destruct ((2 <=? len l) && at_is l 0 SLASH && at_is l 1 SLASH);
    [apply blanked_two_phase|].
  destruct ((2 <=? len l) && at_is l 0 SLASH && at_is l 1 STAR);
    [|apply blanked_refl].
  pose proof (blanked_trans _ _ _ (blanked_blank_at l 0)
                (blanked_blank_at (blank_at l 0) 1)) as H0.
  pose proof (blanked_two_phase (Z.eqb STAR) is_blank (length l) 2
                (blank_at (blank_at l 0) 1)) as H1.
  destruct (blank_while (Z.eqb STAR) (length l) 2 (blank_at (blank_at l 0) 1))
    as [i1 r1].
  destruct (blank_while is_blank (length l) i1 r1) as [i2 r2].
  pose proof (blanked_trans _ _ _ H0 H1) as H2.
  destruct ((2 <=? len r2) && at_is r2 (-1) SLASH && at_is r2 (-2) STAR);
    [|done].
  eapply blanked_trans; [exact H2|].
  eapply blanked_trans; [apply blanked_blank_at|].
  eapply blanked_trans; [apply blanked_blank_at|].
  apply blanked_blank_stars_back.
Qed.

Lemma blanked_sanitize_latex (text : list Z) :
  blanked text (_sanitize_latex_comment text).
Proof.
  unfold _sanitize_latex_comment.
  destruct text as [|c0 text]; [apply blanked_refl|].
  remember (c0 :: text) as l eqn:Hl. clear Hl.
  eapply blanked_trans; [apply (blanked_blank_at l 0)|].
  apply blanked_two_phase.
Qed.

(** X1. Both sanitizers keep the length of the comment text and change
    nothing but markers into spaces: at every position the result holds
    either the character of the input or a space. *)
Theorem sanitizers_only_blank (text language_id : list Z) :
  (length (_sanitize_comment text language_id) = length text
   /\ forall i c, _sanitize_comment text language_id !! i = Some c ->
                  c = SPACE \/ text !! i = Some c)
  /\ (length (_sanitize_latex_comment text) = length text
      /\ forall i c, _sanitize_latex_comment text !! i = Some c ->
                     c = SPACE \/ text !! i = Some c).
Proof.
  split; [apply blanked_sanitize_comment|apply blanked_sanitize_latex].
Qed.

End BlankingProofs.

Section ContentMaskProofs.
Import AuxMore Samples SamplesMore.

Lemma restore_range_lookup text : forall fuel j stop masked,
  0 <= j -> stop <= len masked -> length masked = length text ->
  stop - j <= Z.of_nat fuel ->
  exists out, restore_range fuel j stop text masked = Ok out
    /\ length out = length masked
    /\ forall i : nat,
         out !! i = if (j <=? Z.of_nat i) && (Z.of_nat i <? stop)
                    then text !! i else masked !! i.
Proof.
  induction fuel as [|f IH]; intros j stop masked Hj Hs Hl Hf; simpl.
  - exists masked. split; [done|]. split; [done|]. intros i.
    destruct ((j <=? Z.of_nat i) && (Z.of_nat i <? stop)) eqn:E; [|done].
    apply andb_true_iff in E as [? ?]. lia.
  - destruct (j <? stop) eqn:E.
    + apply Z.ltb_lt in E.
      destruct (getitem_in_range text j) as (c & -> & Hc);
        [unfold len in *; lia|].
      ok_step. rewrite setitem_in_range by lia. ok_step.
      destruct (IH (j + 1) stop (<[Z.to_nat j := c]> masked))
        as (out & -> & Ho & Hi).
      * lia.
      * unfold len in *. rewrite length_insert. lia.
      * by rewrite length_insert.
      * lia.
      * exists out. split; [done|]. split; [by rewrite Ho, length_insert|].
        intros i. rewrite Hi.
        destruct (decide (i = Z.to_nat j)) as [->|Hne].
        -- rewrite list_lookup_insert_eq by (unfold len in *; lia).
           rewrite Hc.
           rewrite (proj2 (Z.leb_le j _)) by lia. ltb_true. simpl.
           by destruct (_ && _).
        -- rewrite list_lookup_insert_ne by done.
           replace (j + 1 <=? Z.of_nat i) with (j <=? Z.of_nat i); [done|].
           destruct (Z.leb_spec j (Z.of_nat i)), (Z.leb_spec (j + 1) (Z.of_nat i));
             try done; lia.
    + exists masked. split; [done|]. split; [done|]. intros i.
      destruct ((j <=? Z.of_nat i) && (Z.of_nat i <? stop)) eqn:E'; [|done].
      apply andb_true_iff in E' as [? ?]. lia.
Qed.

Lemma restore_ranges_lookup bs text : forall ranges masked,
  length masked = length text ->
  exists out, restore_ranges bs ranges text masked = Ok out
    /\ length out = length text
    /\ forall i : nat,
         (Exists (fun r => range_chars bs (length text) r i) ranges ->
          out !! i = text !! i)
         /\ (~ Exists (fun r => range_chars bs (length text) r i) ranges ->
             out !! i = masked !! i).
Proof.
  induction ranges as [|r ranges IH]; intros masked Hl; simpl.
  - exists masked. split; [done|]. split; [done|]. intros i. split; [|done].
    intros H. by apply Exists_nil in H.
  - set (sc := len (decode_replace (slice_to bs (start_byte r)))).
    set (ec := len (decode_replace (slice_to bs (end_byte r)))).
    destruct (restore_range_lookup text
                (Z.to_nat (Z.min ec (len masked) - sc)) sc
                (Z.min ec (len masked)) masked)
      as (m' & -> & Lm' & Hm'); [apply len_nonneg|lia|done|lia|].
    ok_step. destruct (IH m') as (out & -> & Lo & Ho); [congruence|].
    exists out. split; [done|]. split; [done|]. intros i.
    destruct (Ho i) as [Hin Hout].
    assert (Hr : range_chars bs (length text) r i
                 <-> (sc <=? Z.of_nat i)
                     && (Z.of_nat i <? Z.min ec (len masked)) = true).
    { unfold range_chars, sc, ec, len. rewrite Hl. lia. }
    assert (Hdec : forall r', Decision (range_chars bs (length text) r' i)).
    { intros r'. unfold range_chars. apply _. }
    split.
    + intros Hex. destruct (decide (Exists (fun r' =>
                     range_chars bs (length text) r' i) ranges)) as [H|H].
      * by apply Hin.
      * rewrite (Hout H), Hm'. apply Exists_cons in Hex as [Hex|Hex]; [|done].
        apply Hr in Hex. by rewrite Hex.
    + intros Hnex. rewrite Hout, Hm'.
      * destruct ((sc <=? Z.of_nat i) && (Z.of_nat i <? Z.min ec (len masked)))
          eqn:E; [|done].
        exfalso. apply Hnex, Exists_cons. left. by apply Hr.
      * intros H. apply Hnex, Exists_cons. by right.
Qed.

(** X2. [mask_text_except_content], on a text that encodes, returns a
    text of the same length in which a position holds the character of the
    input when some content range covers it (its byte bounds converted to
    character positions by decoding the byte prefix, the end clipped to the
    text), and otherwise the blanked character: a space, or the line break
    that was there. *)
Theorem mask_content_pointwise (language_id text : list Z)
  (content_ranges : list ByteRange) (text_bytes : list Z) :
  encode text = Ok text_bytes ->
  exists out,
    mask_text_except_content language_id text content_ranges = Ok out
    /\ length out = length text
    /\ forall i : nat,
         (Exists (fun r => range_chars text_bytes (length text) r i)
                 content_ranges -> out !! i = text !! i)
         /\ (~ Exists (fun r => range_chars text_bytes (length text) r i)
                      content_ranges -> out !! i = mask_join text !! i).
Proof.
  intros Hbs. destruct content_ranges as [|r ranges].
  - exists (mask_join text). split; [done|].
    split; [apply mask_join_length|]. intros i. split; [|done].
    intros H. by apply Exists_nil in H.
  - unfold mask_text_except_content. rewrite Hbs. ok_step.
    rewrite mask_all_join.
    apply restore_ranges_lookup, mask_join_length.
Qed.

Lemma mask_content_pointwise_witness :
  encode emoji_text = Ok emoji_bytes
  /\ exists out,
       mask_text_except_content (lit "html") emoji_text
         [mkByteRange 3 7] = Ok out
       /\ length out = length emoji_text
       /\ forall i : nat,
            (Exists (fun r => range_chars emoji_bytes (length emoji_text) r i)
                    [mkByteRange 3 7] -> out !! i = emoji_text !! i)
            /\ (~ Exists (fun r => range_chars emoji_bytes
                                     (length emoji_text) r i)
                         [mkByteRange 3 7] ->
                out !! i = mask_join emoji_text !! i).
Proof.
  split; [reflexivity|].
  apply (mask_content_pointwise (lit "html") emoji_text [mkByteRange 3 7]).
  reflexivity.
Defined.

Lemma mask_join_blanked text : blanked text (mask_join text).
Proof.
  split; [apply mask_join_length|]. intros i c. unfold mask_join.
  rewrite list_lookup_fmap. destruct (text !! i) as [x|]; [|done]. simpl.
  destruct (not_newline x); intros [= <-]; auto.
Qed.

Lemma mask_join_keeps_newline text i c :
  text !! i = Some c -> not_newline c = false -> mask_join text !! i = Some c.
Proof.
  intros H Hn. unfold mask_join. rewrite list_lookup_fmap, H. simpl.
  by rewrite Hn.
Qed.

(** X3. Whatever the content ranges, [mask_text_except_content] never
    raises IndexError, and when the text encodes its result differs from
    the text only where a character other than a line break was replaced by
    a space: every [\n] and [\r] stays where it was. *)
Theorem mask_content_keeps_line_breaks (language_id text : list Z)
  (content_ranges : list ByteRange) :
  mask_text_except_content language_id text content_ranges
  <> Raise IndexError
  /\ (wf_text text = true ->
      exists out,
        mask_text_except_content language_id text content_ranges = Ok out
        /\ length out = length text
        /\ (forall i c, out !! i = Some c -> c = SPACE \/ text !! i = Some c)
        /\ (forall i c, text !! i = Some c -> not_newline c = false ->
                        out !! i = Some c)).
Proof.
  split.
  - destruct content_ranges as [|r ranges]; [done|].
    unfold mask_text_except_content.
    destruct (encode text) as [bs|e] eqn:E.
    + ok_step. rewrite mask_all_join.
      destruct (restore_ranges_ok bs text (r :: ranges) (mask_join text))
        as (out & -> & _); [apply mask_join_length|done].
    + simpl. intros [= ->]. by apply encode_raises in E as [? _].
  - intros Hwf. destruct (encode_wf text Hwf) as (bs & Hbs & _).
    assert (exists out,
      mask_text_except_content language_id text content_ranges = Ok out
      /\ length out = length text
      /\ forall i : nat,
           (Exists (fun r => range_chars bs (length text) r i)
                   content_ranges -> out !! i = text !! i)
           /\ (~ Exists (fun r => range_chars bs (length text) r i)
                        content_ranges -> out !! i = mask_join text !! i))
      as (out & Ho & Lo & Hi).
    { destruct content_ranges as [|r ranges].
      - exists (mask_join text). split; [done|].
        split; [apply mask_join_length|]. intros i. split; [|done].
        intros H. by apply Exists_nil in H.
      - unfold mask_text_except_content. rewrite Hbs. ok_step.
        rewrite mask_all_join.
        apply restore_ranges_lookup, mask_join_length. }
    exists out. split; [done|]. split; [done|].
    assert (Hdec : forall i r', Decision (range_chars bs (length text) r' i)).
    { intros i r'. unfold range_chars. apply _. }
    split.
    + intros i c Hc. destruct (Hi i) as [Hin Hout].
      destruct (decide (Exists (fun r' =>
                  range_chars bs (length text) r' i) content_ranges)) as [H|H].
      * right. by rewrite <- (Hin H).
      * rewrite (Hout H) in Hc. by apply (mask_join_blanked text).
    + intros i c Hc Hn. destruct (Hi i) as [Hin Hout].
      destruct (decide (Exists (fun r' =>
                  range_chars bs (length text) r' i) content_ranges)) as [H|H].
      * by rewrite (Hin H).
      * rewrite (Hout H). by apply mask_join_keeps_newline.
Qed.

Lemma mask_content_keeps_line_breaks_witness :
  wf_text emoji_text = true
  /\ exists out,
       mask_text_except_content (lit "html") emoji_text [mkByteRange 3 7]
       = Ok out
       /\ length out = length emoji_text
       /\ (forall i c, out !! i = Some c ->
                       c = SPACE \/ emoji_text !! i = Some c)
       /\ (forall i c, emoji_text !! i = Some c -> not_newline c = false ->
                       out !! i = Some c).
Proof.
  split; [reflexivity|].
  apply (proj2 (mask_content_keeps_line_breaks (lit "html") emoji_text
                  [mkByteRange 3 7])).
  reflexivity.
Defined.

End ContentMaskProofs.

(* ===================================================================== *)
(** ** Lines, line starts and columns                                     *)
(* ===================================================================== *)

Section LineProofs.
Import AuxMore.

Lemma join_lines_cons l rest :
  rest <> [] -> join_lines (l :: rest) = l ++ NL :: join_lines rest.
Proof. by destruct rest. Qed.

Lemma split_join text : join_lines (split NL text) = text.
Proof.
  induction text as [|c t IH]; [done|].
  destruct (decide (c = NL)) as [Hc|Hc].
  - rewrite (split_cons_sep NL c t Hc).
    rewrite join_lines_cons by apply split_nonempty.
    by rewrite IH, Hc.
  - destruct (split NL t) as [|h tl] eqn:Et; [by apply split_nonempty in Et|].
    rewrite (split_cons_other NL c t h tl Hc Et).
    destruct tl as [|h' tl]; simpl in *; by rewrite IH.
Qed.

Lemma split_no_newline text : Forall (fun l => NL ∉ l) (split NL text).
Proof.
  induction text as [|c t IH].
  - constructor; [|done]. by intros H%elem_of_nil.
  - destruct (decide (c = NL)) as [Hc|Hc].
    + rewrite (split_cons_sep NL c t Hc). constructor; [|done].
      by intros H%elem_of_nil.
    + destruct (split NL t) as [|h tl] eqn:Et;
        [by apply split_nonempty in Et|].
      rewrite (split_cons_other NL c t h tl Hc Et).
      apply Forall_cons in IH as [Hh Htl]. constructor; [|done].
      intros [H|H]%elem_of_cons; [congruence|done].
Qed.

Lemma line_offset_all lines :
  lines <> [] ->
  line_offset (length lines) lines = S (length (join_lines lines)).
Proof.
  induction lines as [|l rest IH]; [done|]. intros _.
  destruct rest as [|l' rest].
  - simpl. lia.
  - rewrite join_lines_cons by done.
    change (line_offset (length (l :: l' :: rest)) (l :: l' :: rest))
      with (length l + 1 + line_offset (length (l' :: rest)) (l' :: rest))%nat.
    rewrite IH by done. rewrite length_app. cbn [length]. lia.
Qed.

Lemma line_offset_past lines : forall n,
  (length lines <= n)%nat ->
  line_offset n lines = line_offset (length lines) lines.
Proof.
  induction lines as [|l rest IH]; intros n Hn.
  - by destruct n.
  - destruct n as [|n]; [simpl in Hn; lia|]. cbn [length line_offset].
    rewrite (IH n) by (simpl in Hn; lia). done.
Qed.

Lemma line_offset_S lines : forall n l,
  lines !! n = Some l ->
  line_offset (S n) lines = (line_offset n lines + length l + 1)%nat.
Proof.
  induction lines as [|l0 rest IH]; intros n l Hn; [done|].
  destruct n as [|n].
  - injection Hn as ->. simpl. lia.
  - cbn [lookup list_lookup] in Hn.
    change (line_offset (S (S n)) (l0 :: rest))
      with (length l0 + 1 + line_offset (S n) rest)%nat.
    rewrite (IH n l Hn). cbn [line_offset]. lia.
Qed.

Lemma line_offset_mono lines : forall n m,
  (n <= m)%nat -> (line_offset n lines <= line_offset m lines)%nat.
Proof.
  induction lines as [|l0 rest IH]; intros n m Hnm.
  - destruct n, m; simpl; lia.
  - destruct n as [|n]; [simpl; lia|].
    destruct m as [|m]; [lia|]. cbn [line_offset].
    pose proof (IH n m ltac:(lia)). lia.
Qed.

Lemma line_offset_le_length lines n l :
  lines !! n = Some l ->
  (line_offset n lines + length l <= length (join_lines lines))%nat.
Proof.
  intros Hn.
  assert (lines <> []) as Hne by (intros ->; done).
  pose proof (line_offset_all lines Hne) as Hall.
  pose proof (line_offset_S lines n l Hn) as HS.
  pose proof (line_offset_mono lines (S n) (length lines)
                ltac:(apply lookup_lt_Some in Hn; lia)).
  lia.
Qed.

(** What follows the start of line [n]: the line, then either nothing or a
    newline. *)
Lemma drop_line_offset lines : forall n l,
  lines !! n = Some l ->
  exists rest,
    drop (line_offset n lines) (join_lines lines) = l ++ rest
    /\ (rest = [] \/ exists r, rest = NL :: r).
Proof.
  induction lines as [|l0 rest IH]; intros n l Hn; [done|].
  destruct n as [|n].
  - injection Hn as ->. cbn [line_offset drop].
    destruct rest as [|l1 rest].
    + exists []. split; [by rewrite app_nil_r|by left].
    + rewrite join_lines_cons by done. eexists. split; [done|]. right. eauto.
  - cbn [lookup list_lookup] in Hn.
    assert (rest <> []) as Hne by (intros ->; done).
    rewrite join_lines_cons by done. cbn [line_offset].
    destruct (IH n l Hn) as (r & Hr & Hcase).
    exists r. split; [|done].
    replace (length l0 + 1 + line_offset n rest)%nat
      with (length (l0 ++ [NL]) + line_offset n rest)%nat
      by (rewrite length_app; simpl; lia).
    replace (l0 ++ NL :: join_lines rest)
      with ((l0 ++ [NL]) ++ join_lines rest) by (by rewrite <- app_assoc).
    by rewrite drop_app_add.
Qed.

Lemma find_no_newline l :
  NL ∉ l -> find NL l = -1.
Proof.
  induction l as [|c l IH]; [done|]. intros Hn. cbn [find].
  apply not_elem_of_cons in Hn as [Hc Hl].
  rewrite (proj2 (Z.eqb_neq c NL)) by congruence.
  by rewrite (IH Hl).
Qed.

Lemma find_first_newline l r :
  NL ∉ l -> find NL (l ++ NL :: r) = len l.
Proof.
  induction l as [|c l IH]; intros Hn.
  - by cbn [app find].
  - apply not_elem_of_cons in Hn as [Hc Hl]. cbn [app find].
    rewrite (proj2 (Z.eqb_neq c NL)) by congruence.
    rewrite (IH Hl). pose proof (len_nonneg l).
    ltb_false. unfold len. cbn [length]. lia.
Qed.

Lemma line_starts_from_spec : forall text i,
  GrammarChecker.line_starts_from i text
  = map (fun n => i + Z.of_nat (line_offset n (split NL text)))
        (seq 1 (length (split NL text) - 1)).
Proof.
  induction text as [|c t IH]; intros i; [done|].
  cbn [GrammarChecker.line_starts_from]. rewrite IH.
  destruct (split NL t) as [|h tl] eqn:Et; [by apply split_nonempty in Et|].
  replace (length (h :: tl) - 1)%nat with (length tl) by (simpl; lia).
  destruct (decide (c = NL)) as [Hc|Hc].
  - rewrite (split_cons_sep NL c t Hc), (proj2 (Z.eqb_eq c NL) Hc), Et.
    replace (length ([] :: h :: tl) - 1)%nat with (S (length tl))
      by (simpl; lia).
    cbn [seq map app].
    replace (i + Z.of_nat (line_offset 1 ([] :: h :: tl))) with (i + 1)
      by (simpl; lia).
    apply (f_equal (cons (i + 1))).
    rewrite <- (seq_shift (length tl) 1), map_map. apply map_ext. intros n.
    change (line_offset (S n) ([] :: h :: tl))
      with (0 + 1 + line_offset n (h :: tl))%nat. lia.
  - rewrite (proj2 (Z.eqb_neq c NL) Hc). cbn [app].
    rewrite (split_cons_other NL c t h tl Hc Et).
    replace (length ((c :: h) :: tl) - 1)%nat with (length tl)
      by (simpl; lia).
    apply map_ext_in. intros n Hin. apply in_seq in Hin.
    destruct n as [|n]; [lia|]. cbn [line_offset length]. lia.
Qed.

Lemma compute_line_starts_spec text :
  GrammarChecker._compute_line_starts text
  = map (fun n => Z.of_nat (line_offset n (split NL text)))
        (seq 0 (length (split NL text))).
Proof.
  unfold GrammarChecker._compute_line_starts. rewrite line_starts_from_spec.
  destruct (split NL text) as [|h tl] eqn:Et; [by apply split_nonempty in Et|].
  replace (length (h :: tl) - 1)%nat with (length tl) by (simpl; lia).
  cbn [length seq map]. done.
Qed.

Lemma compute_line_starts_length text :
  length (GrammarChecker._compute_line_starts text) = length (split NL text).
Proof. by rewrite compute_line_starts_spec, length_map, length_seq. Qed.

Lemma compute_line_starts_lookup text n :
  (n < length (split NL text))%nat ->
  GrammarChecker._compute_line_starts text !! n
  = Some (Z.of_nat (line_offset n (split NL text))).
Proof.
  intros Hn. rewrite compute_line_starts_spec, list_lookup_fmap.
  by rewrite lookup_seq_lt.
Qed.

Lemma compute_line_starts_getitem text n :
  (n < length (split NL text))%nat ->
  getitem (GrammarChecker._compute_line_starts text) (Z.of_nat n)
  = Ok (Z.of_nat (line_offset n (split NL text))).
Proof.
  intros Hn.
  destruct (getitem_in_range (GrammarChecker._compute_line_starts text)
              (Z.of_nat n)) as (x & -> & Hx).
  - unfold len. rewrite compute_line_starts_length. lia.
  - rewrite Nat2Z.id, compute_line_starts_lookup in Hx by done. congruence.
Qed.

(** The loop that finds the line of a character offset, on a list of
    starts of which the first [n + 1] are at most the offset and the next,
    if any, is beyond it. *)
Lemma find_line_spec c : forall ls n i line0,
  (n < length ls)%nat ->
  (forall m s, (m <= n)%nat -> ls !! m = Some s -> s <= c) ->
  (forall s, ls !! S n = Some s -> c < s) ->
  GrammarChecker.find_line c i ls line0 = i + Z.of_nat n.
Proof.
  induction ls as [|s0 rest IH]; intros n i line0 Hn Hle Hgt;
    [simpl in Hn; lia|].
  cbn [GrammarChecker.find_line].
  pose proof (Hle O s0 ltac:(lia) eq_refl). ltb_false.
  destruct n as [|n].
  - destruct rest as [|s1 rest]; cbn [GrammarChecker.find_line]; [lia|].
    pose proof (Hgt s1 eq_refl). ltb_true. lia.
  - rewrite (IH n (i + 1) i).
    + lia.
    + simpl in Hn. lia.
    + intros m s Hm Hs. apply (Hle (S m) s); [lia|done].
    + intros s Hs. by apply Hgt.
Qed.

Lemma find_line_computed text n l k :
  split NL text !! n = Some l -> (k <= length l)%nat ->
  GrammarChecker.find_line
    (Z.of_nat (line_offset n (split NL text) + k)) 0
    (GrammarChecker._compute_line_starts text) 0
  = Z.of_nat n.
Proof.
  intros Hn Hk. rewrite (find_line_spec _ _ n).
  - lia.
  - rewrite compute_line_starts_length. by apply lookup_lt_Some in Hn.
  - intros m s Hm Hs.
    rewrite compute_line_starts_lookup in Hs
      by (apply lookup_lt_Some in Hn; lia).
    injection Hs as <-.
    pose proof (line_offset_mono (split NL text) m n Hm). lia.
  - intros s Hs.
    assert (S n < length (split NL text))%nat as Hlt.
    { apply lookup_lt_Some in Hs.
      by rewrite compute_line_starts_length in Hs. }
    rewrite compute_line_starts_lookup in Hs by done.
    assert (s = Z.of_nat (line_offset (S n) (split NL text))) as ->
      by congruence.
    rewrite (line_offset_S _ n l Hn). lia.
Qed.

End LineProofs.

Section ColumnProofs.
Import AuxMore Samples SamplesMore.

Lemma clip_nat {A} (l : list A) (n : nat) :
  clip l (Z.of_nat n) = (n `min` length l)%nat.
Proof.
  unfold clip, len.
  destruct (Z.of_nat n <? 0) eqn:E; [apply Z.ltb_lt in E; lia|]. lia.
Qed.

Lemma slice_nat {A} (l : list A) (a b : nat) :
  (a <= b)%nat -> (b <= length l)%nat ->
  slice l (Z.of_nat a) (Z.of_nat b) = take (b - a) (drop a l).
Proof.
  intros Hab Hb. unfold slice. rewrite !clip_nat.
  by rewrite !Nat.min_l by lia.
Qed.

Lemma slice_from_nat {A} (l : list A) (a : nat) :
  slice_from l (Z.of_nat a) = drop a l.
Proof.
  unfold slice_from. rewrite clip_nat.
  destruct (decide (a <= length l)%nat).
  - by rewrite Nat.min_l by lia.
  - rewrite Nat.min_r by lia. by rewrite !drop_ge by lia.
Qed.

Lemma utf16_length_bridge s :
  GrammarChecker._utf8_to_utf16_length s = Server.utf16_length s 0.
Proof.
  induction s as [|c s IH]; [done|].
  cbn [GrammarChecker._utf8_to_utf16_length Server.utf16_length].
  rewrite utf16_length_acc, IH. lia.
Qed.

Lemma utf16_walk_bridge : forall l u co uc,
  GrammarChecker.utf16_walk u l co uc = Server.walk_line u l uc co.
Proof.
  induction l as [|c l IH]; intros u co uc; [done|].
  cbn [GrammarChecker.utf16_walk Server.walk_line]. by rewrite IH.
Qed.

Lemma utf16_length_app s1 s2 :
  GrammarChecker._utf8_to_utf16_length (s1 ++ s2)
  = GrammarChecker._utf8_to_utf16_length s1
    + GrammarChecker._utf8_to_utf16_length s2.
Proof.
  induction s1 as [|c s1 IH]; [done|].
  cbn [app GrammarChecker._utf8_to_utf16_length]. lia.
Qed.

Lemma utf16_len_nonneg s : 0 <= GrammarChecker._utf8_to_utf16_length s.
Proof.
  induction s as [|c s IH]; [done|].
  cbn [GrammarChecker._utf8_to_utf16_length].
  pose proof (utf16_units_pos c). lia.
Qed.

(** The loop of [_utf16_to_char_offset] stops at the least number of
    characters whose UTF-16 length reaches the target, or at the end. *)
Lemma utf16_walk_spec : forall l u co uc,
  exists j : nat,
    GrammarChecker.utf16_walk u l co uc = co + Z.of_nat j
    /\ (j <= length l)%nat
    /\ ((j < length l)%nat ->
        u <= uc + GrammarChecker._utf8_to_utf16_length (take j l))
    /\ (forall j' : nat, (j' < j)%nat ->
        uc + GrammarChecker._utf8_to_utf16_length (take j' l) < u).
Proof.
  induction l as [|c l IH]; intros u co uc.
  - exists O. cbn. split; [lia|]. split; [lia|]. split; intros; lia.
  - cbn [GrammarChecker.utf16_walk].
    destruct (u <=? uc) eqn:E.
    + apply Z.leb_le in E. exists O. cbn. split; [lia|].
      split; [lia|]. split; intros; lia.
    + apply Z.leb_gt in E.
      destruct (IH u (co + 1) (uc + utf16_units c)) as (j & Hj & Hle & Hge & Hlt).
      exists (S j). split; [lia|]. split; [simpl; lia|]. split.
      * intros H. cbn [take GrammarChecker._utf8_to_utf16_length].
        specialize (Hge ltac:(simpl in H; lia)). lia.
      * intros [|j'] H; [cbn; lia|].
        cbn [take GrammarChecker._utf8_to_utf16_length].
        specialize (Hlt j' ltac:(lia)). lia.
Qed.

(** X4. [_compute_line_starts] (the same function in analyzer.py and
    grammar_checker.py) has one entry per line of [text.split("\n")]; the
    entry of a line is the character offset at which that line starts, so
    that slicing the text from it for the length of the line gives the
    line back, and the next entry, if there is one, lies just past the
    line's newline: the entries increase strictly. *)
Theorem line_starts_index_lines (text : list Z) :
  length (GrammarChecker._compute_line_starts text)
  = length (split NL text)
  /\ forall (n : nat) (l : list Z),
       split NL text !! n = Some l ->
       exists start,
         GrammarChecker._compute_line_starts text !! n = Some start
         /\ 0 <= start /\ start + len l <= len text
         /\ slice text start (start + len l) = l
         /\ (forall next,
               GrammarChecker._compute_line_starts text !! S n = Some next ->
               next = start + len l + 1).
Proof.
  split; [apply compute_line_starts_length|].
  intros n l Hn. pose proof (lookup_lt_Some _ _ _ Hn) as Hlt.
  exists (Z.of_nat (line_offset n (split NL text))).
  split; [by apply compute_line_starts_lookup|].
  pose proof (line_offset_le_length _ _ _ Hn) as Hle.
  rewrite split_join in Hle.
  split; [lia|]. split; [unfold len; lia|]. split.
  - unfold len. rewrite <- Nat2Z.inj_add, slice_nat by lia.
    destruct (drop_line_offset _ _ _ Hn) as (rest & Hr & _).
    rewrite split_join in Hr. rewrite Hr.
    replace (line_offset n (split NL text) + length l
             - line_offset n (split NL text))%nat with (length l) by lia.
    by rewrite take_app_length.
  - intros next Hnext.
    assert (S n < length (split NL text))%nat as HS.
    { apply lookup_lt_Some in Hnext.
      by rewrite compute_line_starts_length in Hnext. }
    rewrite compute_line_starts_lookup in Hnext by done.
    assert (next = Z.of_nat (line_offset (S n) (split NL text))) as ->
      by congruence.
    rewrite (line_offset_S _ n l Hn). unfold len. lia.
Qed.

(** X5. [_utf16_to_char_offset] returns a character count between 0 and
    the length of the text: the least number of leading characters whose
    UTF-16 length reaches the given offset, or the whole text if none
    does.  In particular it inverts [_utf8_to_utf16_length] on every
    prefix, and an offset that falls inside a surrogate pair is rounded up
    past the character. *)
Theorem utf16_to_char_offset_least (text : list Z) (utf16_offset : Z) :
  exists r : nat,
    GrammarChecker._utf16_to_char_offset text utf16_offset = Z.of_nat r
    /\ (r <= length text)%nat
    /\ ((r < length text)%nat ->
        utf16_offset <= GrammarChecker._utf8_to_utf16_length (take r text))
    /\ (forall r' : nat, (r' < r)%nat ->
        GrammarChecker._utf8_to_utf16_length (take r' text) < utf16_offset)
    /\ (forall k : nat, (k <= length text)%nat ->
        GrammarChecker._utf16_to_char_offset text
          (GrammarChecker._utf8_to_utf16_length (take k text))
        = Z.of_nat k).
Proof.
  unfold GrammarChecker._utf16_to_char_offset.
  destruct (utf16_walk_spec text utf16_offset 0 0) as (j & Hj & Hle & Hge & Hlt).
  exists j. split; [lia|]. split; [done|]. split; [|split].
  - intros H. specialize (Hge H). lia.
  - intros r' H. specialize (Hlt r' H). lia.
  - intros k Hk. rewrite utf16_walk_bridge, utf16_length_bridge.
    pose proof (walk_line_spec text k 0 0 Hk) as Hw.
    rewrite Z.add_0_l in Hw. rewrite Hw. lia.
Qed.

Lemma line_slice text n l k :
  split NL text !! n = Some l -> (k <= length l)%nat ->
  slice text (Z.of_nat (line_offset n (split NL text)))
    (Z.of_nat (line_offset n (split NL text) + k))
  = take k l.
Proof.
  intros Hn Hk. pose proof (line_offset_le_length _ _ _ Hn) as Hle.
  rewrite split_join in Hle. rewrite slice_nat by lia.
  destruct (drop_line_offset _ _ _ Hn) as (rest & Hr & _).
  rewrite split_join in Hr. rewrite Hr.
  replace (line_offset n (split NL text) + k
           - line_offset n (split NL text))%nat with k by lia.
  by rewrite take_app_le.
Qed.

Lemma char_offset_to_position_spec text n l k :
  split NL text !! n = Some l -> (k <= length l)%nat ->
  AnalyzerFns._char_offset_to_position text
    (AnalyzerFns._compute_line_starts text)
    (Z.of_nat (line_offset n (split NL text) + k))
  = Ok (Analyzer.mkPosition (Z.of_nat n)
          (GrammarChecker._utf8_to_utf16_length (take k l))).
Proof.
  intros Hn Hk. unfold AnalyzerFns._char_offset_to_position. cbv zeta.
  unfold AnalyzerFns._compute_line_starts.
  rewrite (find_line_computed text n l k Hn Hk).
  rewrite compute_line_starts_getitem by (by apply lookup_lt_Some in Hn).
  ok_step. by rewrite (line_slice text n l k Hn Hk).
Qed.

Lemma gc_byte_offset_to_position_boundary text n l k :
  wf_text text = true ->
  split NL text !! n = Some l -> (k <= length l)%nat ->
  GrammarChecker._byte_offset_to_position text
    (GrammarChecker._compute_line_starts text)
    (utf8_len (take (line_offset n (split NL text) + k) text))
  = Ok (Analyzer.mkPosition (Z.of_nat n)
          (GrammarChecker._utf8_to_utf16_length (take k l))).
Proof.
  intros Hwf Hn Hk. unfold GrammarChecker._byte_offset_to_position.
  destruct (encode_wf text Hwf) as (bs & Hbs & Hlen).
  rewrite Hbs. ok_step. cbv zeta.
  set (off := (line_offset n (split NL text) + k)%nat).
  pose proof (utf8_len_take_le off text) as Hle.
  replace (if len bs <=? utf8_len (take off text) then len bs
           else utf8_len (take off text))
    with (utf8_len (take off text))
    by (destruct (_ <=? _) eqn:E; [apply Z.leb_le in E; lia|done]).
  rewrite (decode_prefix text off bs Hwf Hbs).
  pose proof (line_offset_le_length _ _ _ Hn) as Hlen'.
  rewrite split_join in Hlen'.
  replace (len (take off text)) with (Z.of_nat off)
    by (unfold len; rewrite length_take; lia).
  unfold off. rewrite (find_line_computed text n l k Hn Hk).
  rewrite compute_line_starts_getitem by (by apply lookup_lt_Some in Hn).
  ok_step. by rewrite (line_slice text n l k Hn Hk).
Qed.

Lemma skip_lines_past : forall fuel i lines off,
  len lines <= i -> Server.skip_lines fuel i lines off = Ok off.
Proof.
  induction fuel as [|f IH]; intros i lines off Hi; [done|].
  cbn [Server.skip_lines]. ltb_false. apply IH. lia.
Qed.

Lemma skip_lines_any : forall fuel pre rest off,
  Server.skip_lines fuel (len pre) (pre ++ rest) off
  = Ok (off + Z.of_nat (line_offset fuel rest)).
Proof.
  induction fuel as [|f IH]; intros pre rest off.
  - cbn [Server.skip_lines line_offset]. f_equal. lia.
  - destruct rest as [|l rest].
    + rewrite app_nil_r, skip_lines_past by lia. cbn [line_offset].
      f_equal. lia.
    + cbn [Server.skip_lines line_offset].
      destruct (len pre <? len (pre ++ l :: rest)) eqn:E.
      2:{ apply Z.ltb_ge in E. unfold len in E. rewrite length_app in E.
          simpl in E. lia. }
      rewrite getitem_middle, bind_ok.
      replace (pre ++ l :: rest) with ((pre ++ [l]) ++ rest)
        by (by rewrite <- app_assoc).
      rewrite <- (len_snoc pre l), IH. f_equal. unfold len. lia.
Qed.

Lemma server_position_to_offset_line text n l c :
  split NL text !! n = Some l ->
  Server._position_to_offset text (Server.mkPosition (Z.of_nat n) c)
  = Ok (Z.of_nat (line_offset n (split NL text))
        + Server.walk_line c l 0 0).
Proof.
  intros Hn. unfold Server._position_to_offset. cbv zeta.
  cbn [Server.line Server.character]. rewrite Nat2Z.id.
  pose proof (lookup_lt_Some _ _ _ Hn) as Hlt.
  pose proof (skip_lines_any n [] (split NL text) 0) as Hs.
  cbn [app] in Hs. change (len []) with 0 in Hs. rewrite Hs, bind_ok.
  destruct (Z.of_nat n <? len (split NL text)) eqn:E;
    [|apply Z.ltb_ge in E; unfold len in E; lia].
  destruct (getitem_in_range (split NL text) (Z.of_nat n)) as (x & -> & Hx);
    [unfold len; lia|].
  rewrite Nat2Z.id, Hn in Hx. injection Hx as <-. by rewrite bind_ok.
Qed.

Lemma server_position_to_offset_past text n c :
  (length (split NL text) <= n)%nat ->
  Server._position_to_offset text (Server.mkPosition (Z.of_nat n) c)
  = Ok (len text + 1).
Proof.
  intros Hn. unfold Server._position_to_offset. cbv zeta.
  cbn [Server.line Server.character]. rewrite Nat2Z.id.
  pose proof (skip_lines_any n [] (split NL text) 0) as Hs.
  cbn [app] in Hs. change (len []) with 0 in Hs. rewrite Hs, bind_ok.
  destruct (Z.of_nat n <? len (split NL text)) eqn:E;
    [apply Z.ltb_lt in E; unfold len in E; lia|].
  rewrite (line_offset_past _ n Hn).
  rewrite line_offset_all by apply split_nonempty.
  rewrite split_join. f_equal. unfold len. lia.
Qed.

Lemma walk_line_bound : forall l c u co,
  co <= Server.walk_line c l u co <= co + len l.
Proof.
  induction l as [|x l IH]; intros c u co; cbn [Server.walk_line].
  - unfold len. simpl. lia.
  - destruct (c <=? u).
    + pose proof (len_nonneg (x :: l)). lia.
    + specialize (IH c (u + utf16_units x) (co + 1)).
      unfold len in *. cbn [length]. lia.
Qed.

Lemma encode_take_len text (j : nat) :
  wf_text text = true ->
  (let! b := encode (take j text) in Ok (len b))
  = Ok (utf8_len (take j text)).
Proof.
  intros Hwf.
  destruct (encode_wf (take j text) (wf_text_take j text Hwf))
    as (b & -> & <-).
  by rewrite bind_ok.
Qed.

(** [_to_byte_offset] on a line that exists. *)
Lemma to_byte_offset_line text token n l :
  wf_text text = true ->
  Analyzer.line token = Z.of_nat n ->
  split NL text !! n = Some l ->
  GrammarChecker._to_byte_offset token text
    (GrammarChecker._compute_line_starts text)
  = Ok (utf8_len
          (take (line_offset n (split NL text)
                 + Z.to_nat (Server.walk_line (Analyzer.start_char token)
                               l 0 0)) text)).
Proof.
  intros Hwf Hline Hn. unfold GrammarChecker._to_byte_offset.
  pose proof (lookup_lt_Some _ _ _ Hn) as Hlt.
  rewrite Hline.
  destruct (len (GrammarChecker._compute_line_starts text) <=? Z.of_nat n)
    eqn:E.
  { apply Z.leb_le in E. unfold len in E.
    rewrite compute_line_starts_length in E. lia. }
  rewrite compute_line_starts_getitem by done. ok_step. cbv zeta.
  rewrite slice_from_nat.
  destruct (drop_line_offset _ _ _ Hn) as (rest & Hr & Hcase).
  rewrite split_join in Hr. rewrite Hr.
  pose proof (split_no_newline text) as Hnl.
  rewrite Forall_lookup in Hnl. specialize (Hnl n l Hn).
  assert ((if negb (find NL (l ++ rest) =? -1)
           then slice_to (l ++ rest) (find NL (l ++ rest))
           else l ++ rest) = l) as ->.
  { destruct Hcase as [->|(r & ->)].
    - rewrite app_nil_r, find_no_newline by done. done.
    - rewrite find_first_newline by done.
      pose proof (len_nonneg l).
      destruct (len l =? -1) eqn:E'; [apply Z.eqb_eq in E'; lia|].
      cbn [negb]. unfold len. rewrite slice_to_nat.
      by rewrite take_app_length. }
  unfold GrammarChecker._utf16_to_char_offset. rewrite utf16_walk_bridge.
  pose proof (walk_line_bound l (Analyzer.start_char token) 0 0) as Hb.
  set (w := Server.walk_line (Analyzer.start_char token) l 0 0) in *.
  replace (Z.of_nat (line_offset n (split NL text)) + w)
    with (Z.of_nat (line_offset n (split NL text) + Z.to_nat w)) by lia.
  rewrite slice_to_nat. by apply encode_take_len.
Qed.

Lemma to_byte_offset_past text token n :
  wf_text text = true ->
  Analyzer.line token = Z.of_nat n ->
  (length (split NL text) <= n)%nat ->
  GrammarChecker._to_byte_offset token text
    (GrammarChecker._compute_line_starts text)
  = Ok (utf8_len text).
Proof.
  intros Hwf Hline Hn. unfold GrammarChecker._to_byte_offset. rewrite Hline.
  destruct (len (GrammarChecker._compute_line_starts text) <=? Z.of_nat n)
    eqn:E.
  2:{ apply Z.leb_gt in E. unfold len in E.
      rewrite compute_line_starts_length in E. lia. }
  destruct (encode_wf text Hwf) as (b & -> & <-). by rewrite bind_ok.
Qed.

Lemma server_byte_offset_line text n l c :
  wf_text text = true ->
  split NL text !! n = Some l ->
  Server.position_to_byte_offset text (Server.mkPosition (Z.of_nat n) c)
  = Ok (utf8_len
          (take (line_offset n (split NL text)
                 + Z.to_nat (Server.walk_line c l 0 0)) text)).
Proof.
  intros Hwf Hn. unfold Server.position_to_byte_offset.
  rewrite (server_position_to_offset_line text n l c Hn), bind_ok.
  pose proof (walk_line_bound l c 0 0) as Hb.
  set (w := Server.walk_line c l 0 0) in *.
  replace (Z.of_nat (line_offset n (split NL text)) + w)
    with (Z.of_nat (line_offset n (split NL text) + Z.to_nat w)) by lia.
  rewrite slice_to_nat. by apply encode_take_len.
Qed.

Lemma server_byte_offset_past text n c :
  wf_text text = true ->
  (length (split NL text) <= n)%nat ->
  Server.position_to_byte_offset text (Server.mkPosition (Z.of_nat n) c)
  = Ok (utf8_len text).
Proof.
  intros Hwf Hn. unfold Server.position_to_byte_offset.
  rewrite (server_position_to_offset_past text n c Hn), bind_ok.
  replace (len text + 1) with (Z.of_nat (S (length text)))
    by (unfold len; lia).
  rewrite slice_to_nat, take_ge by lia.
  destruct (encode_wf text Hwf) as (b & -> & <-). by rewrite bind_ok.
Qed.

(** X6. For a text that encodes and a token on a line number that is not
    negative, the grammar checker's [_to_byte_offset], run with the line
    starts of the text, returns the byte offset the server computes for
    the Position (token.line, token.start_char) with
    [_position_to_offset] and [len(text[:offset].encode())]: it lies
    between 0 and the encoded length of the text and is the encoded
    length of a prefix of the text. *)
Theorem to_byte_offset_agrees_with_server (text : list Z)
  (token : Analyzer.TokenData) :
  wf_text text = true ->
  0 <= Analyzer.line token ->
  exists b,
    GrammarChecker._to_byte_offset token text
      (GrammarChecker._compute_line_starts text) = Ok b
    /\ Server.position_to_byte_offset text
         (Server.mkPosition (Analyzer.line token) (Analyzer.start_char token))
       = Ok b
    /\ boundary_offset text b.
Proof.
  intros Hwf Hline.
  assert (Analyzer.line token = Z.of_nat (Z.to_nat (Analyzer.line token)))
    as Hn by lia.
  set (n := Z.to_nat (Analyzer.line token)) in *.
  destruct (split NL text !! n) as [l|] eqn:El.
  - eexists. split; [by apply (to_byte_offset_line text token n l)|].
    split; [rewrite Hn; by apply server_byte_offset_line|].
    pose proof (line_offset_le_length _ _ _ El) as Hle.
    rewrite split_join in Hle.
    pose proof (walk_line_bound l (Analyzer.start_char token) 0 0) as Hb.
    unfold len in Hb. eexists. split; [|done]. lia.
  - apply lookup_ge_None in El. exists (utf8_len text).
    split; [by apply (to_byte_offset_past text token n)|].
    split; [rewrite Hn; by apply server_byte_offset_past|].
    exists (length text). split; [done|]. by rewrite take_ge.
Qed.

Lemma to_byte_offset_agrees_with_server_witness :
  wf_text emoji_text = true
  /\ 0 <= Analyzer.line emoji_b_token
  /\ exists b,
       GrammarChecker._to_byte_offset emoji_b_token emoji_text
         (GrammarChecker._compute_line_starts emoji_text) = Ok b
       /\ Server.position_to_byte_offset emoji_text
            (Server.mkPosition (Analyzer.line emoji_b_token)
               (Analyzer.start_char emoji_b_token)) = Ok b
       /\ boundary_offset emoji_text b.
Proof.
  split; [reflexivity|]. split; [simpl; lia|].
  apply (to_byte_offset_agrees_with_server emoji_text emoji_b_token);
    [reflexivity|simpl; lia].
Defined.

Lemma gc_byte_offset_to_position_clamped text ls o :
  wf_text text = true -> utf8_len text <= o ->
  GrammarChecker._byte_offset_to_position text ls o
  = GrammarChecker._byte_offset_to_position text ls (utf8_len text).
Proof.
  intros Hwf Ho. unfold GrammarChecker._byte_offset_to_position.
  destruct (encode_wf text Hwf) as (bs & -> & Hlen). rewrite !bind_ok.
  cbv zeta. rewrite <- Hlen.
  rewrite (proj2 (Z.leb_le (len bs) o)) by lia.
  by rewrite Z.leb_refl.
Qed.

(** X7. On a text that encodes, at every byte offset that is a UTF-8
    code-point boundary of the text, and at every offset at or past its
    end, the grammar checker's [_byte_offset_to_position] (which slices
    the text from the line start) and the server's (which splits the
    decoded prefix into lines) return the same line and the same UTF-16
    column. *)
Theorem byte_offset_to_position_agrees_with_server (text : list Z) (b : Z) :
  wf_text text = true ->
  boundary_offset text b \/ utf8_len text <= b ->
  exists p q,
    GrammarChecker._byte_offset_to_position text
      (GrammarChecker._compute_line_starts text) b = Ok p
    /\ Server._byte_offset_to_position text b = Ok q
    /\ Analyzer.pos_line p = Server.line q
    /\ Analyzer.pos_character p = Server.character q.
Proof.
  intros Hwf Hb.
  assert (exists k : nat, (k <= length text)%nat
          /\ GrammarChecker._byte_offset_to_position text
               (GrammarChecker._compute_line_starts text) b
             = GrammarChecker._byte_offset_to_position text
                 (GrammarChecker._compute_line_starts text)
                 (utf8_len (take k text))
          /\ Server._byte_offset_to_position text b
             = Server._byte_offset_to_position text (utf8_len (take k text)))
    as (k & Hk & -> & ->).
  { destruct Hb as [(k & Hk & ->)|Hb]; [by exists k|].
    exists (length text). rewrite take_ge by done. split; [done|].
    split; [by apply gc_byte_offset_to_position_clamped|].
    by apply byte_offset_to_position_clamped. }
  destruct (split_cover text k Hk) as (n & l & k' & Hn & Hk' & ->).
  rewrite (gc_byte_offset_to_position_boundary text n l k' Hwf Hn Hk').
  rewrite (byte_offset_to_position_boundary text Hwf n k' l Hn Hk').
  eexists _, _. split; [done|]. split; [done|]. split; [done|].
  apply utf16_length_bridge.
Qed.

Lemma byte_offset_to_position_agrees_with_server_witness :
  wf_text emoji_text = true
  /\ (boundary_offset emoji_text 13 \/ utf8_len emoji_text <= 13)
  /\ exists p q,
       GrammarChecker._byte_offset_to_position emoji_text
         (GrammarChecker._compute_line_starts emoji_text) 13 = Ok p
       /\ Server._byte_offset_to_position emoji_text 13 = Ok q
       /\ Analyzer.pos_line p = Server.line q
       /\ Analyzer.pos_character p = Server.character q.
Proof.
  split; [reflexivity|].
  assert (boundary_offset emoji_text 13 \/ utf8_len emoji_text <= 13) as H.
  { left. exists 5%nat. split; [simpl; lia|reflexivity]. }
  split; [exact H|].
  apply (byte_offset_to_position_agrees_with_server emoji_text 13);
    [reflexivity|exact H].
Defined.

(** Inside the four bytes of a character outside the Basic Multilingual
    Plane the two conversions differ: the grammar checker counts the whole
    character, the server the replacement character the partial decoding
    gives. *)
Example byte_offset_to_position_inside_character :
  GrammarChecker._byte_offset_to_position [0x1F600]
    (GrammarChecker._compute_line_starts [0x1F600]) 2
  = Ok (Analyzer.mkPosition 0 2)
  /\ Server._byte_offset_to_position [0x1F600] 2
     = Ok (Server.mkPosition 0 1).
Proof. split; reflexivity. Qed.

Lemma take_take_drop {A} (l : list A) (a m : nat) :
  take (a + m) l = take a l ++ take m (drop a l).
Proof.
  revert l. induction a as [|a IH]; intros [|x l]; simpl; [done|done| |].
  - by destruct m.
  - by rewrite IH.
Qed.

Lemma drop_in_line text n l k :
  split NL text !! n = Some l -> (k <= length l)%nat ->
  exists rest,
    drop (line_offset n (split NL text) + k) text = drop k l ++ rest
    /\ (rest = [] \/ exists r, rest = NL :: r).
Proof.
  intros Hn Hk. destruct (drop_line_offset _ _ _ Hn) as (rest & Hr & Hc).
  rewrite split_join in Hr. exists rest. split; [|done].
  rewrite <- drop_drop, Hr. by rewrite drop_app_le.
Qed.

End ColumnProofs.

(* ===================================================================== *)
(** ** Tokens: from the analyzer to the ranges of diagnostics             *)
(* ===================================================================== *)

Section TokenPositionProofs.
Import AuxMore Samples SamplesMore.

Lemma walk_line_prefix l k :
  (k <= length l)%nat ->
  Server.walk_line (GrammarChecker._utf8_to_utf16_length (take k l)) l 0 0
  = Z.of_nat k.
Proof.
  intros Hk. rewrite utf16_length_bridge.
  pose proof (walk_line_spec l k 0 0 Hk) as Hw.
  rewrite Z.add_0_l in Hw. rewrite Hw. lia.
Qed.

(** X8. The range of a token-level diagnostic covers the token: for a
    token whose surface is the part of line [n] of the text from character
    [k] on and whose start_char is the UTF-16 length of the line before it,
    [_to_byte_offset] gives the byte offset of the token, and [_make_range]
    from that offset to the offset plus the encoded length of the surface
    gives the range from (line, start_char) to (line, start_char + UTF-16
    length of the surface). *)
Theorem token_range_covers_token (text : list Z) (token : Analyzer.TokenData)
  (n k m : nat) (l : list Z) :
  wf_text text = true ->
  split NL text !! n = Some l ->
  (k + m <= length l)%nat ->
  Analyzer.line token = Z.of_nat n ->
  Analyzer.start_char token
  = GrammarChecker._utf8_to_utf16_length (take k l) ->
  Analyzer.surface token = take m (drop k l) ->
  let line_starts := GrammarChecker._compute_line_starts text in
  (let! b := GrammarChecker._to_byte_offset token text line_starts in
   let! w := GrammarChecker.byte_len (Analyzer.surface token) in
   GrammarChecker._make_range text line_starts b (b + w))
  = Ok (Analyzer.mkRange
          (Analyzer.mkPosition (Analyzer.line token)
             (Analyzer.start_char token))
          (Analyzer.mkPosition (Analyzer.line token)
             (Analyzer.start_char token
              + GrammarChecker._utf8_to_utf16_length
                  (Analyzer.surface token)))).
Proof.
  intros Hwf Hn Hkm Hline Hcol Hsurf line_starts. subst line_starts.
  rewrite (to_byte_offset_line text token n l Hwf Hline Hn). ok_step.
  rewrite Hcol, walk_line_prefix by lia. rewrite Nat2Z.id.
  set (off := (line_offset n (split NL text) + k)%nat).
  destruct (drop_in_line text n l k Hn ltac:(lia)) as (rest & Hr & _).
  fold off in Hr.
  assert (Hs : take m (drop off text) = Analyzer.surface token).
  { rewrite Hr, Hsurf. rewrite take_app_le; [done|].
    rewrite length_drop. lia. }
  assert (Hws : wf_text (Analyzer.surface token) = true).
  { rewrite <- Hs. by apply wf_text_take, wf_text_drop. }
  rewrite (byte_len_ok _ Hws). ok_step.
  assert (He : utf8_len (take off text) + utf8_len (Analyzer.surface token)
               = utf8_len (take (line_offset n (split NL text) + (k + m))
                             text)).
  { replace (line_offset n (split NL text) + (k + m))%nat with (off + m)%nat
      by (unfold off; lia).
    by rewrite take_take_drop, utf8_len_app, Hs. }
  rewrite He. unfold GrammarChecker._make_range. unfold off.
  rewrite (gc_byte_offset_to_position_boundary text n l k Hwf Hn) by lia.
  ok_step.
  rewrite (gc_byte_offset_to_position_boundary text n l (k + m) Hwf Hn)
    by lia.
  ok_step. rewrite Hline. do 3 f_equal.
  by rewrite take_take_drop, utf16_length_app, Hsurf.
Qed.

Lemma token_range_covers_token_witness :
  wf_text emoji_text = true
  /\ split NL emoji_text !! 1%nat = Some emoji_line1
  /\ (1 + 1 <= length emoji_line1)%nat
  /\ Analyzer.line emoji_token = Z.of_nat 1
  /\ Analyzer.start_char emoji_token
     = GrammarChecker._utf8_to_utf16_length (take 1 emoji_line1)
  /\ Analyzer.surface emoji_token = take 1 (drop 1 emoji_line1)
  /\ (let! b := GrammarChecker._to_byte_offset emoji_token emoji_text
                 (GrammarChecker._compute_line_starts emoji_text) in
      let! w := GrammarChecker.byte_len (Analyzer.surface emoji_token) in
      GrammarChecker._make_range emoji_text
        (GrammarChecker._compute_line_starts emoji_text) b (b + w))
     = Ok (Analyzer.mkRange (Analyzer.mkPosition 1 1)
             (Analyzer.mkPosition 1 3)).
Proof.
  split; [reflexivity|]. split; [reflexivity|]. split; [simpl; lia|].
  split; [reflexivity|]. split; [reflexivity|]. split; [reflexivity|].
  apply (token_range_covers_token emoji_text emoji_token 1 1 1 emoji_line1);
    try reflexivity.
  simpl; lia.
Defined.

End TokenPositionProofs.

(* ===================================================================== *)
(** ** The grammar rules: what they return and what they leave alone      *)
(* ===================================================================== *)

Section RuleProofs.
Import Analyzer GrammarChecker AuxMore Samples SamplesMore.

Lemma extends_refl d : extends d d.
Proof. exists []. by rewrite app_nil_r. Qed.

Lemma extends_trans d1 d2 d3 : extends d1 d2 -> extends d2 d3 -> extends d1 d3.
Proof.
  intros (n1 & -> & H1) (n2 & -> & H2). exists (n1 ++ n2).
  split; [by rewrite app_assoc|]. by apply Forall_app.
Qed.

Lemma extends_snoc d r msg : extends d (d ++ [new_diagnostic r 2 msg]).
Proof. eexists. split; [done|]. by repeat constructor. Qed.

Lemma compute_token_byte_positions_ok text : forall tokens,
  wf_text text = true ->
  Forall wf_token tokens ->
  exists ps,
    _compute_token_byte_positions tokens text (_compute_line_starts text)
    = Ok ps
    /\ length ps = length tokens
    /\ Forall (boundary_offset text) ps.
Proof.
  intros tokens Hwf. induction 1 as [|t ts [Ht _] Hts (ps & IH & Hl & Hb)].
  - exists []. by repeat split.
  - cbn [_compute_token_byte_positions].
    assert (line t = Z.of_nat (Z.to_nat (line t))) as Hn by lia.
    destruct (split NL text !! Z.to_nat (line t)) as [l|] eqn:El.
    + rewrite (to_byte_offset_line text t _ l Hwf Hn El). ok_step.
      rewrite IH. ok_step. eexists. split; [done|].
      split; [simpl; lia|]. constructor; [|done].
      pose proof (line_offset_le_length _ _ _ El) as Hle.
      rewrite split_join in Hle.
      pose proof (walk_line_bound l (start_char t) 0 0) as Hw.
      unfold len in Hw. eexists. split; [|done]. lia.
    + apply lookup_ge_None in El.
      rewrite (to_byte_offset_past text t _ Hwf Hn El). ok_step.
      rewrite IH. ok_step. eexists. split; [done|].
      split; [simpl; lia|]. constructor; [|done].
      exists (length text). split; [done|]. by rewrite take_ge.
Qed.

Section Rules.
Variables (text : list Z) (ls : list Z).
Hypothesis Hwf : wf_text text = true.
Hypothesis Hls : ls <> [].

Lemma comma_loop_extends limit : forall sentences d,
  exists d', comma_loop text ls limit sentences d = Ok d' /\ extends d d'.
Proof.
  induction sentences as [|s ss IH]; intros d; cbn [comma_loop].
  - exists d. split; [done|apply extends_refl].
  - destruct (_count_commas (sb_text s) <=? limit); [apply IH|].
    destruct (make_range_ok text ls (sb_start s) (sb_end s) Hwf Hls)
      as (r & ->).
    ok_step.
    destruct (IH (d ++ [new_diagnostic r 2
                          (comma_message limit (_count_commas (sb_text s)))]))
      as (d' & -> & Hext).
    exists d'. split; [done|].
    eapply extends_trans; [apply extends_snoc|exact Hext].
Qed.

Lemma check_comma_limit_extends sentences d limit :
  exists d',
    _check_comma_limit text sentences ls d limit = Ok d' /\ extends d d'.
Proof.
  unfold _check_comma_limit. destruct (limit <=? 0).
  - exists d. split; [done|apply extends_refl].
  - apply comma_loop_extends.
Qed.

Lemma getitem_position (ps : list Z) (tokens : list TokenData) i :
  0 <= i -> i + len tokens <= len ps -> (0 < length tokens)%nat ->
  exists p, getitem ps i = Ok p.
Proof.
  intros Hi Hlen Hne.
  destruct (getitem_in_range ps i) as (p & -> & _); [unfold len in *; lia|].
  by exists p.
Qed.

Lemma ga_count_ok ps s : forall tokens i c,
  0 <= i -> i + len tokens <= len ps ->
  exists c', ga_count ps s tokens i c = Ok c'.
Proof.
  induction tokens as [|t ts IH]; intros i c Hi Hlen; cbn [ga_count];
    [by exists c|].
  assert (i + 1 + len ts <= len ps) as Hlen'
    by (unfold len in *; cbn [length] in Hlen; lia).
  destruct (is_adversative_ga_total (feature t)) as (b & ->). ok_step.
  destruct b; cbn [negb]; [|apply IH; lia].
  destruct (getitem_position ps (t :: ts) i Hi Hlen ltac:(simpl; lia))
    as (p & ->).
  ok_step. apply IH; lia.
Qed.

Lemma ga_loop_extends tokens ps m :
  length ps = length tokens ->
  forall sentences d,
  exists d', ga_loop text tokens ls ps m sentences d = Ok d' /\ extends d d'.
Proof.
  intros Hlen. induction sentences as [|s ss IH]; intros d; cbn [ga_loop].
  - exists d. split; [done|apply extends_refl].
  - destruct (ga_count_ok ps s tokens 0 0) as (c & ->);
      [lia|unfold len; lia|].
    ok_step. destruct (c <=? m); [apply IH|].
    destruct (make_range_ok text ls (sb_start s) (sb_end s) Hwf Hls)
      as (r & ->).
    ok_step.
    destruct (IH (d ++ [new_diagnostic r 2 (ga_message m c)]))
      as (d' & -> & Hext).
    exists d'. split; [done|].
    eapply extends_trans; [apply extends_snoc|exact Hext].
Qed.

Lemma check_adversative_ga_extends tokens sentences ps d m :
  length ps = length tokens ->
  exists d',
    _check_adversative_ga text tokens sentences ls ps d m = Ok d'
    /\ extends d d'.
Proof.
  intros Hlen. unfold _check_adversative_ga. destruct (m <=? 0).
  - exists d. split; [done|apply extends_refl].
  - by apply ga_loop_extends.
Qed.

Lemma dup_step_extends m t p k st d :
  wf_text (surface t) = true ->
  exists st' d',
    dup_step text ls m t p k st d = Ok (st', d') /\ extends d d'.
Proof.
  intros Ht. unfold dup_step. cbv zeta.
  set (st1 := if has_last st && negb (line t =? last_line st)
              then _ else st).
  destruct (has_last st1 && str_eqb (surface t) (last_surface st1)
            && str_eqb k (last_key st1)).
  - destruct (m <? streak st1 + 1).
    + rewrite (byte_len_ok _ Ht). ok_step.
      destruct (make_range_ok text ls (last_start_byte st1)
                  (p + utf8_len (surface t)) Hwf Hls) as (r & ->).
      ok_step. ok_step. eexists _, _. split; [done|apply extends_snoc].
    + ok_step. eexists _, _. split; [done|apply extends_refl].
  - ok_step. eexists _, _. split; [done|apply extends_refl].
Qed.

Lemma dup_loop_extends ps m s : forall tokens i st d,
  Forall wf_surface tokens ->
  0 <= i -> i + len tokens <= len ps ->
  exists st' d',
    dup_loop text ls ps m s tokens i st d = Ok (st', d') /\ extends d d'.
Proof.
  induction tokens as [|t ts IH]; intros i st d Hts Hi Hlen; cbn [dup_loop].
  - exists st, d. split; [done|apply extends_refl].
  - apply Forall_cons in Hts as [Ht Hts].
    assert (i + 1 + len ts <= len ps) as Hlen'
      by (unfold len in *; cbn [length] in Hlen; lia).
    destruct (getitem_position ps (t :: ts) i Hi Hlen ltac:(simpl; lia))
      as (p & ->).
    ok_step. destruct (_in_sentence p s); cbn [negb]; [|apply IH; [done|lia..]].
    rewrite is_particle_total. ok_step.
    destruct (is_particle_b (feature t)); cbn [negb];
      [|apply IH; [done|lia..]].
    rewrite particle_key_total. ok_step.
    destruct (dup_step_extends m t p (particle_key_of (feature t)) st d Ht)
      as (st1 & d1 & -> & H1).
    ok_step. cbn [fst snd].
    destruct (IH (i + 1) st1 d1 Hts ltac:(lia) Hlen')
      as (st2 & d2 & -> & H2).
    exists st2, d2. split; [done|]. by eapply extends_trans.
Qed.

Lemma dup_sentences_extends tokens ps m :
  Forall wf_surface tokens -> length ps = length tokens ->
  forall sentences d,
  exists d',
    dup_sentences text tokens ls ps m sentences d = Ok d' /\ extends d d'.
Proof.
  intros Hts Hlen. induction sentences as [|s ss IH]; intros d;
    cbn [dup_sentences].
  - exists d. split; [done|apply extends_refl].
  - destruct (dup_loop_extends ps m s tokens 0 dup_init d Hts)
      as (st1 & d1 & -> & H1); [lia|unfold len; lia|].
    ok_step. cbn [snd]. destruct (IH d1) as (d2 & -> & H2).
    exists d2. split; [done|]. by eapply extends_trans.
Qed.

Lemma check_duplicate_particle_extends tokens sentences ps d m :
  Forall wf_surface tokens -> length ps = length tokens ->
  exists d',
    _check_duplicate_particle_surface text tokens sentences ls ps d m = Ok d'
    /\ extends d d'.
Proof.
  intros Hts Hlen. unfold _check_duplicate_particle_surface.
  destruct (m <=? 0).
  - exists d. split; [done|apply extends_refl].
  - by apply dup_sentences_extends.
Qed.

Lemma adj_step_extends m t p st d :
  wf_text (surface t) = true ->
  (forall a, prev_token st = Some a -> wf_text (surface a) = true) ->
  exists st' d',
    adj_step text ls m t p st d = Ok (st', d') /\ extends d d'
    /\ (forall a, prev_token st' = Some a -> wf_text (surface a) = true).
Proof.
  intros Ht Hprev. unfold adj_step.
  rewrite is_particle_total. ok_step. rewrite particle_key_total. ok_step.
  assert (Hst : forall streak' start' a,
    prev_token
      (if is_particle_b (feature t)
       then mkAdjState true (particle_key_of (feature t)) (Some t) p streak'
       else mkAdjState false (prev_key st) (prev_token st) start' streak')
    = Some a -> wf_text (surface a) = true).
  { intros streak' start' a. destruct (is_particle_b (feature t)); simpl.
    - by intros [= <-].
    - apply Hprev. }
  destruct (prev_token st) as [prev|] eqn:Ep.
  2:{ ok_step. eexists _, _. split; [done|]. split; [apply extends_refl|].
      apply Hst. }
  destruct (is_particle_b (feature t) && prev_is_particle st
            && str_eqb (particle_key_of (feature t)) (prev_key st)).
  2:{ ok_step. eexists _, _. split; [done|]. split; [apply extends_refl|].
      apply Hst. }
  rewrite (byte_len_ok _ (Hprev prev eq_refl)). ok_step.
  destruct (p =? prev_start_byte st + utf8_len (surface prev)).
  2:{ ok_step. eexists _, _. split; [done|]. split; [apply extends_refl|].
      apply Hst. }
  destruct (m <? adj_streak st + 1).
  2:{ ok_step. eexists _, _. split; [done|]. split; [apply extends_refl|].
      apply Hst. }
  rewrite (byte_len_ok _ Ht). ok_step.
  destruct (make_range_ok text ls (prev_start_byte st)
              (p + utf8_len (surface t)) Hwf Hls) as (r & ->).
  ok_step. ok_step. eexists _, _. split; [done|].
  split; [apply extends_snoc|apply Hst].
Qed.

Lemma adj_loop_extends ps m s : forall tokens i st d,
  Forall wf_surface tokens ->
  (forall a, prev_token st = Some a -> wf_text (surface a) = true) ->
  0 <= i -> i + len tokens <= len ps ->
  exists st' d',
    adj_loop text ls ps m s tokens i st d = Ok (st', d') /\ extends d d'.
Proof.
  induction tokens as [|t ts IH]; intros i st d Hts Hst Hi Hlen;
    cbn [adj_loop].
  - exists st, d. split; [done|apply extends_refl].
  - apply Forall_cons in Hts as [Ht Hts].
    assert (i + 1 + len ts <= len ps) as Hlen'
      by (unfold len in *; cbn [length] in Hlen; lia).
    destruct (getitem_position ps (t :: ts) i Hi Hlen ltac:(simpl; lia))
      as (p & ->).
    ok_step. destruct (_in_sentence p s); cbn [negb];
      [|apply IH; [done|done|lia..]].
    destruct (adj_step_extends m t p st d Ht Hst)
      as (st1 & d1 & -> & H1 & Hst1).
    ok_step. cbn [fst snd].
    destruct (IH (i + 1) st1 d1 Hts Hst1 ltac:(lia) Hlen')
      as (st2 & d2 & -> & H2).
    exists st2, d2. split; [done|]. by eapply extends_trans.
Qed.

Lemma adj_sentences_extends tokens ps m :
  Forall wf_surface tokens -> length ps = length tokens ->
  forall sentences d,
  exists d',
    adj_sentences text tokens ls ps m sentences d = Ok d' /\ extends d d'.
Proof.
  intros Hts Hlen. induction sentences as [|s ss IH]; intros d;
    cbn [adj_sentences].
  - exists d. split; [done|apply extends_refl].
  - destruct (adj_loop_extends ps m s tokens 0 adj_init d Hts)
      as (st1 & d1 & -> & H1); [done|lia|unfold len; lia|].
    ok_step. cbn [snd]. destruct (IH d1) as (d2 & -> & H2).
    exists d2. split; [done|]. by eapply extends_trans.
Qed.

Lemma check_adjacent_particles_extends tokens sentences ps d m :
  Forall wf_surface tokens -> length ps = length tokens ->
  exists d',
    _check_adjacent_particles text tokens sentences ls ps d m = Ok d'
    /\ extends d d'.
Proof.
  intros Hts Hlen. unfold _check_adjacent_particles. destruct (m <=? 0).
  - exists d. split; [done|apply extends_refl].
  - by apply adj_sentences_extends.
Qed.

Lemma conj_loop_extends ps m : forall tokens i st d,
  Forall wf_surface tokens ->
  0 <= i -> i + len tokens <= len ps ->
  exists d', conj_loop text ls ps m tokens i st d = Ok d' /\ extends d d'.
Proof.
  induction tokens as [|t ts IH]; intros i st d Hts Hi Hlen; cbn [conj_loop].
  - exists d. split; [done|apply extends_refl].
  - apply Forall_cons in Hts as [Ht Hts].
    assert (i + 1 + len ts <= len ps) as Hlen'
      by (unfold len in *; cbn [length] in Hlen; lia).
    destruct (is_conjunction_total (feature t)) as (b & ->). ok_step.
    destruct b; cbn [negb]; [|apply IH; [done|lia..]].
    destruct (getitem_position ps (t :: ts) i Hi Hlen ltac:(simpl; lia))
      as (p & ->).
    ok_step. rewrite (byte_len_ok _ Ht). ok_step.
    destruct (encode_wf text Hwf) as (bs & Hbs & _).
    assert (exists sep,
      (if cj_has_last st
       then let! text_bytes := encode text in
            Ok (char_in NL (decode_replace
                  (slice text_bytes (cj_last_end_byte st) p)))
       else Ok false) = Ok sep) as (sep & ->).
    { destruct (cj_has_last st); [|by eexists].
      rewrite Hbs. ok_step. by eexists. }
    ok_step.
    destruct (cj_has_last st && str_eqb (surface t) (cj_last_surface st)
              && negb sep).
    2:{ ok_step. cbn [fst snd]. apply IH; [done|lia..]. }
    destruct (m <? cj_streak st + 1).
    2:{ ok_step. cbn [fst snd]. apply IH; [done|lia..]. }
    destruct (make_range_ok text ls (cj_last_start_byte st)
                (p + utf8_len (surface t)) Hwf Hls) as (r & ->).
    ok_step. ok_step. cbn [fst snd].
    edestruct IH as (d' & -> & Hext); [exact Hts|lia|exact Hlen'|].
    exists d'. split; [done|].
    eapply extends_trans; [apply extends_snoc|exact Hext].
Qed.

Lemma check_conjunction_repeats_extends tokens ps d m :
  Forall wf_surface tokens -> length ps = length tokens ->
  exists d',
    _check_conjunction_repeats text tokens ls ps d m = Ok d' /\ extends d d'.
Proof.
  intros Hts Hlen. unfold _check_conjunction_repeats. destruct (m <=? 0).
  - exists d. split; [done|apply extends_refl].
  - apply conj_loop_extends; [done|lia|unfold len; lia].
Qed.

Lemma ra_special_loop_extends ps : forall tokens i d,
  Forall wf_surface tokens ->
  0 <= i -> i + len tokens <= len ps ->
  exists d', ra_special_loop text ls ps tokens i d = Ok d' /\ extends d d'.
Proof.
  induction tokens as [|t ts IH]; intros i d Hts Hi Hlen;
    cbn [ra_special_loop].
  - exists d. split; [done|apply extends_refl].
  - apply Forall_cons in Hts as [Ht Hts].
    assert (i + 1 + len ts <= len ps) as Hlen'
      by (unfold len in *; cbn [length] in Hlen; lia).
    destruct (is_special_ra_case_total (feature t)) as (b & ->). ok_step.
    destruct b; [|apply IH; [done|lia..]].
    destruct (getitem_position ps (t :: ts) i Hi Hlen ltac:(simpl; lia))
      as (p & ->).
    ok_step. rewrite (byte_len_ok _ Ht). ok_step.
    destruct (make_range_ok text ls p (p + utf8_len (surface t)) Hwf Hls)
      as (r & ->).
    ok_step.
    edestruct IH as (d' & -> & Hext); [exact Hts|lia|exact Hlen'|].
    exists d'. split; [done|].
    eapply extends_trans; [apply extends_snoc|exact Hext].
Qed.

Lemma ra_pair_loop_extends ps : forall tokens i prev d,
  Forall wf_surface tokens ->
  0 <= i -> i + len tokens <= len ps ->
  (forall a, prev = Some a -> 1 <= i) ->
  exists prev' d',
    ra_pair_loop text ls ps tokens i prev d = Ok (prev', d') /\ extends d d'.
Proof.
  induction tokens as [|t ts IH]; intros i prev d Hts Hi Hlen Hprev;
    cbn [ra_pair_loop].
  - exists prev, d. split; [done|apply extends_refl].
  - apply Forall_cons in Hts as [Ht Hts].
    assert (i + 1 + len ts <= len ps) as Hlen'
      by (unfold len in *; cbn [length] in Hlen; lia).
    assert (exists d1,
      (match prev with
       | Some prev0 =>
           let! target := _is_target_verb (feature prev0) in
           let! ra := (if target then _is_ra_word (feature t)
                       else Ok false) in
           if target && ra then
             let! start_byte := getitem ps (i - 1) in
             let! pos_i := getitem ps i in
             let! n := byte_len (surface t) in
             let! r := _make_range text ls start_byte (pos_i + n) in
             Ok (d ++ [new_diagnostic r 2 message_ra])
           else Ok d
       | None => Ok d
       end) = Ok d1 /\ extends d d1) as (d1 & -> & H1).
    { destruct prev as [prev0|]; [|exists d; split; [done|apply extends_refl]].
      specialize (Hprev prev0 eq_refl).
      destruct (is_target_verb_total (feature prev0)) as (b & ->). ok_step.
      destruct b.
      2:{ ok_step. exists d. split; [done|apply extends_refl]. }
      destruct (is_ra_word_total (feature t)) as (b & ->). ok_step.
      destruct b; cbn [andb];
        [|exists d; split; [done|apply extends_refl]].
      destruct (getitem_in_range ps (i - 1)) as (p0 & -> & _);
        [unfold len in *; cbn [length] in Hlen; lia|].
      ok_step.
      destruct (getitem_position ps (t :: ts) i Hi Hlen ltac:(simpl; lia))
        as (p & ->).
      ok_step. rewrite (byte_len_ok _ Ht). ok_step.
      destruct (make_range_ok text ls p0 (p + utf8_len (surface t)) Hwf Hls)
        as (r & ->).
      ok_step. eexists. split; [done|apply extends_snoc]. }
    ok_step.
    destruct (IH (i + 1) (Some t) d1 Hts ltac:(lia) Hlen' ltac:(intros; lia))
      as (prev' & d' & -> & Hext).
    exists prev', d'. split; [done|]. by eapply extends_trans.
Qed.

Lemma check_ra_dropping_extends tokens ps d :
  Forall wf_surface tokens -> length ps = length tokens ->
  exists d', _check_ra_dropping text tokens ls ps d = Ok d' /\ extends d d'.
Proof.
  intros Hts Hlen. unfold _check_ra_dropping.
  destruct (ra_special_loop_extends ps tokens 0 d Hts)
    as (d1 & -> & H1); [lia|unfold len; lia|].
  ok_step.
  destruct (ra_pair_loop_extends ps tokens 0 None d1 Hts)
    as (prev' & d2 & -> & H2); [lia|unfold len; lia|done|].
  ok_step. exists d2. split; [done|]. by eapply extends_trans.
Qed.

End Rules.

(** X11. On a text that encodes and tokens whose line numbers are not
    negative and whose surfaces encode, [check_grammar] returns normally
    whatever the configuration and the sentences -- no subscript of
    [line_starts] or [token_byte_positions] is out of range -- and every
    diagnostic it returns is a warning (severity 2) with source mozuku. *)
Theorem check_grammar_returns_warnings (config : AnalysisConfig)
  (text : list Z) (tokens : list TokenData)
  (sentences : list SentenceBoundary) :
  wf_text text = true ->
  Forall (fun token => 0 <= line token /\ wf_text (surface token) = true)
         tokens ->
  exists diagnostics,
    check_grammar config text tokens sentences = Ok diagnostics
    /\ Forall (fun d => severity d = 2 /\ source d = lit "mozuku")
              diagnostics.
Proof.
  intros Hwf Hts. unfold check_grammar.
  destruct (grammar_check config); cbn [negb]; [|by exists []].
  destruct (compute_token_byte_positions_ok text tokens Hwf Hts)
    as (ps & -> & Hlen & _).
  ok_step. cbv zeta.
  assert (Hsf : Forall wf_surface tokens)
    by (eapply Forall_impl; [exact Hts|by intros t [_ Ht]]).
  assert (Hls : _compute_line_starts text <> []) by done.
  set (ls := _compute_line_starts text) in *.
  assert (exists d1,
    (if comma_limit (rules config)
     then _check_comma_limit text sentences ls [] (comma_limit_max (rules config))
     else Ok []) = Ok d1 /\ extends [] d1) as (d1 & -> & H1).
  { destruct (comma_limit (rules config));
      [by apply check_comma_limit_extends|].
    exists []. split; [done|apply extends_refl]. }
  ok_step.
  assert (exists d2,
    (if adversative_ga (rules config)
     then _check_adversative_ga text tokens sentences ls ps d1
            (adversative_ga_max (rules config))
     else Ok d1) = Ok d2 /\ extends d1 d2) as (d2 & -> & H2).
  { destruct (adversative_ga (rules config));
      [by apply check_adversative_ga_extends|].
    exists d1. split; [done|apply extends_refl]. }
  ok_step.
  assert (exists d3,
    (if duplicate_particle_surface (rules config)
     then _check_duplicate_particle_surface text tokens sentences ls ps d2
            (duplicate_particle_surface_max_repeat (rules config))
     else Ok d2) = Ok d3 /\ extends d2 d3) as (d3 & -> & H3).
  { destruct (duplicate_particle_surface (rules config));
      [by apply check_duplicate_particle_extends|].
    exists d2. split; [done|apply extends_refl]. }
  ok_step.
  assert (exists d4,
    (if adjacent_particles (rules config)
     then _check_adjacent_particles text tokens sentences ls ps d3
            (adjacent_particles_max_repeat (rules config))
     else Ok d3) = Ok d4 /\ extends d3 d4) as (d4 & -> & H4).
  { destruct (adjacent_particles (rules config));
      [by apply check_adjacent_particles_extends|].
    exists d3. split; [done|apply extends_refl]. }
  ok_step.
  assert (exists d5,
    (if conjunction_repeat (rules config)
     then _check_conjunction_repeats text tokens ls ps d4
            (conjunction_repeat_max (rules config))
     else Ok d4) = Ok d5 /\ extends d4 d5) as (d5 & -> & H5).
  { destruct (conjunction_repeat (rules config));
      [by apply check_conjunction_repeats_extends|].
    exists d4. split; [done|apply extends_refl]. }
  ok_step.
  assert (exists d6,
    (if ra_dropping (rules config)
     then _check_ra_dropping text tokens ls ps d5
     else Ok d5) = Ok d6 /\ extends d5 d6) as (d6 & -> & H6).
  { destruct (ra_dropping (rules config));
      [by apply check_ra_dropping_extends|].
    exists d5. split; [done|apply extends_refl]. }
  ok_step. exists d6. split; [done|].
  pose proof (extends_trans _ _ _ H1
               (extends_trans _ _ _ H2
                 (extends_trans _ _ _ H3
                   (extends_trans _ _ _ H4
                     (extends_trans _ _ _ H5 H6))))) as (new & -> & Hnew).
  exact Hnew.
Qed.

Lemma check_grammar_returns_warnings_witness :
  wf_text tabereru_text = true
  /\ Forall (fun token => 0 <= line token
                          /\ wf_text (surface token) = true)
            [tabe_token; reru_token]
  /\ exists diagnostics,
       check_grammar default_config tabereru_text [tabe_token; reru_token] []
       = Ok diagnostics
       /\ Forall (fun d => severity d = 2 /\ source d = lit "mozuku")
                 diagnostics.
Proof.
  assert (Forall (fun token => 0 <= line token
                               /\ wf_text (surface token) = true)
                 [tabe_token; reru_token]) as H.
  { repeat constructor; simpl; lia. }
  split; [reflexivity|]. split; [exact H|].
  apply (check_grammar_returns_warnings default_config tabereru_text
           [tabe_token; reru_token] []); [reflexivity|exact H].
Defined.

(** A token whose line number is below [-len(line_starts)] makes the
    subscript [line_starts[token.line]] of [_to_byte_offset] raise. *)
Example check_grammar_negative_line :
  check_grammar default_config (lit "b") [stray_token] [] = Raise IndexError.
Proof. reflexivity. Qed.

(** X12. Each of the six rule methods only appends: given a text that
    encodes, a list of line starts that is not empty, tokens whose
    surfaces encode and one byte position per token, it returns the
    diagnostics list it was given followed by zero or more warnings with
    source mozuku; it never removes, reorders or alters an earlier
    diagnostic, whatever its threshold. *)
Theorem rules_only_append (text : list Z) (line_starts : list Z)
  (tokens : list TokenData) (sentences : list SentenceBoundary)
  (token_byte_positions : list Z) (diagnostics : list Diagnostic)
  (limit : Z) :
  wf_text text = true ->
  line_starts <> [] ->
  Forall (fun token => wf_text (surface token) = true) tokens ->
  length token_byte_positions = length tokens ->
  let appended (r : result (list Diagnostic)) :=
    exists new,
      r = Ok (diagnostics ++ new)
      /\ Forall (fun d => severity d = 2 /\ source d = lit "mozuku") new in
  appended (_check_comma_limit text sentences line_starts diagnostics limit)
  /\ appended (_check_adversative_ga text tokens sentences line_starts
                 token_byte_positions diagnostics limit)
  /\ appended (_check_duplicate_particle_surface text tokens sentences
                 line_starts token_byte_positions diagnostics limit)
  /\ appended (_check_adjacent_particles text tokens sentences line_starts
                 token_byte_positions diagnostics limit)
  /\ appended (_check_conjunction_repeats text tokens line_starts
                 token_byte_positions diagnostics limit)
  /\ appended (_check_ra_dropping text tokens line_starts
                 token_byte_positions diagnostics).
Proof.
  intros Hwf Hls Hts Hlen appended.
  assert (Happ : forall r,
    (exists d', r = Ok d' /\ extends diagnostics d') -> appended r).
  { intros r (d' & -> & new & -> & Hnew). by exists new. }
  split; [apply Happ; by apply check_comma_limit_extends|].
  split; [apply Happ; by apply check_adversative_ga_extends|].
  split; [apply Happ; by apply check_duplicate_particle_extends|].
  split; [apply Happ; by apply check_adjacent_particles_extends|].
  split; [apply Happ; by apply check_conjunction_repeats_extends|].
  apply Happ; by apply check_ra_dropping_extends.
Qed.

Lemma rules_only_append_witness :
  wf_text tabereru_text = true
  /\ _compute_line_starts tabereru_text <> []
  /\ Forall (fun token => wf_text (surface token) = true)
            [tabe_token; reru_token]
  /\ length [0; 6] = length [tabe_token; reru_token]
  /\ (let appended (r : result (list Diagnostic)) :=
        exists new,
          r = Ok ([] ++ new)
          /\ Forall (fun d => severity d = 2 /\ source d = lit "mozuku")
                    new in
      appended (_check_comma_limit tabereru_text []
                  (_compute_line_starts tabereru_text) [] 1)
      /\ appended (_check_adversative_ga tabereru_text
                     [tabe_token; reru_token] []
                     (_compute_line_starts tabereru_text) [0; 6] [] 1)
      /\ appended (_check_duplicate_particle_surface tabereru_text
                     [tabe_token; reru_token] []
                     (_compute_line_starts tabereru_text) [0; 6] [] 1)
      /\ appended (_check_adjacent_particles tabereru_text
                     [tabe_token; reru_token] []
                     (_compute_line_starts tabereru_text) [0; 6] [] 1)
      /\ appended (_check_conjunction_repeats tabereru_text
                     [tabe_token; reru_token]
                     (_compute_line_starts tabereru_text) [0; 6] [] 1)
      /\ appended (_check_ra_dropping tabereru_text
                     [tabe_token; reru_token]
                     (_compute_line_starts tabereru_text) [0; 6] [])).
Proof.
  assert (Forall (fun token => wf_text (surface token) = true)
                 [tabe_token; reru_token]) as H by (by repeat constructor).
  split; [reflexivity|]. split; [done|]. split; [exact H|].
  split; [reflexivity|].
  apply (rules_only_append tabereru_text (_compute_line_starts tabereru_text)
           [tabe_token; reru_token] [] [0; 6] [] 1);
    [reflexivity|done|exact H|reflexivity].
Defined.

End RuleProofs.

(* ===================================================================== *)
(** ** Semantic tokens                                                    *)
(* ===================================================================== *)

Section SemanticTokenProofs.
Import Analyzer PyMore AnalyzerTokens ServerFns AuxMore Samples SamplesMore.

Lemma semantic_loop_acc : forall tokens pl pc data,
  semantic_loop tokens pl pc data = data ++ semantic_loop tokens pl pc [].
Proof.
  induction tokens as [|t ts IH]; intros pl pc data; cbn [semantic_loop].
  - by rewrite app_nil_r.
  - rewrite IH. rewrite (IH _ _ ([] ++ _)). by rewrite app_assoc.
Qed.

Lemma semantic_loop_cons t ts pl pc :
  semantic_loop (t :: ts) pl pc []
  = [line t - pl;
     if line t - pl =? 0 then start_char t - pc else start_char t;
     end_char t - start_char t; type_index (token_type t);
     token_modifiers t]
    ++ semantic_loop ts (line t) (start_char t) [].
Proof. cbn [semantic_loop]. by rewrite semantic_loop_acc. Qed.

(** X13. [_build_semantic_tokens] emits five integers per token, and the
    encoding is lossless for every token list: a client that decodes the
    array as the protocol prescribes (line and start relative to the token
    before, start absolute after a line change) recovers, for each token in
    order, its line, start_char, length end_char - start_char, type index
    and modifiers. *)
Theorem semantic_tokens_round_trip (tokens : list TokenData) :
  length (_build_semantic_tokens tokens) = (5 * length tokens)%nat
  /\ decode_semantic (_build_semantic_tokens tokens) 0 0
     = map semantic_entry tokens.
Proof.
  unfold _build_semantic_tokens.
  enough (forall pc pl,
    length (semantic_loop tokens pl pc []) = (5 * length tokens)%nat
    /\ decode_semantic (semantic_loop tokens pl pc []) pl pc
       = map semantic_entry tokens) as H by apply H.
  induction tokens as [|t ts IH]; intros pc pl.
  - done.
  - rewrite semantic_loop_cons. destruct (IH (start_char t) (line t))
      as [IH1 IH2].
    split.
    + rewrite length_app, IH1. cbn [length]. lia.
    + cbn [app decode_semantic map]. unfold semantic_entry at 1.
      replace (pl + (line t - pl)) with (line t) by lia.
      replace (if line t - pl =? 0
               then pc + (if line t - pl =? 0 then start_char t - pc
                          else start_char t)
               else if line t - pl =? 0 then start_char t - pc
                    else start_char t)
        with (start_char t) by (destruct (line t - pl =? 0); lia).
      by rewrite IH2.
Qed.

Lemma semantic_deltas_order : forall tokens pl pc,
  in_document_order pl pc tokens ->
  Forall (fun d => 0 <= fst d /\ 0 <= snd d)
         (semantic_deltas (semantic_loop tokens pl pc [])).
Proof.
  induction tokens as [|t ts IH]; intros pl pc Hord; [constructor|].
  destruct Hord as (Hc & Hpos & Hrest).
  rewrite semantic_loop_cons. cbn [app semantic_deltas].
  constructor; [|by apply IH]. cbn [fst snd].
  destruct (line t - pl =? 0) eqn:E; lia.
Qed.

(** X14. For tokens in document order (lines do not decrease, start_char
    does not decrease within a line, no start_char is negative, starting
    at or after line 0 column 0) every delta_line and delta_char that
    [_build_semantic_tokens] emits is greater than or equal to zero, as
    the unsigned integers of the protocol require. *)
Theorem semantic_tokens_deltas_nonnegative (tokens : list TokenData) :
  in_document_order 0 0 tokens ->
  Forall (fun d => 0 <= fst d /\ 0 <= snd d)
         (semantic_deltas (_build_semantic_tokens tokens)).
Proof. intros H. unfold _build_semantic_tokens. by apply semantic_deltas_order. Qed.

Lemma semantic_tokens_deltas_nonnegative_witness :
  in_document_order 0 0 ordered_tokens
  /\ _build_semantic_tokens ordered_tokens
     = [0; 0; 1; 0; 0;  0; 2; 1; 1; 4;  2; 1; 1; 0; 0]
  /\ Forall (fun d => 0 <= fst d /\ 0 <= snd d)
            (semantic_deltas (_build_semantic_tokens ordered_tokens)).
Proof.
  assert (in_document_order 0 0 ordered_tokens) as H.
  { simpl. lia. }
  split; [exact H|]. split; [reflexivity|].
  apply (semantic_tokens_deltas_nonnegative ordered_tokens H).
Defined.

End SemanticTokenProofs.

(* ===================================================================== *)
(** ** The analyzer's token types, modifiers and feature strings          *)
(* ===================================================================== *)

Section TokenTypeProofs.
Import Analyzer PyMore AnalyzerTokens ServerFns AuxMore Samples SamplesMore.

Lemma list_index_spec x : forall l i,
  list_index x l = Some i ->
  0 <= i < len l /\ l !! Z.to_nat i = Some x
  /\ forall j : nat, (j < Z.to_nat i)%nat -> l !! j <> Some x.
Proof.
  induction l as [|y l IH]; intros i H; [done|].
  cbn [list_index] in H. unfold str_eqb in H.
  destruct (bool_decide (y = x)) eqn:E.
  - apply bool_decide_eq_true in E as ->. injection H as <-.
    unfold len. cbn [length]. split; [lia|]. split; [done|]. intros j Hj. lia.
  - apply bool_decide_eq_false in E.
    destruct (list_index x l) as [i'|]; [|done]. injection H as <-.
    destruct (IH i' eq_refl) as (Hr & Hl & Hfirst).
    unfold len in *. cbn [length]. split; [lia|].
    replace (Z.to_nat (i' + 1)) with (S (Z.to_nat i')) by lia.
    split; [done|]. intros [|j] Hj; cbn; [congruence|].
    apply Hfirst. lia.
Qed.

Lemma list_index_none x : forall l, list_index x l = None -> x ∉ l.
Proof.
  induction l as [|y l IH]; intros H; [by intros ?%elem_of_nil|].
  cbn [list_index] in H. unfold str_eqb in H.
  destruct (bool_decide (y = x)) eqn:E; [done|].
  apply bool_decide_eq_false in E.
  destruct (list_index x l); [done|].
  intros [->|Hin]%elem_of_cons; [done|]. by apply IH.
Qed.

Lemma dict_get_cases {V} (d : dict V) key default :
  dict_get d key default = default \/ dict_get d key default ∈ d.*2.
Proof.
  induction d as [|[k v] d IH]; [by left|]. cbn [dict_get].
  destruct (str_eqb k key).
  - right. cbn. apply elem_of_cons. by left.
  - destruct IH as [IH|IH]; [by left|]. right. cbn. apply elem_of_cons.
    by right.
Qed.

Lemma map_pos_to_type_listed token : _map_pos_to_type token ∈ TOKEN_TYPES.
Proof.
  unfold _map_pos_to_type. cbv zeta.
  destruct (contains GrammarChecker.JOSHI (tag_ token));
    [vm_compute; repeat constructor|].
  destruct (contains JODOUSHI (tag_ token)); [vm_compute; repeat constructor|].
  destruct (contains SETTOU (tag_ token)); [vm_compute; repeat constructor|].
  destruct (contains GrammarChecker.SETSUBI (tag_ token));
    [vm_compute; repeat constructor|].
  destruct (dict_get_cases pos_map (pos_ token) (lit "unknown")) as [->|H].
  - vm_compute. repeat constructor.
  - revert H. generalize (dict_get pos_map (pos_ token) (lit "unknown")).
    intros ty H. apply list_elem_of_In in H. vm_compute in H.
    apply list_elem_of_In.
    repeat (destruct H as [<-|H]; [vm_compute; tauto|]). done.
Qed.

(** X15. The type index of [_build_semantic_tokens] is always an index of
    TOKEN_TYPES: a listed type gets its own (first) position, an unlisted
    one falls back to 0; and every type [_map_pos_to_type] returns,
    whatever the part of speech and the tag, is listed, so for the
    analyzer's tokens the ValueError fallback is never taken. *)
Theorem type_index_in_range (token_type : list Z) (token : Token) :
  0 <= type_index token_type < len TOKEN_TYPES
  /\ (token_type ∈ TOKEN_TYPES ->
      TOKEN_TYPES !! Z.to_nat (type_index token_type) = Some token_type)
  /\ (token_type ∉ TOKEN_TYPES -> type_index token_type = 0)
  /\ TOKEN_TYPES !! Z.to_nat (type_index (_map_pos_to_type token))
     = Some (_map_pos_to_type token).
Proof.
  assert (Hgen : forall ty,
    0 <= type_index ty < len TOKEN_TYPES
    /\ (ty ∈ TOKEN_TYPES ->
        TOKEN_TYPES !! Z.to_nat (type_index ty) = Some ty)
    /\ (ty ∉ TOKEN_TYPES -> type_index ty = 0)).
  { intros ty. unfold type_index.
    destruct (list_index ty TOKEN_TYPES) as [i|] eqn:E.
    - destruct (list_index_spec _ _ _ E) as (Hr & Hl & _).
      split; [done|]. split; [done|]. intros Hn. exfalso. apply Hn.
      by eapply list_elem_of_lookup_2.
    - apply list_index_none in E. split; [done|]. split; [done|]. done. }
  destruct (Hgen token_type) as (H1 & H2 & H3).
  split; [done|]. split; [done|]. split; [done|].
  apply (Hgen (_map_pos_to_type token)), map_pos_to_type_listed.
Qed.

Lemma kana_not_kanji surface :
  AnalyzerFns._is_all_kana surface = true ->
  AnalyzerFns._is_all_kanji surface = false.
Proof.
  destruct surface as [|c s]; [done|].
  unfold AnalyzerFns._is_all_kana, AnalyzerFns._is_all_kanji.
  cbn [forallb]. intros H. apply andb_true_iff in H as [H _].
  apply andb_false_iff. left. lia.
Qed.

(** X16. [_compute_modifiers] returns a four-bit mask: bit 0 (proper) is
    set exactly when pos_ is PROPN or the tag contains 固有名詞, bit 1
    (numeric) exactly when pos_ is NUM, the surface is all digits or it
    consists of numeric kanji only, bit 2 (kana) exactly when the surface
    is all kana, bit 3 (kanji) exactly when it is all kanji; kana and
    kanji are never set together.  For the empty surface bits 2 and 3 are
    clear but bit 1 is set, since [_is_numeric_kanji] holds vacuously. *)
Theorem modifiers_bitmask (isdigit : list Z -> bool) (token : Token)
  (surface : list Z) :
  let m := _compute_modifiers isdigit token surface in
  0 <= m < 16
  /\ Z.testbit m 0
     = str_eqb (pos_ token) (lit "PROPN")
       || (negb (str_eqb (tag_ token) [])
           && contains KOYUU_MEISHI (tag_ token))
  /\ Z.testbit m 1
     = str_eqb (pos_ token) (lit "NUM") || isdigit surface
       || AnalyzerFns._is_numeric_kanji surface
  /\ Z.testbit m 2 = AnalyzerFns._is_all_kana surface
  /\ Z.testbit m 3 = AnalyzerFns._is_all_kanji surface
  /\ (Z.testbit m 2 && Z.testbit m 3 = false)
  /\ (surface = [] ->
      Z.testbit m 1 = true /\ Z.testbit m 2 = false /\ Z.testbit m 3 = false).
Proof.
  intros m. subst m. unfold _compute_modifiers. cbv zeta.
  pose proof (kana_not_kanji surface) as Hex.
  assert (Hempty : surface = [] ->
    AnalyzerFns._is_numeric_kanji surface = true
    /\ AnalyzerFns._is_all_kana surface = false
    /\ AnalyzerFns._is_all_kanji surface = false) by (by intros ->).
  destruct (str_eqb (pos_ token) (lit "PROPN")
            || (negb (str_eqb (tag_ token) [])
                && contains KOYUU_MEISHI (tag_ token)));
    destruct (str_eqb (pos_ token) (lit "NUM") || isdigit surface) eqn:E1;
    destruct (AnalyzerFns._is_numeric_kanji surface) eqn:E2;
    destruct (AnalyzerFns._is_all_kana surface) eqn:E3;
    destruct (AnalyzerFns._is_all_kanji surface) eqn:E4;
    try (specialize (Hex eq_refl); discriminate);
    rewrite ?orb_true_r, ?orb_false_r; cbv -[Z.le Z.lt];
    (split; [lia|]); do 5 (split; [done|]);
    intros Hs; destruct (Hempty Hs) as (? & ? & ?); done.
Qed.

End TokenTypeProofs.

Section AnalyzerTokenProofs.
Import Analyzer PyMore AnalyzerTokens AuxMore Samples SamplesMore.

Lemma part_or_nth parts (i : nat) default :
  part_or parts (Z.of_nat i) default = Ok (nth i parts default).
Proof.
  unfold part_or. destruct (Z.of_nat i <? len parts) eqn:E.
  - apply Z.ltb_lt in E. unfold len in E.
    destruct (getitem_in_range parts (Z.of_nat i)) as (x & -> & Hx);
      [unfold len; lia|].
    rewrite Nat2Z.id in Hx. f_equal. symmetry.
    by apply nth_lookup_Some with (d := default) in Hx.
  - apply Z.ltb_ge in E. unfold len in E.
    by rewrite nth_overflow by lia.
Qed.

Lemma build_feature_string_spec token :
  _build_feature_string token
  = Ok (join GrammarChecker.COMMA (feature_fields token)).
Proof.
  unfold _build_feature_string. cbv zeta. fold (tag_parts token).
  rewrite (part_or_nth _ 0), bind_ok, (part_or_nth _ 1), bind_ok.
  by rewrite (part_or_nth _ 2), bind_ok, (part_or_nth _ 3), bind_ok.
Qed.

Lemma split_free sep s : sep ∉ s -> split sep s = [s].
Proof.
  induction s as [|c s IH]; [done|]. intros H.
  apply not_elem_of_cons in H as [Hc Hs]. cbn [split].
  rewrite (proj2 (Z.eqb_neq c sep)) by congruence. by rewrite (IH Hs).
Qed.

Lemma split_app_sep sep a b :
  sep ∉ a -> split sep (a ++ sep :: b) = a :: split sep b.
Proof.
  induction a as [|c a IH]; intros H.
  - cbn [app split]. by rewrite Z.eqb_refl.
  - apply not_elem_of_cons in H as [Hc Ha]. cbn [app split].
    rewrite (proj2 (Z.eqb_neq c sep)) by congruence. by rewrite (IH Ha).
Qed.

Lemma split_join_free sep : forall parts,
  parts <> [] -> Forall (fun p => sep ∉ p) parts ->
  split sep (join sep parts) = parts.
Proof.
  induction parts as [|p rest IH]; [done|]. intros _ Hf.
  apply Forall_cons in Hf as [Hp Hrest]. destruct rest as [|q rest].
  - by apply split_free.
  - change (join sep (p :: q :: rest)) with (p ++ sep :: join sep (q :: rest)).
    rewrite split_app_sep by done. by rewrite IH.
Qed.

Lemma split_app_length sep : forall a b,
  length (split sep (a ++ sep :: b))
  = (length (split sep a) + length (split sep b))%nat.
Proof.
  induction a as [|c a IH]; intros b.
  - cbn [app split]. by rewrite Z.eqb_refl.
  - cbn [app split]. destruct (c =? sep).
    + cbn [length]. by rewrite IH.
    + specialize (IH b).
      destruct (split sep (a ++ sep :: b)) as [|h tl] eqn:E1;
        [by apply split_nonempty in E1|].
      destruct (split sep a) as [|h' tl'] eqn:E2;
        [by apply split_nonempty in E2|].
      exact IH.
Qed.

Lemma split_join_length sep : forall parts,
  (length parts <= length (split sep (join sep parts)))%nat
  \/ parts = [].
Proof.
  induction parts as [|p rest IH]; [by right|]. left.
  destruct rest as [|q rest].
  - cbn [join length].
    destruct (split sep p) eqn:E; [by apply split_nonempty in E|simpl; lia].
  - change (join sep (p :: q :: rest)) with (p ++ sep :: join sep (q :: rest)).
    rewrite split_app_length. destruct IH as [IH|IH]; [|done].
    destruct (split sep p) eqn:E; [by apply split_nonempty in E|].
    cbn [length] in *. lia.
Qed.

Lemma split_parts_free c sep : forall s,
  c ∉ s -> Forall (fun p => c ∉ p) (split sep s).
Proof.
  induction s as [|x s IH]; intros H.
  - by constructor.
  - apply not_elem_of_cons in H as [Hx Hs]. specialize (IH Hs).
    cbn [split]. destruct (x =? sep).
    + constructor; [by intros ?%elem_of_nil|done].
    + destruct (split sep s) as [|h tl]; [by repeat constructor;
        intros [?|?%elem_of_nil]%elem_of_cons|].
      apply Forall_cons in IH as [Hh Htl]. constructor; [|done].
      intros [?|?]%elem_of_cons; done.
Qed.

Lemma nth_free c (parts : list (list Z)) i default :
  Forall (fun p => c ∉ p) parts -> c ∉ default -> c ∉ nth i parts default.
Proof.
  intros Hf Hd. revert i. induction Hf as [|p ps Hp Hps IH]; intros [|i];
    simpl; auto.
Qed.

(** X17. The feature string of a token always has at least nine
    comma-separated fields, so the grammar checker's guards on short
    feature records never apply to it; and when neither the token's tag,
    part of speech and lemma nor its inflection, verb form and reading
    contain a comma, splitting the string at the commas gives exactly the
    nine fields: the first four hyphen-separated parts of the tag (the
    part of speech and "*" where the tag has none), the inflection, the
    verb form, the lemma, and the reading twice -- so [_is_adversative_ga]
    compares the first, second and seventh of them. *)
Theorem feature_string_fields (token : Token) :
  exists feature,
    _build_feature_string token = Ok feature
    /\ 9 <= len (split GrammarChecker.COMMA feature)
    /\ (Forall (fun s => GrammarChecker.COMMA ∉ s)
          [pos_ token; tag_ token; lemma_ token;
           dict_get (morph token) (lit "Inflection") (lit "*");
           dict_get (morph token) (lit "VerbForm") (lit "*");
           _get_reading token] ->
        split GrammarChecker.COMMA feature = feature_fields token
        /\ GrammarChecker._is_adversative_ga feature
           = Ok (str_eqb (nth 0 (tag_parts token) (pos_ token))
                   GrammarChecker.JOSHI
                 && str_eqb (nth 1 (tag_parts token) (lit "*"))
                      GrammarChecker.SETSUZOKU_JOSHI
                 && str_eqb (lemma_ token) GrammarChecker.GA)).
Proof.
  exists (join GrammarChecker.COMMA (feature_fields token)).
  split; [apply build_feature_string_spec|]. split.
  - destruct (split_join_length GrammarChecker.COMMA (feature_fields token))
      as [H|H]; [|done].
    unfold len. cbn [feature_fields length] in H. lia.
  - intros Hf.
    apply Forall_cons in Hf as [Hpos Hf]. apply Forall_cons in Hf as [Htag Hf].
    apply Forall_cons in Hf as [Hlem Hf]. apply Forall_cons in Hf as [Hinf Hf].
    apply Forall_cons in Hf as [Hvf Hf]. apply Forall_cons in Hf as [Hrd _].
    assert (Hparts : Forall (fun p => GrammarChecker.COMMA ∉ p)
                       (tag_parts token)).
    { unfold tag_parts. destruct (tag_ token) eqn:E; [constructor|].
      rewrite <- E in *. by apply split_parts_free. }
    assert (Hstar : GrammarChecker.COMMA ∉ lit "*").
    { vm_compute. intros [?|?%elem_of_nil]%elem_of_cons; done. }
    assert (Hsplit : split GrammarChecker.COMMA
                       (join GrammarChecker.COMMA (feature_fields token))
                     = feature_fields token).
    { apply split_join_free; [done|].
      unfold feature_fields. repeat constructor; try done;
        by apply nth_free. }
    split; [done|].
    unfold GrammarChecker._is_adversative_ga. cbv zeta. rewrite Hsplit.
    reflexivity.
Qed.

(** は with the tag 助詞-係助詞 and the reading ハ. *)
Example feature_string_sample :
  _build_feature_string ha_spacy_token
  = Ok (join GrammarChecker.COMMA
          [GrammarChecker.JOSHI; KAKARI_JOSHI; lit "*"; lit "*"; lit "*";
           lit "*"; HA; [0x30cf]; [0x30cf]])
  /\ Forall (fun s => GrammarChecker.COMMA ∉ s)
        [pos_ ha_spacy_token; tag_ ha_spacy_token; lemma_ ha_spacy_token;
         dict_get (morph ha_spacy_token) (lit "Inflection") (lit "*");
         dict_get (morph ha_spacy_token) (lit "VerbForm") (lit "*");
         _get_reading ha_spacy_token].
Proof.
  split; [reflexivity|].
  repeat constructor; vm_compute; intros H;
    repeat (apply elem_of_cons in H as [H|H]; [done|]);
    by apply elem_of_nil in H.
Qed.

Lemma token_to_data_spec isdigit token text (i m n k : nat) l :
  is_space token = false ->
  idx token = Z.of_nat i ->
  AnalyzerTokens.text token = take m (drop i text) ->
  (i + m <= length text)%nat ->
  split NL text !! n = Some l -> (k <= length l)%nat ->
  i = (line_offset n (split NL text) + k)%nat ->
  exists data,
    _token_to_data isdigit token text (AnalyzerFns._compute_line_starts text)
    = Ok (Some data)
    /\ surface data = AnalyzerTokens.text token
    /\ line data = Z.of_nat n
    /\ start_char data = AnalyzerFns._utf8_to_utf16_length (take k l)
    /\ end_char data
       = start_char data
         + AnalyzerFns._utf8_to_utf16_length (AnalyzerTokens.text token).
Proof.
  intros Hsp Hidx Htext Hlen Hn Hk Hi.
  destruct (split_cover text (i + m) Hlen)
    as (n' & l' & k' & Hn' & Hk' & Hend).
  unfold _token_to_data. rewrite Hsp, Hidx. cbv zeta.
  assert (len (AnalyzerTokens.text token) = Z.of_nat m) as ->.
  { rewrite Htext. unfold len. rewrite length_take, length_drop. lia. }
  rewrite <- Nat2Z.inj_add. rewrite Hend.
  replace (Z.of_nat i) with (Z.of_nat (line_offset n (split NL text) + k))
    by lia.
  rewrite (char_offset_to_position_spec text n l k Hn Hk). ok_step.
  rewrite (char_offset_to_position_spec text n' l' k' Hn' Hk'). ok_step.
  rewrite build_feature_string_spec. ok_step.
  eexists. split; [done|]. cbn [surface line start_char end_char
                                pos_line pos_character].
  split; [done|]. split; [done|]. split; [done|].
  unfold AnalyzerFns._utf8_to_utf16_length.
  destruct (Z.of_nat n =? Z.of_nat n') eqn:E; [|done].
  apply Z.eqb_eq in E. assert (n' = n) as -> by lia.
  assert (l' = l) as -> by congruence.
  assert (k' = (k + m)%nat) as -> by lia.
  destruct (drop_in_line text n l k Hn Hk) as (rest & Hr & _).
  rewrite <- Hi in Hr. rewrite Htext, Hr.
  rewrite (take_app_le (drop k l)) by (rewrite length_drop; lia).
  by rewrite take_take_drop, utf16_length_app.
Qed.

(** X9. The positions [_token_to_data] computes for a token that is not
    white space, starts at character [idx] of the text and carries the
    text found there: the result is a TokenData whose surface is the token
    text, whose line is the line containing [idx], whose start_char is the
    UTF-16 length of that line before [idx], and whose end_char is always
    start_char plus the UTF-16 length of the token text, whether the
    token ends on the line on which it starts or not. *)
Theorem token_to_data_positions (isdigit : list Z -> bool) (token : Token)
  (text : list Z) :
  is_space token = false ->
  token_of_text text token ->
  exists (n k : nat) (l : list Z) (data : TokenData),
    split NL text !! n = Some l
    /\ (k <= length l)%nat
    /\ idx token = Z.of_nat (line_offset n (split NL text) + k)
    /\ _token_to_data isdigit token text
         (AnalyzerFns._compute_line_starts text) = Ok (Some data)
    /\ surface data = AnalyzerTokens.text token
    /\ line data = Z.of_nat n
    /\ start_char data = AnalyzerFns._utf8_to_utf16_length (take k l)
    /\ end_char data
       = start_char data
         + AnalyzerFns._utf8_to_utf16_length (AnalyzerTokens.text token).
Proof.
  intros Hsp (i & m & Hidx & Htext & Hlen).
  destruct (split_cover text i ltac:(lia)) as (n & l & k & Hn & Hk & Hi).
  destruct (token_to_data_spec isdigit token text i m n k l
              Hsp Hidx Htext Hlen Hn Hk Hi) as (data & Hd & H1 & H2 & H3 & H4).
  exists n, k, l, data. split; [done|]. split; [done|].
  split; [by rewrite Hidx, Hi|]. done.
Qed.

Lemma token_to_data_positions_witness :
  is_space emoji_spacy_token = false
  /\ token_of_text emoji_text emoji_spacy_token
  /\ exists (n k : nat) (l : list Z) (data : TokenData),
       split NL emoji_text !! n = Some l
       /\ (k <= length l)%nat
       /\ idx emoji_spacy_token
          = Z.of_nat (line_offset n (split NL emoji_text) + k)
       /\ _token_to_data (fun _ => false) emoji_spacy_token emoji_text
            (AnalyzerFns._compute_line_starts emoji_text) = Ok (Some data)
       /\ surface data = AnalyzerTokens.text emoji_spacy_token
       /\ line data = Z.of_nat n
       /\ start_char data = AnalyzerFns._utf8_to_utf16_length (take k l)
       /\ end_char data
          = start_char data
            + AnalyzerFns._utf8_to_utf16_length
                (AnalyzerTokens.text emoji_spacy_token).
Proof.
  assert (token_of_text emoji_text emoji_spacy_token) as H.
  { exists 4%nat, 1%nat. split; [reflexivity|]. split; [reflexivity|].
    simpl. lia. }
  split; [reflexivity|]. split; [exact H|].
  apply (token_to_data_positions (fun _ => false) emoji_spacy_token
           emoji_text); [reflexivity|exact H].
Defined.

(** X10. Analyzer and grammar checker agree on where a token is: the
    TokenData that [_token_to_data] builds for a token at character [idx]
    of a text that encodes is mapped by the grammar checker's
    [_to_byte_offset] to the UTF-8 length of the text before [idx], the
    byte offset of the token's first character. *)
Theorem analyzer_token_byte_offset (isdigit : list Z -> bool) (token : Token)
  (text : list Z) (i : nat) (data : TokenData) :
  wf_text text = true ->
  token_of_text text token ->
  idx token = Z.of_nat i ->
  _token_to_data isdigit token text (AnalyzerFns._compute_line_starts text)
  = Ok (Some data) ->
  GrammarChecker._to_byte_offset data text
    (GrammarChecker._compute_line_starts text)
  = Ok (utf8_len (take i text)).
Proof.
  intros Hwf (i' & m & Hidx & Htext & Hlen) Hi Hdata.
  assert (i' = i) as -> by lia.
  destruct (is_space token) eqn:Hsp.
  { unfold _token_to_data in Hdata. by rewrite Hsp in Hdata. }
  destruct (split_cover text i ltac:(lia)) as (n & l & k & Hn & Hk & Hik).
  destruct (token_to_data_spec isdigit token text i m n k l
              Hsp Hidx Htext Hlen Hn Hk Hik)
    as (data' & Hd & H1 & H2 & H3 & H4).
  rewrite Hd in Hdata. injection Hdata as ->.
  rewrite (to_byte_offset_line text data n l Hwf H2 Hn).
  rewrite H3. unfold AnalyzerFns._utf8_to_utf16_length.
  rewrite walk_line_prefix by done. by rewrite Nat2Z.id, <- Hik.
Qed.

Lemma analyzer_token_byte_offset_witness :
  wf_text emoji_text = true
  /\ token_of_text emoji_text emoji_spacy_token
  /\ idx emoji_spacy_token = Z.of_nat 4
  /\ _token_to_data (fun _ => false) emoji_spacy_token emoji_text
       (AnalyzerFns._compute_line_starts emoji_text)
     = Ok (Some (mkTokenData [0x1F600]
                   (join GrammarChecker.COMMA
                      (feature_fields emoji_spacy_token))
                   [0x1F600] [0x1F600] [0x1F600] (lit "symbol") 0 1 1 3))
  /\ GrammarChecker._to_byte_offset
       (mkTokenData [0x1F600]
          (join GrammarChecker.COMMA (feature_fields emoji_spacy_token))
          [0x1F600] [0x1F600] [0x1F600] (lit "symbol") 0 1 1 3)
       emoji_text (GrammarChecker._compute_line_starts emoji_text)
     = Ok (utf8_len (take 4 emoji_text)).
Proof.
  assert (token_of_text emoji_text emoji_spacy_token) as H.
  { exists 4%nat, 1%nat. split; [reflexivity|]. split; [reflexivity|].
    simpl. lia. }
  split; [reflexivity|]. split; [exact H|]. split; [reflexivity|].
  split; [reflexivity|].
  apply (analyzer_token_byte_offset (fun _ => false) emoji_spacy_token
           emoji_text 4); [reflexivity|exact H|reflexivity|reflexivity].
Defined.

(** X18. The loop of [analyze_text], run on tokens that lie in the text,
    returns one TokenData for each token that is not white space, in
    order, its surface being the token's text; every one of them has a
    line number that is not negative, and when the text encodes a surface
    that encodes: the tokens meet what [check_grammar] needs to return
    normally. *)
Theorem analyze_loop_tokens (isdigit : list Z -> bool) (doc : list Token)
  (text : list Z) :
  Forall (token_of_text text) doc ->
  exists tokens,
    analyze_loop isdigit doc text (AnalyzerFns._compute_line_starts text) []
    = Ok tokens
    /\ map surface tokens
       = map AnalyzerTokens.text
           (filter (fun t => is_space t = false) doc)
    /\ Forall (fun t => 0 <= line t) tokens
    /\ (wf_text text = true ->
        Forall (fun t => 0 <= line t /\ wf_text (surface t) = true) tokens).
Proof.
  intros Hdoc.
  enough (forall acc,
    exists new,
      analyze_loop isdigit doc text (AnalyzerFns._compute_line_starts text)
        acc = Ok (acc ++ new)
      /\ map surface new
         = map AnalyzerTokens.text (filter (fun t => is_space t = false) doc)
      /\ Forall (fun t => 0 <= line t) new
      /\ (wf_text text = true ->
          Forall (fun t => 0 <= line t /\ wf_text (surface t) = true) new))
    as H by apply (H []).
  induction Hdoc as [|tk doc Htk Hdoc IH]; intros acc.
  - exists []. rewrite app_nil_r. by repeat split.
  - cbn [analyze_loop]. destruct (is_space tk) eqn:Hsp.
    + unfold _token_to_data. rewrite Hsp. ok_step.
      destruct (IH acc) as (new & -> & H1 & H2 & H3).
      exists new. split; [done|].
      rewrite filter_cons_False by (by rewrite Hsp). done.
    + pose proof Htk as (i & m & Hidx & Htext & Hlen).
      destruct (split_cover text i ltac:(lia)) as (n & l & k & Hn & Hk & Hik).
      destruct (token_to_data_spec isdigit tk text i m n k l
                  Hsp Hidx Htext Hlen Hn Hk Hik)
        as (data & -> & D1 & D2 & D3 & D4).
      ok_step. destruct (IH (acc ++ [data])) as (new & -> & H1 & H2 & H3).
      exists (data :: new). split; [by rewrite <- app_assoc|].
      rewrite filter_cons_True by done. cbn [map].
      split; [by rewrite D1, H1|].
      split; [constructor; [lia|done]|].
      intros Hwf. constructor; [|by apply H3].
      split; [lia|]. rewrite D1, Htext.
      by apply wf_text_take, wf_text_drop.
Qed.

Lemma analyze_loop_tokens_witness :
  Forall (token_of_text emoji_text) [emoji_spacy_token]
  /\ exists tokens,
       analyze_loop (fun _ => false) [emoji_spacy_token] emoji_text
         (AnalyzerFns._compute_line_starts emoji_text) [] = Ok tokens
       /\ map surface tokens
          = map AnalyzerTokens.text
              (filter (fun t => is_space t = false) [emoji_spacy_token])
       /\ Forall (fun t => 0 <= line t) tokens
       /\ (wf_text emoji_text = true ->
           Forall (fun t => 0 <= line t /\ wf_text (surface t) = true)
                  tokens).
Proof.
  assert (Forall (token_of_text emoji_text) [emoji_spacy_token]) as H.
  { repeat constructor. exists 4%nat, 1%nat.
    split; [reflexivity|]. split; [reflexivity|]. simpl. lia. }
  split; [exact H|].
  apply (analyze_loop_tokens (fun _ => false) [emoji_spacy_token] emoji_text H).
Defined.

End AnalyzerTokenProofs.

(* ===================================================================== *)
(** ** LaTeX comments                                                     *)
(* ===================================================================== *)

Section LatexProofs.
Import PyMore LatexComments AuxMore Samples SamplesMore.

Lemma odd_mod2 (n : nat) : (Z.of_nat n mod 2 =? 1) = Nat.odd n.
Proof.
  destruct (Nat.Even_or_Odd n) as [[k ->]|[k ->]].
  - rewrite Nat.odd_even.
    replace (Z.of_nat (2 * k)) with (Z.of_nat k * 2) by lia.
    by rewrite Z.mod_mul.
  - rewrite Nat.odd_odd.
    replace (Z.of_nat (2 * k + 1)) with (1 + Z.of_nat k * 2) by lia.
    by rewrite Z.mod_add.
Qed.

Lemma getitem_nat {A} (l : list A) (i : nat) x :
  l !! i = Some x -> getitem l (Z.of_nat i) = Ok x.
Proof.
  intros H. pose proof (lookup_lt_Some _ _ _ H).
  destruct (getitem_in_range l (Z.of_nat i)) as (y & -> & Hy);
    [unfold len; lia|].
  rewrite Nat2Z.id in Hy. congruence.
Qed.

Lemma escaped_count_spec text : forall fuel (pos count : nat),
  (count <= pos <= length text)%nat -> (pos - count < fuel)%nat ->
  escaped_count fuel text (Z.of_nat pos) (Z.of_nat count)
  = Ok (Z.of_nat (count + run (Z.eqb BACKSLASH)
                            (rev (take (pos - count) text)))).
Proof.
  induction fuel as [|f IH]; intros pos count Hc Hf; [lia|].
  cbn [escaped_count]. destruct (Z.of_nat count <? Z.of_nat pos) eqn:E.
  - apply Z.ltb_lt in E.
    destruct (lookup_lt_is_Some_2 text (pos - count - 1) ltac:(lia)) as (c & Hcx).
    replace (Z.of_nat pos - Z.of_nat count - 1)
      with (Z.of_nat (pos - count - 1)) by lia.
    rewrite (getitem_nat _ _ _ Hcx). ok_step.
    replace (pos - count)%nat with (S (pos - count - 1)) by lia.
    rewrite (take_S_r _ _ _ Hcx), rev_app_distr. cbn [rev app run].
    rewrite (Z.eqb_sym BACKSLASH c). destruct (c =? BACKSLASH).
    + replace (Z.of_nat count + 1) with (Z.of_nat (S count)) by lia.
      rewrite IH by lia.
      replace (pos - S count)%nat with (pos - count - 1)%nat by lia.
      f_equal. lia.
    + f_equal. lia.
  - apply Z.ltb_ge in E. replace (pos - count)%nat with O by lia.
    rewrite take_0. cbn [rev run]. f_equal. lia.
Qed.

Lemma is_escaped_spec text (pos : nat) :
  (pos <= length text)%nat ->
  _is_escaped text (Z.of_nat pos)
  = Ok (Nat.odd (run (Z.eqb BACKSLASH) (rev (take pos text)))).
Proof.
  intros Hp. unfold _is_escaped.
  rewrite (escaped_count_spec text _ pos 0) by lia. ok_step.
  rewrite Nat.sub_0_r, Nat.add_0_l. by rewrite odd_mod2.
Qed.

(** X19. [_is_escaped(text, pos)], for a position within the text or at
    its end, tells whether the number of backslashes that stand directly
    before [pos] is odd.  A position that is zero or negative is never
    escaped, and a position past the end of the text makes the subscript
    [text[pos - 1]] raise IndexError. *)
Theorem is_escaped_counts_backslashes (text : list Z) :
  (forall pos : nat, (pos <= length text)%nat ->
     _is_escaped text (Z.of_nat pos)
     = Ok (Nat.odd (run (Z.eqb BACKSLASH) (rev (take pos text)))))
  /\ (forall pos : Z, pos <= 0 -> _is_escaped text pos = Ok false)
  /\ (forall pos : Z, len text < pos ->
        _is_escaped text pos = Raise IndexError).
Proof.
  split; [apply is_escaped_spec|]. split.
  - intros pos Hp. unfold _is_escaped. cbn [escaped_count].
    by ltb_false.
  - intros pos Hp. unfold _is_escaped. cbn [escaped_count].
    pose proof (len_nonneg text). ltb_true.
    unfold getitem, index.
    replace ((0 <=? pos - 0 - 1) && (pos - 0 - 1 <? len text)) with false
      by (symmetry; apply andb_false_iff; right; lia).
    replace ((- len text <=? pos - 0 - 1) && (pos - 0 - 1 <? 0)) with false
      by (symmetry; apply andb_false_iff; right; lia).
    done.
Qed.

Lemma comment_start_spec text : forall fuel (cur e : nat),
  (cur <= e <= length text)%nat -> (e - cur <= fuel)%nat ->
  exists r,
    comment_start fuel text (Z.of_nat cur) (Z.of_nat e) = Ok r
    /\ match r with
       | Some c' =>
           exists c : nat,
             c' = Z.of_nat c /\ (cur <= c < e)%nat
             /\ unescaped_at PERCENT text c
             /\ forall j, (cur <= j < c)%nat -> ~ unescaped_at PERCENT text j
       | None =>
           forall j, (cur <= j < e)%nat -> ~ unescaped_at PERCENT text j
       end.
Proof.
  induction fuel as [|f IH]; intros cur e Hc Hf.
  - exists None. split; [done|]. intros j Hj. lia.
  - cbn [comment_start]. destruct (Z.of_nat cur <? Z.of_nat e) eqn:E.
    2:{ apply Z.ltb_ge in E. exists None. split; [done|]. intros j Hj. lia. }
    apply Z.ltb_lt in E.
    destruct (lookup_lt_is_Some_2 text cur ltac:(lia)) as (c & Hcx).
    rewrite (getitem_nat _ _ _ Hcx). ok_step.
    rewrite (is_escaped_spec text cur) by lia.
    set (esc := Nat.odd (run (Z.eqb BACKSLASH) (rev (take cur text)))).
    assert (Hesc : _is_escaped text (Z.of_nat cur) = Ok esc)
      by (by apply is_escaped_spec; lia).
    destruct (c =? PERCENT) eqn:Ec.
    + apply Z.eqb_eq in Ec. subst c. ok_step. ok_step.
      destruct esc eqn:Eesc; cbn [negb].
      * replace (Z.of_nat cur + 1) with (Z.of_nat (S cur)) by lia.
        destruct (IH (S cur) e ltac:(lia) ltac:(lia)) as (r & -> & Hr).
        exists r. split; [done|]. destruct r as [c'|].
        -- destruct Hr as (c & -> & Hrange & Hun & Hfirst).
           exists c. split; [done|]. split; [lia|]. split; [done|].
           intros j Hj. destruct (decide (j = cur)) as [->|Hne].
           ++ intros [_ H]. rewrite Hesc in H. done.
           ++ apply Hfirst. lia.
        -- intros j Hj. destruct (decide (j = cur)) as [->|Hne].
           ++ intros [_ H]. rewrite Hesc in H. done.
           ++ apply Hr. lia.
      * exists (Some (Z.of_nat cur)). split; [done|]. exists cur.
        split; [done|]. split; [lia|]. split; [by split|].
        intros j Hj. lia.
    + apply Z.eqb_neq in Ec. ok_step.
      replace (Z.of_nat cur + 1) with (Z.of_nat (S cur)) by lia.
      destruct (IH (S cur) e ltac:(lia) ltac:(lia)) as (r & -> & Hr).
      exists r. split; [done|]. destruct r as [c'|].
      * destruct Hr as (c0 & -> & Hrange & Hun & Hfirst).
        exists c0. split; [done|]. split; [lia|]. split; [done|].
        intros j Hj. destruct (decide (j = cur)) as [->|Hne].
        -- intros [H _]. congruence.
        -- apply Hfirst. lia.
      * intros j Hj. destruct (decide (j = cur)) as [->|Hne].
        -- intros [H _]. congruence.
        -- apply Hr. lia.
Qed.

(** A text splits at its first newline. *)
Lemma span_newline : forall s : list Z,
  exists l rest,
    s = l ++ rest /\ (NL ∉ l) /\ (rest = [] \/ exists r, rest = NL :: r).
Proof.
  induction s as [|c s (l & rest & -> & Hl & Hrest)].
  - exists [], []. split; [done|]. split; [by intros ?%elem_of_nil|by left].
  - destruct (decide (c = NL)) as [->|Hc].
    + exists [], (NL :: l ++ rest). split; [done|].
      split; [by intros ?%elem_of_nil|]. right. eauto.
    + exists (c :: l), rest. split; [done|]. split; [|done].
      intros [?|?]%elem_of_cons; done.
Qed.

Lemma find_from_line text (pos : nat) l rest :
  (pos <= length text)%nat ->
  drop pos text = l ++ rest -> NL ∉ l ->
  (rest = [] \/ exists r, rest = NL :: r) ->
  (if find_from NL text (Z.of_nat pos) =? -1 then len text
   else find_from NL text (Z.of_nat pos))
  = Z.of_nat (pos + length l).
Proof.
  intros Hp Hd Hl Hrest. unfold find_from. cbv zeta.
  rewrite clip_nat, Nat.min_l by done. rewrite Hd.
  assert (length text = (pos + length (l ++ rest))%nat) as Hlen.
  { rewrite <- Hd, length_drop. lia. }
  destruct Hrest as [->|(r & ->)].
  - rewrite app_nil_r in *. rewrite find_no_newline by done.
    cbn. unfold len. lia.
  - rewrite find_first_newline by done. pose proof (len_nonneg l).
    ltb_false. unfold len in *.
    destruct (Z.of_nat pos + Z.of_nat (length l) =? -1) eqn:E;
      [apply Z.eqb_eq in E; lia|]. lia.
Qed.

Lemma utf8_len_take_lt text (a b : nat) :
  (a < b <= length text)%nat -> utf8_len (take a text) < utf8_len (take b text).
Proof.
  intros H. replace b with (a + (b - a))%nat by lia.
  rewrite take_take_drop, utf8_len_app.
  destruct (drop a text) as [|c rest] eqn:E.
  - apply (f_equal length) in E. rewrite length_drop in E. simpl in E. lia.
  - destruct (b - a)%nat as [|k] eqn:Ek; [lia|]. cbn [take utf8_len].
    pose proof (utf8_len_nonneg (take k rest)).
    unfold char_width. repeat destruct (_ <? _); lia.
Qed.

Lemma latex_segments_extend text pos pos' segs :
  (pos <= pos')%nat ->
  (forall j, (pos <= j < pos')%nat -> ~ unescaped_at PERCENT text j) ->
  latex_segments text pos' segs -> latex_segments text pos segs.
Proof.
  intros Hp Hno. destruct segs as [|seg rest]; cbn [latex_segments].
  - intros H j Hj. destruct (decide (j < pos')%nat); [apply Hno; lia|].
    apply H. lia.
  - intros (c & e & Hc & Hfirst & Hseg & Hrest). exists c, e.
    split; [lia|]. split; [|done].
    intros j Hj. destruct (decide (j < pos')%nat); [apply Hno; lia|].
    apply Hfirst. lia.
Qed.

Lemma latex_lines_spec text :
  wf_text text = true ->
  forall fuel (pos : nat) segs,
  (pos <= length text)%nat -> (length text - pos <= fuel)%nat ->
  exists new,
    latex_lines fuel text (Z.of_nat pos) segs = Ok (segs ++ new)
    /\ latex_segments text pos new.
Proof.
  intros Hwf. induction fuel as [|f IH]; intros pos segs Hp Hf.
  - exists []. rewrite app_nil_r. split; [done|]. intros j Hj. lia.
  - cbn [latex_lines]. destruct (Z.of_nat pos <? len text) eqn:E.
    2:{ apply Z.ltb_ge in E. unfold len in E. exists []. rewrite app_nil_r.
        split; [done|]. intros j Hj. lia. }
    apply Z.ltb_lt in E. unfold len in E. cbv zeta.
    destruct (span_newline (drop pos text)) as (l & rest & Hd & Hl & Hrest).
    rewrite (find_from_line text pos l rest Hp Hd Hl Hrest).
    assert (length text = (pos + length (l ++ rest))%nat) as Hlen.
    { rewrite <- Hd, length_drop. lia. }
    rewrite length_app in Hlen.
    set (e := (pos + length l)%nat) in *.
    replace (Z.of_nat e - Z.of_nat pos) with (Z.of_nat (length l))
      by (unfold e; lia).
    rewrite Nat2Z.id.
    destruct (comment_start_spec text (length l) pos e
                ltac:(unfold e; lia) ltac:(unfold e; lia)) as (r & -> & Hr).
    ok_step.
    assert (Hend : e = length text \/ text !! e = Some NL).
    { destruct Hrest as [->|(r0 & ->)]; [left; simpl in Hlen; lia|].
      right. rewrite <- (take_drop pos text), Hd.
      rewrite lookup_app_r by (rewrite length_take; lia).
      rewrite length_take, Nat.min_l by lia.
      replace (e - pos)%nat with (length l) by (unfold e; lia).
      by rewrite list_lookup_middle. }
    assert (Hnl : ~ unescaped_at PERCENT text e).
    { intros [H _]. destruct Hend as [He|He].
      - apply lookup_lt_Some in H. lia.
      - rewrite He in H. done. }
    destruct r as [c'|].
    + destruct Hr as (c & -> & Hrange & Hun & Hfirst).
      rewrite !slice_to_nat.
      destruct (encode_wf (take c text) (wf_text_take c text Hwf))
        as (b1 & Hb1 & L1).
      destruct (encode_wf (take e text) (wf_text_take e text Hwf))
        as (b2 & Hb2 & L2).
      rewrite Hb1. ok_step. rewrite Hb2. ok_step.
      rewrite L1, L2.
      rewrite slice_nat by lia. ok_step.
      set (seg := mkCommentSegment _ _ _).
      assert (Hseg : latex_segment text c e seg).
      { split; [lia|]. split; [done|]. split; [done|]. split; [done|].
        split; [|done].
        intros Hin. apply Hl.
        assert (drop c text = drop (c - pos) l ++ rest) as Hdc.
        { replace c with (pos + (c - pos))%nat at 1 by lia.
          rewrite <- drop_drop, Hd. apply drop_app_le. unfold e in *. lia. }
        rewrite Hdc in Hin.
        rewrite take_app_le in Hin
          by (rewrite length_drop; unfold e in *; lia).
        apply elem_of_take in Hin as (i & Hi & _).
        rewrite lookup_drop in Hi. by eapply list_elem_of_lookup_2. }
      destruct (len text <=? Z.of_nat e) eqn:E2.
      * apply Z.leb_le in E2. unfold len in E2.
        exists [seg]. split; [done|]. exists c, e.
        split; [lia|]. split; [done|]. split; [done|].
        intros j Hj. lia.
      * apply Z.leb_gt in E2. unfold len in E2.
        replace (Z.of_nat e + 1) with (Z.of_nat (S e)) by lia.
        destruct (IH (S e) (segs ++ [seg]) ltac:(lia) ltac:(unfold e in *; lia))
          as (new & -> & Hnew).
        exists (seg :: new). split; [by rewrite <- app_assoc|].
        exists c, e. split; [lia|]. done.
    + ok_step. destruct (len text <=? Z.of_nat e) eqn:E2.
      * apply Z.leb_le in E2. unfold len in E2.
        exists []. rewrite app_nil_r. split; [done|].
        intros j Hj. apply Hr. lia.
      * apply Z.leb_gt in E2. unfold len in E2.
        replace (Z.of_nat e + 1) with (Z.of_nat (S e)) by lia.
        destruct (IH (S e) segs ltac:(lia) ltac:(unfold e in *; lia))
          as (new & -> & Hnew).
        exists new. split; [done|].
        apply (latex_segments_extend text pos (S e)); [unfold e; lia| |done].
        intros j Hj. destruct (decide (j = e)) as [->|Hne]; [done|].
        apply Hr. lia.
Qed.

(** X20. On a text that encodes, [_extract_latex_comments] returns the
    comments of the text in order, one for each line that holds an
    unescaped percent sign: the segment starts at the first such sign of
    the line and ends at the end of the line (before the newline), its byte
    bounds are the UTF-8 lengths of the text before its start and its end,
    and its sanitized text is [_sanitize_latex_comment] of that part of the
    line; no unescaped percent sign of the text lies outside the lines of
    the segments. *)
Theorem extract_latex_comments_spec (text : list Z) :
  wf_text text = true ->
  exists segments,
    _extract_latex_comments text = Ok segments
    /\ latex_segments text 0 segments.
Proof.
  intros Hwf. unfold _extract_latex_comments.
  destruct (latex_lines_spec text Hwf (length text) 0 [] ltac:(lia) ltac:(lia))
    as (new & Hnew & Hsegs).
  exists new. split; [exact Hnew|exact Hsegs].
Qed.

Lemma extract_latex_comments_spec_witness :
  wf_text latex_text = true
  /\ exists segments,
       _extract_latex_comments latex_text = Ok segments
       /\ latex_segments latex_text 0 segments.
Proof.
  split; [reflexivity|].
  apply (extract_latex_comments_spec latex_text). reflexivity.
Defined.

(** 50\% %% on / x: the escaped sign is skipped, the comment runs from the
    next one to the end of the first line. *)
Example extract_latex_comments_sample :
  _extract_latex_comments latex_text
  = Ok [mkCommentSegment 5 10 (lit "   on")].
Proof. reflexivity. Qed.

Lemma blanked_where_refl S l : blanked_where S l l.
Proof. split; [done|]. intros i c H. by left. Qed.

Lemma blanked_where_trans S l1 l2 l3 :
  blanked_where S l1 l2 -> blanked_where S l2 l3 -> blanked_where S l1 l3.
Proof.
  intros [L1 H1] [L2 H2]. split; [congruence|]. intros i c Hc.
  destruct (H1 i c Hc) as [H|[H HS]].
  - by apply H2.
  - right. split; [|done]. destruct (H2 i SPACE H) as [H'|[H' _]]; done.
Qed.

Lemma blanked_where_weaken (S S' : nat -> Z -> Prop) l1 l2 :
  (forall i c, S i c -> S' i c) -> blanked_where S l1 l2 ->
  blanked_where S' l1 l2.
Proof.
  intros HS [L H]. split; [done|]. intros i c Hc.
  destruct (H i c Hc) as [?|[? ?]]; [by left|right; auto].
Qed.

Lemma blanked_where_insert (S : nat -> Z -> Prop) (l : list Z) i :
  (forall c, l !! i = Some c -> S i c) ->
  blanked_where S l (<[i := SPACE]> l).
Proof.
  intros HS. split; [by rewrite length_insert|]. intros j c Hc.
  destruct (decide (i = j)) as [->|Hne].
  - right. split; [|by apply HS].
    apply list_lookup_insert_eq. by apply lookup_lt_Some in Hc.
  - left. by rewrite list_lookup_insert_ne.
Qed.

Lemma blanked_where_blank_while p fuel : forall i l,
  blanked_where (fun _ c => p c = true) l (snd (blank_while p fuel i l)).
Proof.
  induction fuel as [|fuel IH]; intros i l; cbn [blank_while];
    [apply blanked_where_refl|].
  destruct (l !! i) as [c|] eqn:Ec; [|apply blanked_where_refl].
  destruct (p c) eqn:Ep; [|apply blanked_where_refl].
  eapply blanked_where_trans; [|apply IH].
  apply blanked_where_insert. intros c' Hc'. congruence.
Qed.

Lemma sanitize_latex_blanks_markers (text : list Z) :
  blanked_where (fun i c => i = O \/ latex_marker c) text
    (_sanitize_latex_comment text).
Proof.
  unfold _sanitize_latex_comment.
  destruct text as [|c0 text]; [apply blanked_where_refl|].
  remember (c0 :: text) as l eqn:Hl.
  assert (Hat : blanked_where (fun i c => i = O \/ latex_marker c) l
                  (blank_at l 0)).
  { unfold blank_at, index. rewrite Hl. unfold len. cbn [length].
    replace ((0 <=? 0) && (0 <? Z.of_nat (S (length text)))) with true
      by (symmetry; apply andb_true_iff; split;
          [done|apply Z.ltb_lt; lia]).
    apply blanked_where_insert. intros; by left. }
  pose proof (blanked_where_blank_while (Z.eqb PERCENT) (length l) 1
                (blank_at l 0)) as H1.
  destruct (blank_while (Z.eqb PERCENT) (length l) 1 (blank_at l 0))
    as [i1 r1]. cbn [snd] in H1.
  pose proof (blanked_where_blank_while is_blank (length l) i1 r1) as H2.
  destruct (blank_while is_blank (length l) i1 r1) as [i2 r2]. cbn [snd] in H2.
  eapply blanked_where_trans; [exact Hat|].
  eapply blanked_where_trans.
  - eapply blanked_where_weaken; [|exact H1].
    intros i c Hc. apply Z.eqb_eq in Hc. right. left. done.
  - eapply blanked_where_weaken; [|exact H2].
    intros i c Hc. unfold is_blank, char_in in Hc. cbn [existsb] in Hc.
    right. unfold latex_marker.
    destruct (c =? SPACE) eqn:E1; [apply Z.eqb_eq in E1; auto|].
    destruct (c =? TAB) eqn:E2; [apply Z.eqb_eq in E2; auto|]. done.
Qed.

Lemma overlay_lookup (masked : list Z) s san i :
  (s + length san <= length masked)%nat ->
  overlay masked s san !! i
  = if decide (s <= i < s + length san)%nat then san !! (i - s)%nat
    else masked !! i.
Proof.
  intros Hlen. unfold overlay.
  rewrite (take_ge (take s masked ++ san))
    by (rewrite length_app, length_take; lia).
  destruct (decide (s <= i < s + length san)%nat) as [Hin|Hout].
  - rewrite <- app_assoc, lookup_app_r by (rewrite length_take; lia).
    rewrite length_take, Nat.min_l by lia.
    by rewrite lookup_app_l by lia.
  - destruct (decide (i < s)%nat).
    + rewrite <- app_assoc, lookup_app_l by (rewrite length_take; lia).
      by rewrite lookup_take_lt.
    + rewrite lookup_app_r by (rewrite length_app, length_take; lia).
      rewrite length_app, length_take, Nat.min_l by lia.
      rewrite lookup_drop. f_equal. lia.
Qed.

Lemma latex_segment_cover text c e seg (i : nat) :
  latex_segment text c e seg -> (i < length text)%nat ->
  (seg_start_byte seg <= utf8_len (take i text) < seg_end_byte seg)
  <-> (c <= i < e)%nat.
Proof.
  intros (Hce & -> & -> & _) Hi. split.
  - intros [H1 H2]. split.
    + destruct (decide (c <= i)%nat); [done|].
      pose proof (utf8_len_take_lt text i c ltac:(lia)). lia.
    + destruct (decide (i < e)%nat); [done|].
      destruct (decide (i = e)) as [->|]; [lia|].
      pose proof (utf8_len_take_lt text e i ltac:(lia)). lia.
  - intros [H1 H2]. split.
    + destruct (decide (c = i)) as [->|]; [lia|].
      pose proof (utf8_len_take_lt text c i ltac:(lia)). lia.
    + apply utf8_len_take_lt. lia.
Qed.

Lemma overlay_latex_segments text bs :
  wf_text text = true -> encode text = Ok bs ->
  forall segs masked,
  Forall (fun seg => exists c e, latex_segment text c e seg) segs ->
  length masked = length text ->
  length (overlay_segments bs segs masked) = length text
  /\ forall i ch, text !! i = Some ch ->
       (in_segments text segs i ->
        overlay_segments bs segs masked !! i = Some ch
        \/ (overlay_segments bs segs masked !! i = Some SPACE
            /\ latex_marker ch))
       /\ (~ in_segments text segs i ->
           overlay_segments bs segs masked !! i = masked !! i).
Proof.
  intros Hwf Hbs. induction segs as [|seg rest IH]; intros masked Hsegs Hlen.
  - split; [done|]. intros i ch Hch. split; [|done].
    intros H. by apply Exists_nil in H.
  - apply Forall_cons in Hsegs as [(c & e & Hseg) Hrest].
    pose proof Hseg as (Hce & Hsb & Heb & [Hpc _] & _ & _ & Hsan).
    set (comment := take (e - c) (drop c text)) in *.
    assert (Hclen : length comment = (e - c)%nat).
    { unfold comment. rewrite length_take, length_drop. lia. }
    destruct (sanitize_latex_blanks_markers comment) as [Hsl Hsw].
    rewrite <- Hsan in Hsl, Hsw.
    assert (Hstart : seg_start_char bs seg = c).
    { unfold seg_start_char. rewrite Hsb.
      rewrite (decode_prefix text c bs Hwf Hbs), length_take. lia. }
    cbn [overlay_segments fold_left].
    fold (overlay_segments bs rest
            (overlay masked (seg_start_char bs seg) (sanitized seg))).
    rewrite Hstart.
    destruct (IH (overlay masked c (sanitized seg)) Hrest
                ltac:(by rewrite overlay_length)) as [IHl IHp].
    split; [done|]. intros i ch Hch.
    pose proof (lookup_lt_Some _ _ _ Hch) as Hi.
    destruct (IHp i ch Hch) as [IHin IHout].
    pose proof (latex_segment_cover text c e seg i Hseg Hi) as Hcov.
    assert (Hov : overlay masked c (sanitized seg) !! i
                  = if decide (c <= i < e)%nat
                    then sanitized seg !! (i - c)%nat else masked !! i).
    { rewrite overlay_lookup by lia.
      destruct (decide (c <= i < e)%nat), (decide (c <= i < c + length (sanitized seg))%nat);
        try done; lia. }
    assert (Hdec : forall s : CommentSegment,
      Decision (seg_start_byte s <= utf8_len (take i text) < seg_end_byte s))
      by (intros; apply _).
    destruct (decide (in_segments text rest i)) as [Hr|Hr].
    + split; [intros _; by apply IHin|].
      intros Hn. exfalso. apply Hn. apply Exists_cons. by right.
    + rewrite (IHout Hr), Hov. split.
      * intros Hin. apply Exists_cons in Hin as [Hin|Hin]; [|done].
        apply Hcov in Hin. rewrite decide_True by done.
        assert (comment !! (i - c)%nat = Some ch) as Hcc.
        { unfold comment. rewrite lookup_take_lt by lia.
          rewrite lookup_drop. rewrite <- Hch. f_equal. lia. }
        destruct (Hsw _ _ Hcc) as [H|[H HS]]; [by left|].
        right. split; [done|]. destruct HS as [H0|HS]; [|done].
        assert (i = c) as -> by lia. left. congruence.
      * intros Hn. rewrite decide_False; [done|].
        intros Hin. apply Hn. apply Exists_cons. left. by apply Hcov.
Qed.

Lemma latex_segments_forall text : forall segs pos,
  latex_segments text pos segs ->
  Forall (fun seg => exists c e, latex_segment text c e seg) segs.
Proof.
  induction segs as [|seg rest IH]; intros pos H; [constructor|].
  destruct H as (c & e & _ & _ & Hseg & Hrest).
  constructor; [by exists c, e|]. by eapply IH.
Qed.

(** X21. Extracting the LaTeX comments of a text that encodes and masking
    the text with them never raises and gives a text of the same length in
    which every character is the original or a space and every [\n] and
    [\r] is kept; a character outside the comments, other than a line
    break, is blanked; and a character inside a comment that is neither a
    percent sign, a space nor a tab is kept, so the words of the comments
    stay at their positions. *)
Theorem latex_mask_keeps_comments (text : list Z) :
  wf_text text = true ->
  exists segments out,
    _extract_latex_comments text = Ok segments
    /\ mask_text_except_comments (lit "latex") text segments = Ok out
    /\ length out = length text
    /\ forall i c, text !! i = Some c ->
         (out !! i = Some c \/ out !! i = Some SPACE)
         /\ (c = NL \/ c = CR -> out !! i = Some c)
         /\ (in_segments text segments i ->
             c <> PERCENT -> c <> SPACE -> c <> TAB -> out !! i = Some c)
         /\ (~ in_segments text segments i ->
             c <> NL -> c <> CR -> out !! i = Some SPACE).
Proof.
  intros Hwf.
  destruct (latex_lines_spec text Hwf (length text) 0 [] ltac:(lia) ltac:(lia))
    as (segs & Hex & Hsegs).
  destruct (encode_wf text Hwf) as (bs & Hbs & _).
  apply latex_segments_forall in Hsegs.
  destruct (overlay_latex_segments text bs Hwf Hbs segs (mask_join text)
              Hsegs (mask_join_length text)) as [Hlen Hpos].
  exists segs, (overlay_segments bs segs (mask_join text)).
  split; [exact Hex|]. split.
  { destruct segs as [|seg rest]; [done|].
    unfold mask_text_except_comments. rewrite Hbs. ok_step.
    by rewrite restore_segments_spec, mask_all_join. }
  split; [done|]. intros i c Hc.
  destruct (Hpos i c Hc) as [Hin Hout].
  assert (Hmj : mask_join text !! i
                = Some (if not_newline c then SPACE else c)).
  { unfold mask_join. by rewrite list_lookup_fmap, Hc. }
  assert (Hdec : forall s : CommentSegment,
    Decision (seg_start_byte s <= utf8_len (take i text) < seg_end_byte s))
    by (intros; apply _).
  assert (Hnn : c <> NL -> c <> CR -> not_newline c = true).
  { intros H1 H2. unfold not_newline, char_in. cbn [existsb].
    rewrite (proj2 (Z.eqb_neq c NL)), (proj2 (Z.eqb_neq c CR)) by done.
    done. }
  assert (Hnl : c = NL \/ c = CR -> not_newline c = false).
  { by intros [->| ->]. }
  destruct (decide (in_segments text segs i)) as [Hi|Hi].
  - specialize (Hin Hi). split; [|split; [|split]].
    + destruct Hin as [?|[? _]]; auto.
    + intros Hc'. destruct Hin as [?|[_ Hm]]; [done|].
      exfalso. destruct Hc' as [->| ->], Hm as [?|[?|?]]; done.
    + intros _ H1 H2 H3. destruct Hin as [?|[_ Hm]]; [done|].
      exfalso. destruct Hm as [?|[?|?]]; done.
    + done.
  - specialize (Hout Hi). rewrite Hout, Hmj. split; [|split; [|split]].
    + destruct (not_newline c); auto.
    + intros Hc'. by rewrite (Hnl Hc').
    + done.
    + intros _ H1 H2. by rewrite (Hnn H1 H2).
Qed.

Lemma latex_mask_keeps_comments_witness :
  wf_text latex_text = true
  /\ exists segments out,
       _extract_latex_comments latex_text = Ok segments
       /\ mask_text_except_comments (lit "latex") latex_text segments = Ok out
       /\ length out = length latex_text
       /\ forall i c, latex_text !! i = Some c ->
            (out !! i = Some c \/ out !! i = Some SPACE)
            /\ (c = NL \/ c = CR -> out !! i = Some c)
            /\ (in_segments latex_text segments i ->
                c <> PERCENT -> c <> SPACE -> c <> TAB -> out !! i = Some c)
            /\ (~ in_segments latex_text segments i ->
                c <> NL -> c <> CR -> out !! i = Some SPACE).
Proof.
  split; [reflexivity|].
  apply (latex_mask_keeps_comments latex_text). reflexivity.
Defined.

(** 50\% %% on / x is masked to eight spaces, on, the newline and a
    space. *)
Example latex_mask_sample :
  mask_text_except_comments (lit "latex") latex_text
    [mkCommentSegment 5 10 (lit "   on")]
  = Ok (lit "        on" ++ [NL] ++ lit " ").
Proof. reflexivity. Qed.

End LatexProofs.

(* ===================================================================== *)
(** ** Incremental document changes                                       *)
(* ===================================================================== *)

Section ChangeProofs.
Import PyMore ServerFns AuxMore Samples SamplesMore.

Lemma position_to_offset_ok text (p : Server.Position) :
  0 <= Server.line p ->
  exists o : nat,
    Server._position_to_offset text p = Ok (Z.of_nat o)
    /\ (o <= S (length text))%nat.
Proof.
  intros Hl. destruct p as [pl pc]. cbn [Server.line] in Hl.
  replace pl with (Z.of_nat (Z.to_nat pl)) by lia.
  destruct (split NL text !! Z.to_nat pl) as [l|] eqn:El.
  - rewrite (server_position_to_offset_line text _ l pc El).
    pose proof (walk_line_bound l pc 0 0) as Hw. unfold len in Hw.
    pose proof (line_offset_le_length _ _ _ El) as Hle.
    rewrite split_join in Hle.
    exists (line_offset (Z.to_nat pl) (split NL text)
            + Z.to_nat (Server.walk_line pc l 0 0))%nat.
    split; [f_equal; lia|lia].
  - apply lookup_ge_None in El.
    rewrite (server_position_to_offset_past text _ pc El).
    exists (S (length text)). split; [f_equal; unfold len; lia|lia].
Qed.

Lemma slice_to_from {A} (l : list A) o : slice_to l o ++ slice_from l o = l.
Proof. unfold slice_to, slice_from. apply take_drop. Qed.

(** X22. One incremental change of [on_did_change], for a range whose
    line numbers are not negative, never raises.  A change with an empty
    range and an empty text leaves the document as it is; for a start and
    an end that are valid positions the result is the text before the
    start, the new text, and the text from the end on; a range from
    (0, 0) to a line past the last one replaces the whole document; and a
    change at a line past the last one appends to the document. *)
Theorem incremental_change_splices (text : list Z) :
  (forall p : Server.Position, 0 <= Server.line p ->
     apply_change text p p [] = Ok text)
  /\ (forall (n k n' k' : nat) (l l' change_text : list Z),
        split NL text !! n = Some l -> (k <= length l)%nat ->
        split NL text !! n' = Some l' -> (k' <= length l')%nat ->
        apply_change text
          (Server.mkPosition (Z.of_nat n) (Server.utf16_length (take k l) 0))
          (Server.mkPosition (Z.of_nat n')
             (Server.utf16_length (take k' l') 0))
          change_text
        = Ok (take (line_offset n (split NL text) + k) text
              ++ change_text
              ++ drop (line_offset n' (split NL text) + k') text))
  /\ (forall (e : Server.Position) (change_text : list Z),
        len (split NL text) <= Server.line e ->
        apply_change text (Server.mkPosition 0 0) e change_text
        = Ok change_text)
  /\ (forall (p : Server.Position) (change_text : list Z),
        len (split NL text) <= Server.line p ->
        apply_change text p p change_text = Ok (text ++ change_text)).
Proof.
  assert (Hpast : forall p : Server.Position,
    len (split NL text) <= Server.line p ->
    Server._position_to_offset text p = Ok (Z.of_nat (S (length text)))).
  { intros [pl pc] Hp. cbn [Server.line] in Hp. unfold len in Hp.
    replace pl with (Z.of_nat (Z.to_nat pl)) by lia.
    rewrite server_position_to_offset_past by lia.
    f_equal. unfold len. lia. }
  split; [|split; [|split]].
  - intros p Hp. unfold apply_change.
    destruct (position_to_offset_ok text p Hp) as (o & -> & _).
    ok_step. ok_step. cbn [app]. by rewrite slice_to_from.
  - intros n k n' k' l l' s Hn Hk Hn' Hk'. unfold apply_change.
    rewrite (position_to_offset_valid text n k l Hn Hk). ok_step.
    rewrite (position_to_offset_valid text n' k' l' Hn' Hk'). ok_step.
    by rewrite slice_to_nat, slice_from_nat.
  - intros e s He. unfold apply_change.
    destruct (split NL text) as [|l0 rest] eqn:Es;
      [by apply split_nonempty in Es|].
    change (Server.mkPosition 0 0) with (Server.mkPosition (Z.of_nat 0) 0).
    rewrite (server_position_to_offset_line text 0 l0 0)
      by (by rewrite Es).
    rewrite Es. cbn [line_offset].
    assert (Server.walk_line 0 l0 0 0 = 0) as -> by (by destruct l0).
    ok_step. rewrite (Hpast e He). ok_step.
    rewrite slice_from_nat, drop_ge by lia.
    change (Z.of_nat 0 + 0) with (Z.of_nat 0).
    by rewrite slice_to_nat, take_0, app_nil_r.
  - intros p s Hp. unfold apply_change. rewrite (Hpast p Hp).
    ok_step. ok_step.
    rewrite slice_to_nat, slice_from_nat, take_ge, drop_ge by lia.
    by rewrite app_nil_r.
Qed.

(** A line number below [-len(lines)] makes [lines[position.line]] raise. *)
Example position_to_offset_negative_line :
  Server._position_to_offset (lit "a") (Server.mkPosition (-2) 0)
  = Raise IndexError.
Proof. reflexivity. Qed.

End ChangeProofs.

(* ===================================================================== *)
(** ** Closing dollar signs of LaTeX math                                 *)
(* ===================================================================== *)

Section DollarProofs.
Import PyMore LatexComments AuxMore Samples SamplesMore.

Lemma closing_dollar_loop_spec text : forall fuel (cur : nat),
  (cur <= length text)%nat -> (length text - cur <= fuel)%nat ->
  exists r,
    closing_dollar_loop fuel text (Z.of_nat cur) (len text) = Ok r
    /\ ((r = -1
         /\ forall j, (cur <= j < length text)%nat ->
                      ~ unescaped_at DOLLAR text j)
        \/ (exists c : nat,
              r = Z.of_nat c /\ (cur <= c < length text)%nat
              /\ unescaped_at DOLLAR text c
              /\ forall j, (cur <= j < c)%nat ->
                           ~ unescaped_at DOLLAR text j)).
Proof.
  induction fuel as [|f IH]; intros cur Hc Hf.
  - exists (-1). split; [done|]. left. split; [done|]. intros j Hj. lia.
  - cbn [closing_dollar_loop]. unfold len.
    destruct (Z.of_nat cur <? Z.of_nat (length text)) eqn:E.
    2:{ apply Z.ltb_ge in E. exists (-1). split; [done|]. left.
        split; [done|]. intros j Hj. lia. }
    apply Z.ltb_lt in E.
    destruct (lookup_lt_is_Some_2 text cur ltac:(lia)) as (c & Hcx).
    rewrite (getitem_nat _ _ _ Hcx). ok_step.
    assert (Hesc : _is_escaped text (Z.of_nat cur)
                   = Ok (Nat.odd (run (Z.eqb BACKSLASH)
                                    (rev (take cur text)))))
      by (apply is_escaped_spec; lia).
    set (esc := Nat.odd _) in Hesc.
    assert (Hrec : (c = DOLLAR -> esc = true) ->
      exists r,
        closing_dollar_loop f text (Z.of_nat cur + 1)
          (Z.of_nat (length text)) = Ok r
        /\ ((r = -1
             /\ forall j, (cur <= j < length text)%nat ->
                          ~ unescaped_at DOLLAR text j)
            \/ (exists c0 : nat,
                  r = Z.of_nat c0 /\ (cur <= c0 < length text)%nat
                  /\ unescaped_at DOLLAR text c0
                  /\ forall j, (cur <= j < c0)%nat ->
                               ~ unescaped_at DOLLAR text j))).
    { intros Hno.
      assert (Hcur : ~ unescaped_at DOLLAR text cur).
      { intros [H1 H2]. rewrite Hesc in H2.
        rewrite Hno in H2 by congruence. done. }
      replace (Z.of_nat cur + 1) with (Z.of_nat (S cur)) by lia.
      destruct (IH (S cur) ltac:(lia) ltac:(lia)) as (r & Hr & Hcase).
      unfold len in Hr. exists r. split; [done|].
      destruct Hcase as [[-> Hnone]|(c0 & -> & Hrange & Hun & Hfirst)].
      - left. split; [done|]. intros j Hj.
        destruct (decide (j = cur)) as [->|]; [done|]. apply Hnone. lia.
      - right. exists c0. split; [done|]. split; [lia|]. split; [done|].
        intros j Hj. destruct (decide (j = cur)) as [->|]; [done|].
        apply Hfirst. lia. }
    destruct (c =? DOLLAR) eqn:Ec.
    + apply Z.eqb_eq in Ec. rewrite Hesc. ok_step. ok_step.
      destruct esc eqn:Eesc; cbn [negb].
      * destruct (Hrec ltac:(done)) as (r & -> & H). by exists r.
      * exists (Z.of_nat cur). split; [done|]. right. exists cur.
        split; [done|]. split; [lia|]. subst c. split; [by split|].
        intros j Hj. lia.
    + apply Z.eqb_neq in Ec. ok_step.
      destruct (Hrec ltac:(done)) as (r & -> & H). by exists r.
Qed.

Lemma closing_double_dollar_loop_spec text : forall fuel (cur : nat),
  (S cur <= length text)%nat -> (length text - 1 - cur <= fuel)%nat ->
  exists r,
    closing_double_dollar_loop fuel text (Z.of_nat cur) (len text - 1) = Ok r
    /\ ((r = -1
         /\ forall j, (cur <= j)%nat -> ~ double_dollar_at text j)
        \/ (exists c : nat,
              r = Z.of_nat c /\ (cur <= c)%nat /\ double_dollar_at text c
              /\ forall j, (cur <= j < c)%nat -> ~ double_dollar_at text j)).
Proof.
  assert (Hend : forall j, (length text - 1 <= j)%nat ->
                           ~ double_dollar_at text j).
  { intros j Hj [_ H]. apply lookup_lt_Some in H. lia. }
  induction fuel as [|f IH]; intros cur Hc Hf.
  - exists (-1). split; [done|]. left. split; [done|].
    intros j Hj. apply Hend. lia.
  - cbn [closing_double_dollar_loop]. unfold len.
    destruct (Z.of_nat cur <? Z.of_nat (length text) - 1) eqn:E.
    2:{ apply Z.ltb_ge in E. exists (-1). split; [done|]. left.
        split; [done|]. intros j Hj. apply Hend. lia. }
    apply Z.ltb_lt in E.
    destruct (lookup_lt_is_Some_2 text cur ltac:(lia)) as (c & Hcx).
    destruct (lookup_lt_is_Some_2 text (S cur) ltac:(lia)) as (c' & Hcx').
    rewrite (getitem_nat _ _ _ Hcx). ok_step.
    replace (Z.of_nat cur + 1) with (Z.of_nat (S cur)) by lia.
    assert (Hesc : _is_escaped text (Z.of_nat cur)
                   = Ok (Nat.odd (run (Z.eqb BACKSLASH)
                                    (rev (take cur text)))))
      by (apply is_escaped_spec; lia).
    set (esc := Nat.odd _) in Hesc.
    assert (Hrec : ~ double_dollar_at text cur ->
      exists r,
        closing_double_dollar_loop f text (Z.of_nat (S cur))
          (Z.of_nat (length text) - 1) = Ok r
        /\ ((r = -1
             /\ forall j, (cur <= j)%nat -> ~ double_dollar_at text j)
            \/ (exists c0 : nat,
                  r = Z.of_nat c0 /\ (cur <= c0)%nat
                  /\ double_dollar_at text c0
                  /\ forall j, (cur <= j < c0)%nat ->
                               ~ double_dollar_at text j))).
    { intros Hcur.
      destruct (decide (S (S cur) <= length text)%nat) as [Hlen|Hlen].
      - destruct (IH (S cur) ltac:(lia) ltac:(lia)) as (r & Hr & Hcase).
        unfold len in Hr. exists r. split; [done|].
        destruct Hcase as [[-> Hnone]|(c0 & -> & Hrange & Hun & Hfirst)].
        + left. split; [done|]. intros j Hj.
          destruct (decide (j = cur)) as [->|]; [done|]. apply Hnone. lia.
        + right. exists c0. split; [done|]. split; [lia|]. split; [done|].
          intros j Hj. destruct (decide (j = cur)) as [->|]; [done|].
          apply Hfirst. lia.
      - lia. }
    destruct (c =? DOLLAR) eqn:Ec.
    + apply Z.eqb_eq in Ec. subst c.
      rewrite (getitem_nat _ _ _ Hcx'). ok_step.
      destruct (c' =? DOLLAR) eqn:Ec'.
      * apply Z.eqb_eq in Ec'. subst c'. rewrite Hesc. ok_step. ok_step.
        destruct esc eqn:Eesc; cbn [negb].
        -- destruct Hrec as (r & -> & H); [|by exists r].
           intros [[_ H] _]. rewrite Hesc in H. done.
        -- exists (Z.of_nat cur). split; [done|]. right. exists cur.
           split; [done|]. split; [lia|]. split; [by repeat split|].
           intros j Hj. lia.
      * apply Z.eqb_neq in Ec'. ok_step.
        destruct Hrec as (r & -> & H); [|by exists r].
        intros [_ H]. congruence.
    + apply Z.eqb_neq in Ec. ok_step.
      destruct Hrec as (r & -> & H); [|by exists r].
      intros [[H _] _]. congruence.
Qed.

(** X23. [_find_closing_dollar(text, pos)], for a start position that is
    not negative, returns the position of the first dollar sign at or
    after [pos] that is not escaped, and -1 when the text has none from
    [pos] on (in particular when [pos] is at or past the end);
    [_find_closing_double_dollar] does the same for the first unescaped
    dollar sign that is followed by another one. *)
Theorem find_closing_dollar_first (text : list Z) (pos : nat) :
  (exists r,
     _find_closing_dollar text (Z.of_nat pos) = Ok r
     /\ ((r = -1
          /\ forall j, (pos <= j < length text)%nat ->
                       ~ unescaped_at DOLLAR text j)
         \/ (exists c : nat,
               r = Z.of_nat c /\ (pos <= c < length text)%nat
               /\ unescaped_at DOLLAR text c
               /\ forall j, (pos <= j < c)%nat ->
                            ~ unescaped_at DOLLAR text j)))
  /\ (exists r,
       _find_closing_double_dollar text (Z.of_nat pos) = Ok r
       /\ ((r = -1
            /\ forall j, (pos <= j)%nat -> ~ double_dollar_at text j)
           \/ (exists c : nat,
                 r = Z.of_nat c /\ (pos <= c)%nat
                 /\ double_dollar_at text c
                 /\ forall j, (pos <= j < c)%nat ->
                              ~ double_dollar_at text j))).
Proof.
  split.
  - unfold _find_closing_dollar.
    destruct (decide (pos <= length text)%nat) as [Hp|Hp].
    + apply closing_dollar_loop_spec; [done|]. unfold len. lia.
    + replace (Z.to_nat (len text - Z.of_nat pos)) with O
        by (unfold len; lia).
      exists (-1). split; [done|]. left. split; [done|]. intros j Hj. lia.
  - unfold _find_closing_double_dollar.
    destruct (decide (S pos <= length text)%nat) as [Hp|Hp].
    + apply closing_double_dollar_loop_spec; [done|]. unfold len. lia.
    + replace (Z.to_nat (len text - 1 - Z.of_nat pos)) with O
        by (unfold len; lia).
      exists (-1). split; [done|]. left. split; [done|].
      intros j Hj [_ H]. apply lookup_lt_Some in H. lia.
Qed.

(** In $a\$b$ c the search from position 1 skips the escaped sign at 3
    and stops at 5. *)
Example find_closing_dollar_sample :
  _find_closing_dollar dollar_text 1 = Ok 5
  /\ _find_closing_dollar dollar_text 6 = Ok (-1).
Proof. split; reflexivity. Qed.

End DollarProofs.

(* ===================================================================== *)
(** ** The rules the claims leave out                                     *)
(* ===================================================================== *)

Section MoreRuleProofs.
Import Analyzer GrammarChecker AuxMore Samples SamplesMore.

Lemma is_adversative_ga_b_ok f :
  _is_adversative_ga f = Ok (is_adversative_ga_b f).
Proof.
  unfold is_adversative_ga_b.
  by destruct (is_adversative_ga_total f) as (b & ->).
Qed.

Lemma is_special_ra_b_ok f : _is_special_ra_case f = Ok (is_special_ra_b f).
Proof.
  unfold is_special_ra_b. by destruct (is_special_ra_case_total f) as (b & ->).
Qed.


Lemma ga_count_spec s : forall tokens ps pre c,
  length ps = length tokens ->
  ga_count (pre ++ ps) s tokens (len pre) c
  = Ok (c + ga_matches tokens ps s).
Proof.
  induction tokens as [|t ts IH]; intros ps pre c Hlen.
  - cbn [ga_count]. unfold ga_matches. destruct ps; [|done].
    cbn [zip zip_with]. rewrite filter_nil. f_equal. unfold len.
    cbn [length]. lia.
  - destruct ps as [|p ps]; [done|]. cbn [ga_count].
    rewrite is_adversative_ga_b_ok. ok_step.
    replace (pre ++ p :: ps) with ((pre ++ [p]) ++ ps)
      by (by rewrite <- app_assoc).
    rewrite <- (len_snoc pre p).
    unfold ga_matches. cbn [zip zip_with].
    destruct (is_adversative_ga_b (feature t)) eqn:Eg; cbn [negb].
    + replace ((pre ++ [p]) ++ ps) with (pre ++ p :: ps) at 1
        by (by rewrite <- app_assoc).
      rewrite getitem_middle. ok_step.
      rewrite IH by (simpl in Hlen; lia). unfold ga_matches.
      destruct (_in_sentence p s) eqn:Es.
      * rewrite filter_cons_True by (cbn [fst snd]; by rewrite Eg, Es).
        f_equal. unfold len. cbn [length]. lia.
      * rewrite filter_cons_False by (cbn [fst snd]; by rewrite Eg, Es).
        done.
    + rewrite IH by (simpl in Hlen; lia). unfold ga_matches.
      rewrite filter_cons_False by (cbn [fst snd]; by rewrite Eg). done.
Qed.

Lemma ga_loop_spec text ls tokens ps m :
  wf_text text = true -> ls <> [] -> length ps = length tokens ->
  forall sentences d,
  exists ds,
    ga_loop text tokens ls ps m sentences d = Ok (d ++ ds)
    /\ Forall2 (ga_reports text ls m tokens ps)
         (filter (fun s => m < ga_matches tokens ps s) sentences) ds.
Proof.
  intros Hwf Hls Hlen.
  induction sentences as [|s rest IH]; intros d; cbn [ga_loop].
  - exists []. split; [by rewrite app_nil_r|constructor].
  - pose proof (ga_count_spec s tokens ps [] 0 Hlen) as Hc.
    cbn [app] in Hc. change (len []) with 0 in Hc. rewrite Hc. ok_step.
    rewrite Z.add_0_l.
    destruct (ga_matches tokens ps s <=? m) eqn:E.
    + apply Z.leb_le in E. destruct (IH d) as (ds & -> & HF).
      exists ds. split; [done|]. rewrite filter_cons_False by lia. done.
    + apply Z.leb_gt in E.
      destruct (make_range_ok text ls (sb_start s) (sb_end s) Hwf Hls)
        as (r & Hr).
      rewrite Hr. ok_step.
      destruct (IH (d ++ [new_diagnostic r 2
                            (ga_message m (ga_matches tokens ps s))]))
        as (ds & -> & HF).
      eexists (_ :: ds). split; [by rewrite <- app_assoc|].
      rewrite filter_cons_True by lia.
      constructor; [|done]. by repeat split.
Qed.

(** X24. With a positive threshold, [_check_adversative_ga] appends one
    warning for each sentence, in order, in which more tokens than the
    threshold are an adversative が (助詞, 接続助詞, base form が) at a
    byte position inside the sentence, and nothing for the other
    sentences; the warning's range is the whole sentence and its message
    carries the threshold plus one and the count. *)
Theorem adversative_ga_flags_exceeding (text : list Z)
  (tokens : list TokenData) (sentences : list SentenceBoundary)
  (line_starts token_byte_positions : list Z)
  (diagnostics : list Diagnostic) (max_count : Z) :
  wf_text text = true -> line_starts <> [] ->
  length token_byte_positions = length tokens ->
  0 < max_count ->
  exists ds,
    _check_adversative_ga text tokens sentences line_starts
      token_byte_positions diagnostics max_count = Ok (diagnostics ++ ds)
    /\ Forall2 (ga_reports text line_starts max_count tokens
                  token_byte_positions)
         (filter (fun s => max_count
                           < ga_matches tokens token_byte_positions s)
                 sentences) ds.
Proof.
  intros Hwf Hls Hlen Hm. unfold _check_adversative_ga.
  destruct (max_count <=? 0) eqn:E; [apply Z.leb_le in E; lia|].
  by apply ga_loop_spec.
Qed.

Lemma adversative_ga_flags_exceeding_witness :
  wf_text ga_text = true
  /\ _compute_line_starts ga_text <> []
  /\ length [0; 3] = length ga_tokens
  /\ 0 < 1
  /\ ga_matches ga_tokens [0; 3] ga_sentence = 2
  /\ exists ds,
       _check_adversative_ga ga_text ga_tokens [ga_sentence]
         (_compute_line_starts ga_text) [0; 3] [] 1 = Ok ([] ++ ds)
       /\ Forall2 (ga_reports ga_text (_compute_line_starts ga_text) 1
                     ga_tokens [0; 3])
            (filter (fun s => 1 < ga_matches ga_tokens [0; 3] s)
                    [ga_sentence]) ds.
Proof.
  split; [reflexivity|]. split; [done|]. split; [reflexivity|].
  split; [lia|]. split; [reflexivity|].
  apply (adversative_ga_flags_exceeding ga_text ga_tokens [ga_sentence]
           (_compute_line_starts ga_text) [0; 3] [] 1);
    [reflexivity|done|reflexivity|lia].
Defined.

Lemma ra_special_loop_spec text ls :
  wf_text text = true -> ls <> [] ->
  forall tokens ps pre d,
  Forall wf_surface tokens -> length ps = length tokens ->
  exists ds,
    ra_special_loop text ls (pre ++ ps) tokens (len pre) d = Ok (d ++ ds)
    /\ Forall2 (ra_reports text ls)
         (filter (fun tp => is_special_ra_b (feature (fst tp)) = true)
                 (zip tokens ps)) ds.
Proof.
  intros Hwf Hls.
  induction tokens as [|t ts IH]; intros ps pre d Hts Hlen.
  - exists []. destruct ps; [|done]. cbn [ra_special_loop].
    split; [by rewrite app_nil_r|constructor].
  - destruct ps as [|p ps]; [done|]. apply Forall_cons in Hts as [Ht Hts].
    cbn [ra_special_loop zip zip_with].
    rewrite is_special_ra_b_ok. ok_step.
    destruct (is_special_ra_b (feature t)) eqn:Es.
    + rewrite getitem_middle. ok_step. rewrite (byte_len_ok _ Ht). ok_step.
      destruct (make_range_ok text ls p (p + utf8_len (surface t)) Hwf Hls)
        as (r & Hr).
      rewrite Hr. ok_step.
      replace (pre ++ p :: ps) with ((pre ++ [p]) ++ ps)
        by (by rewrite <- app_assoc).
      rewrite <- (len_snoc pre p).
      destruct (IH ps (pre ++ [p]) (d ++ [new_diagnostic r 2 message_ra])
                  Hts ltac:(simpl in Hlen; lia)) as (ds & -> & HF).
      eexists (_ :: ds). split; [by rewrite <- app_assoc|].
      rewrite filter_cons_True by done.
      constructor; [|done]. by repeat split.
    + replace (pre ++ p :: ps) with ((pre ++ [p]) ++ ps)
        by (by rewrite <- app_assoc).
      rewrite <- (len_snoc pre p).
      destruct (IH ps (pre ++ [p]) d Hts ltac:(simpl in Hlen; lia))
        as (ds & -> & HF).
      exists ds. split; [done|].
      rewrite filter_cons_False by (cbn [fst]; by rewrite Es). done.
Qed.

(** X25. [_check_ra_dropping] reports the one-token cases first: for each
    token, in order, whose feature marks a verb with base form 来れる or
    見れる it appends one warning whose range runs from the token's byte
    position over the encoded length of its surface; the warnings of the
    two-token pattern, all with the same message, follow them. *)
Theorem ra_special_cases_reported (text : list Z) (tokens : list TokenData)
  (line_starts token_byte_positions : list Z)
  (diagnostics : list Diagnostic) :
  wf_text text = true -> line_starts <> [] ->
  Forall (fun token => wf_text (surface token) = true) tokens ->
  length token_byte_positions = length tokens ->
  exists specials pairs,
    _check_ra_dropping text tokens line_starts token_byte_positions
      diagnostics = Ok (diagnostics ++ specials ++ pairs)
    /\ Forall2 (ra_reports text line_starts)
         (filter (fun tp => is_special_ra_b (feature (fst tp)) = true)
                 (zip tokens token_byte_positions)) specials
    /\ Forall (fun d => severity d = 2 /\ source d = lit "mozuku") pairs.
Proof.
  intros Hwf Hls Hts Hlen. unfold _check_ra_dropping.
  destruct (ra_special_loop_spec text line_starts Hwf Hls tokens
              token_byte_positions [] diagnostics Hts Hlen)
    as (specials & Hs & HF).
  cbn [app] in Hs. change (len []) with 0 in Hs. rewrite Hs. ok_step.
  destruct (ra_pair_loop_extends text line_starts Hwf Hls token_byte_positions
              tokens 0 None (diagnostics ++ specials) Hts)
    as (prev & d2 & -> & (pairs & -> & Hpairs));
    [lia|unfold len; lia|done|].
  ok_step. exists specials, pairs. split; [by rewrite <- app_assoc|].
  split; [done|]. exact Hpairs.
Qed.

Lemma ra_special_cases_reported_witness :
  wf_text MIRERU = true
  /\ _compute_line_starts MIRERU <> []
  /\ Forall (fun token => wf_text (surface token) = true) [mireru_token]
  /\ length [0] = length [mireru_token]
  /\ is_special_ra_b (feature mireru_token) = true
  /\ exists specials pairs,
       _check_ra_dropping MIRERU [mireru_token]
         (_compute_line_starts MIRERU) [0] []
       = Ok ([] ++ specials ++ pairs)
       /\ Forall2 (ra_reports MIRERU (_compute_line_starts MIRERU))
            (filter (fun tp => is_special_ra_b (feature (fst tp)) = true)
                    (zip [mireru_token] [0])) specials
       /\ Forall (fun d => severity d = 2 /\ source d = lit "mozuku") pairs.
Proof.
  assert (Forall (fun token => wf_text (surface token) = true)
                 [mireru_token]) as H by (by repeat constructor).
  split; [reflexivity|]. split; [done|]. split; [exact H|].
  split; [reflexivity|]. split; [reflexivity|].
  apply (ra_special_cases_reported MIRERU [mireru_token]
           (_compute_line_starts MIRERU) [0] []);
    [reflexivity|done|exact H|reflexivity].
Defined.

End MoreRuleProofs.

Section ConjunctionProofs.
Import Analyzer GrammarChecker AuxMore Samples SamplesMore.



(** しかししかし on one line is reported. *)
Example conjunction_repeat_same_line :
  _check_conjunction_repeats shikashi_one_line [shikashi_a; shikashi_b]
    (_compute_line_starts shikashi_one_line) [0; 9] [] 1
  = Ok [new_diagnostic (mkRange (mkPosition 0 0) (mkPosition 0 6)) 2
          (conj_message SHIKASHI)].
Proof. vm_compute. reflexivity. Qed.

End ConjunctionProofs.

(* ===================================================================== *)
(** ** The Wikipedia summary cache                                        *)
(* ===================================================================== *)

Section CacheProofs.
Import PyMore Wikipedia.

Variable float : Type.
Variable fsub : float -> float -> float.
Variable fgt : float -> Z -> bool.
Variable flt : float -> float -> bool.

Local Abbreviation Entry := (CacheEntry float).

Lemma str_eqb_eq (a b : list Z) : str_eqb a b = true <-> a = b.
Proof. unfold str_eqb. apply bool_decide_eq_true. Qed.

Lemma str_eqb_neq (a b : list Z) : str_eqb a b = false <-> a <> b.
Proof. unfold str_eqb. apply bool_decide_eq_false. Qed.

Lemma dict_lookup_set_eq {V} (d : dict V) k v :
  dict_lookup (dict_set d k v) k = Some v.
Proof.
  induction d as [|[k' v'] d IH]; cbn [dict_set dict_lookup].
  - by rewrite (proj2 (str_eqb_eq k k)).
  - destruct (str_eqb k' k) eqn:E; cbn [dict_lookup]; rewrite E; done.
Qed.




Lemma dict_del_length {V} (d : dict V) k :
  (length (dict_del d k) <= length d)%nat
  /\ (k ∈ d.*1 -> S (length (dict_del d k)) = length d).
Proof.
  induction d as [|[k0 v0] d [IH1 IH2]]; cbn [dict_del].
  - split; [done|]. by intros ?%elem_of_nil.
  - destruct (str_eqb k0 k) eqn:E.
    + split; [simpl; lia|done].
    + split; [simpl; lia|]. cbn. intros [->|Hin]%elem_of_cons.
      * by apply str_eqb_neq in E.
      * rewrite <- (IH2 Hin). done.
Qed.

Lemma dict_lookup_del_ne {V} (d : dict V) k k' :
  k' <> k -> dict_lookup (dict_del d k) k' = dict_lookup d k'.
Proof.
  intros Hne. induction d as [|[k0 v0] d IH]; cbn [dict_del dict_lookup];
    [done|].
  destruct (str_eqb k0 k) eqn:E; cbn [dict_lookup].
  - apply str_eqb_eq in E. subst k0.
    by rewrite (proj2 (str_eqb_neq k k')).
  - by rewrite IH.
Qed.

Lemma dict_lookup_none {V} (d : dict V) k :
  k ∉ d.*1 -> dict_lookup d k = None.
Proof.
  induction d as [|[k0 v0] d IH]; [done|]. cbn. intros Hn.
  apply not_elem_of_cons in Hn as [Hne Hn].
  rewrite (proj2 (str_eqb_neq k0 k)) by done. by apply IH.
Qed.

Lemma dict_lookup_some {V} (d : dict V) k v :
  dict_lookup d k = Some v -> k ∈ d.*1.
Proof.
  induction d as [|[k0 v0] d IH]; [done|]. cbn [dict_lookup].
  destruct (str_eqb k0 k) eqn:E.
  - apply str_eqb_eq in E. subst. intros _. cbn. apply elem_of_cons. by left.
  - intros H. cbn. apply elem_of_cons. right. by apply IH.
Qed.

Lemma dict_del_keys {V} (d : dict V) k :
  (forall k', k' ∈ (dict_del d k).*1 -> k' ∈ d.*1)
  /\ (NoDup d.*1 -> NoDup (dict_del d k).*1 /\ k ∉ (dict_del d k).*1).
Proof.
  induction d as [|[k0 v0] d [IH1 IH2]]; cbn [dict_del].
  - split; [done|]. intros _. split; [constructor|].
    by intros ?%elem_of_nil.
  - destruct (str_eqb k0 k) eqn:E.
    + split; [intros k' H; cbn; apply elem_of_cons; by right|].
      apply str_eqb_eq in E. subst k0. cbn.
      intros [Hin Hnd]%NoDup_cons. done.
    + apply str_eqb_neq in E. split.
      * intros k' [->|H]%elem_of_cons; cbn; apply elem_of_cons; auto.
      * cbn. intros [Hin Hnd]%NoDup_cons.
        destruct (IH2 Hnd) as [Hnd' Hk]. split.
        -- apply NoDup_cons. split; [|done]. intros H. by apply Hin, IH1.
        -- intros [->|H]%elem_of_cons; done.
Qed.



(** X28. [get_cached_entry]: a missing key gives None and leaves the cache
    alone; an entry whose age is not above CACHE_TTL_SECONDS is returned,
    the cache unchanged; an entry whose age is above it gives None and is
    deleted, one entry less, every other key untouched.  So a lookup that
    follows [cache_entry] for the same query returns the stored entry
    when its age at the lookup is not above the time-to-live. *)
Theorem get_cached_entry_spec (now : float) (query : list Z)
  (_cache : dict Entry) :
  (dict_lookup _cache query = None ->
   get_cached_entry float fsub fgt now query _cache = (None, _cache))
  /\ (forall entry,
        dict_lookup _cache query = Some entry ->
        fgt (fsub now (timestamp float entry)) CACHE_TTL_SECONDS = false ->
        get_cached_entry float fsub fgt now query _cache
        = (Some entry, _cache))
  /\ (forall entry,
        dict_lookup _cache query = Some entry ->
        fgt (fsub now (timestamp float entry)) CACHE_TTL_SECONDS = true ->
        exists after,
          get_cached_entry float fsub fgt now query _cache = (None, after)
          /\ S (length after) = length _cache
          /\ (forall k, k <> query -> dict_lookup after k = dict_lookup _cache k)
          /\ (NoDup _cache.*1 -> dict_lookup after query = None))
  /\ (forall stored content response_code,
        fgt (fsub now stored) CACHE_TTL_SECONDS = false ->
        fst (get_cached_entry float fsub fgt now query
               (cache_entry float flt stored query content response_code
                  _cache))
        = Some (mkCacheEntry float content response_code stored)).
Proof.
  unfold get_cached_entry. split; [|split; [|split]].
  - by intros ->.
  - intros entry -> Hfresh. by rewrite Hfresh.
  - intros entry He Hold. rewrite He, Hold. eexists. split; [done|].
    split; [|split].
    + apply dict_del_length. by eapply dict_lookup_some.
    + intros k Hk. by apply dict_lookup_del_ne.
    + intros Hnd. apply dict_lookup_none. by apply dict_del_keys.
  - intros stored content response_code Hfresh.
    assert (dict_lookup
              (cache_entry float flt stored query content response_code
                 _cache) query
            = Some (mkCacheEntry float content response_code stored)) as ->
      by apply dict_lookup_set_eq.
    cbn [timestamp]. by rewrite Hfresh.
Qed.

End CacheProofs.

(** With integer seconds for the clock: an entry stored at 1000 is found
    at 1500 and has expired at 2000. *)
Example cache_round_trip_sample :
  Wikipedia.get_cached_entry Z Z.sub Z.gtb 1500 (lit "q")
    (Wikipedia.cache_entry Z Z.ltb 1000 (lit "q") (lit "summary") 200 [])
  = (Some (Wikipedia.mkCacheEntry Z (lit "summary") 200 1000),
     [(lit "q", Wikipedia.mkCacheEntry Z (lit "summary") 200 1000)])
  /\ Wikipedia.get_cached_entry Z Z.sub Z.gtb 2000 (lit "q")
       (Wikipedia.cache_entry Z Z.ltb 1000 (lit "q") (lit "summary") 200 [])
     = (None, []).
Proof. split; reflexivity. Qed.
